(** * Talisman chain connectors: socket pool, request multiplexer, EVM endpoint selection

    A shallow embedding of
      - packages/chain-connector/src/ChainConnector.ts
      - packages/chain-connector-evm/src/util.ts
    together with the properties stated about them. *)

From Stdlib Require Import ZArith Lia List String Ascii Permutation Bool.
From stdpp Require Import base gmap list strings.

Local Open Scope Z_scope.

(** ** The fragment of JavaScript numbers and arrays the sources use *)

Module JS.

(** A non-negative binary64 value, written as the fraction [dnum / 2^dexp]. *)
Record dyadic := Dy { dnum : Z; dexp : Z }.

(** What [Math.random()] may return: a binary64 in [0, 1).  Such a number has
    a significand below [2^53] and sits on the grid of multiples of
    [2^-1074]. *)
Definition is_random (r : dyadic) : Prop :=
  0 <= dnum r < 2 ^ 53 /\ 0 <= dexp r <= 1074 /\ dnum r < 2 ^ dexp r.

Definition is_randomb (r : dyadic) : bool :=
  (0 <=? dnum r) && (dnum r <? 2 ^ 53) && (0 <=? dexp r) && (dexp r <=? 1074)
  && (dnum r <? 2 ^ dexp r).

(** Round a non-negative integer to 53 significant bits, to nearest, ties to
    even: the rounding of every binary64 operation. *)
Definition round53 (n : Z) : Z :=
  if n <? 2 ^ 53 then n
  else
    let k := Z.log2 n - 52 in
    let q := Z.shiftr n k in
    let r := n - Z.shiftl q k in
    let half := 2 ^ (k - 1) in
    let q' := if (half <? r) || ((r =? half) && Z.odd q) then q + 1 else q in
    Z.shiftl q' k.

(** [Math.pow(10, 8)] is exactly the integer 100000000. *)
Definition Math_pow_10_8 : Z := 10 ^ 8.

(** [x * c] for a binary64 [x >= 0] and a positive integer constant [c]: the
    exact product rounded once.  ([x] is below 1 where this is used, so the
    product neither overflows nor leaves the [2^-1074] grid.) *)
Definition fmul (x : dyadic) (c : Z) : dyadic :=
  Dy (round53 (dnum x * c)) (dexp x).

(** [Math.trunc] on a non-negative number. *)
Definition Math_trunc (x : dyadic) : Z := dnum x / 2 ^ dexp x.

(** [Array.prototype.includes] on an array of integers. *)
Definition includes (l : list Z) (x : Z) : bool :=
  existsb (Z.eqb x) l.

(** [Array.prototype.indexOf] on an array of integers: [None] stands for -1. *)
Fixpoint indexOf (l : list Z) (x : Z) : option nat :=
  match l with
  | [] => None
  | y :: l' => if Z.eqb y x then Some O else option_map S (indexOf l' x)
  end.

(** [l.splice(i, 1)]: the array without its element at index [i]. *)
Fixpoint splice1 (l : list Z) (i : nat) : list Z :=
  match l, i with
  | [], _ => []
  | _ :: l', O => l'
  | y :: l', S i' => y :: splice1 l' i'
  end.

(** A JavaScript string: its UTF-16 code units. *)
Definition jsstring := list N.

(** The code units of an ASCII literal. *)
Definition lit (s : string) : jsstring :=
  map N_of_ascii (list_ascii_of_string s).

(** A JavaScript number, as far as [parseInt] can return one and [===]
    can tell: +0 and -0 are both [Finite 0]. *)
Inductive number :=
| NaN
| Finite (z : Z)
| Infinity (negative : bool).

(** WhiteSpace and LineTerminator code units, which [parseInt] skips. *)
Definition is_StrWhiteSpaceChar (c : N) : bool :=
  let c := Z.of_N c in
  (c =? 9) || (c =? 10) || (c =? 11) || (c =? 12) || (c =? 13) || (c =? 32)
  || (c =? 160) || (c =? 5760) || ((8192 <=? c) && (c <=? 8202))
  || (c =? 8232) || (c =? 8233) || (c =? 8239) || (c =? 8287) || (c =? 12288)
  || (c =? 65279).

Fixpoint trim_start (s : jsstring) : jsstring :=
  match s with
  | c :: s' => if is_StrWhiteSpaceChar c then trim_start s' else s
  | [] => []
  end.

(** The value of a code unit as a radix-16 digit. *)
Definition hex_digit (c : N) : option Z :=
  let c := Z.of_N c in
  if (48 <=? c) && (c <=? 57) then Some (c - 48)
  else if (97 <=? c) && (c <=? 102) then Some (c - 87)
  else if (65 <=? c) && (c <=? 70) then Some (c - 55)
  else None.

(** The longest prefix of radix-16 digits, read as an integer; [None] when
    that prefix is empty. *)
Fixpoint hex_prefix (acc : option Z) (s : jsstring) : option Z :=
  match s with
  | [] => acc
  | c :: s' =>
      match hex_digit c with
      | Some d => hex_prefix (Some (16 * default 0 acc + d)) s'
      | None => acc
      end
  end.

(** The Number value of a non-negative integer, with its sign. *)
Definition to_number (negative : bool) (n : Z) : number :=
  let r := round53 n in
  if 2 ^ 1024 <=? r then Infinity negative
  else Finite (if negative then - r else r).

(** [parseInt(s, 16)] *)
Definition parseInt16 (s : jsstring) : number :=
  let S0 := trim_start s in
  let negative := match S0 with 45%N :: _ => true | _ => false end in
  let S1 := match S0 with
            | 43%N :: t => t
            | 45%N :: t => t
            | _ => S0
            end in
  let S2 := match S1 with
            | 48%N :: 120%N :: t => t
            | 48%N :: 88%N :: t => t
            | _ => S1
            end in
  match hex_prefix None S2 with
  | None => NaN
  | Some mathInt => to_number negative mathInt
  end.

(** [x === n] for a number [x] and an integer-valued number [n] *)
Definition strict_eq_int (x : number) (n : Z) : bool :=
  match x with
  | Finite z => z =? n
  | _ => false
  end.

(** JavaScript values, as far as a property read and an [includes] over
    strings can tell them apart. *)
#[warnings="-register-all"]
Inductive value :=
| VUndefined
| VNull
| VBoolean (b : bool)
| VNumber (x : number)
| VString (s : jsstring)
| VObject (properties : list (string * value)).

Fixpoint get_property (properties : list (string * value)) (name : string) : value :=
  match properties with
  | [] => VUndefined
  | (k, v) :: rest => if String.eqb k name then v else get_property rest name
  end.

(** [v.name]: a TypeError on undefined and null, [undefined] on the other
    primitives (no wrapper prototype has the names read here). *)
Definition get (v : value) (name : string) : option value :=
  match v with
  | VUndefined | VNull => None
  | VObject properties => Some (get_property properties name)
  | _ => Some VUndefined
  end.

(** [l.includes(v)] for an array [l] of strings: SameValueZero. *)
Definition includes_string (l : list jsstring) (v : value) : bool :=
  match v with
  | VString s => existsb (fun x => bool_decide (x = s)) l
  | _ => false
  end.

(** *** Regular expressions and [String.prototype.replace]

    The regular expressions of util.ts are anchored at both ends, carry no
    flags, and are built from literal characters, one capturing group
    [([class]+)] and an optional character [c?]. *)
Inductive re_item :=
| Lit (s : jsstring)
| GroupPlus (class : N -> bool)
| Opt (c : N).

Fixpoint strip_prefix (p s : jsstring) : option jsstring :=
  match p, s with
  | [], _ => Some s
  | a :: p', b :: s' => if N.eqb a b then strip_prefix p' s' else None
  | _ :: _, [] => None
  end.

(** The length of the longest prefix of [s] inside [class]. *)
Fixpoint run_length (class : N -> bool) (s : jsstring) : nat :=
  match s with
  | a :: s' => if class a then S (run_length class s') else O
  | [] => O
  end.

(** A greedy [+]: give the group [k] characters, then [k - 1], down to
    one, until the rest of the pattern matches. *)
Fixpoint try_lengths {R} (k : nat) (s : jsstring)
  (continue : jsstring -> jsstring -> option R) : option R :=
  match k with
  | O => None
  | S k' =>
      match continue (drop k s) (take k s) with
      | Some r => Some r
      | None => try_lengths k' s continue
      end
  end.

(** Match the items against all of [s] (the pattern ends in [$]); the
    result is the list of captures. *)
Fixpoint re_match (items : list re_item) (s : jsstring) (captures : list jsstring)
  : option (list jsstring) :=
  match items with
  | [] => match s with [] => Some captures | _ :: _ => None end
  | Lit l :: rest =>
      match strip_prefix l s with
      | Some s' => re_match rest s' captures
      | None => None
      end
  | GroupPlus class :: rest =>
      try_lengths (run_length class s) s
        (fun s' captured => re_match rest s' (captures ++ [captured]))
  | Opt c :: rest =>
      match s with
      | a :: s' =>
          if N.eqb a c then
            match re_match rest s' captures with
            | Some r => Some r
            | None => re_match rest s captures
            end
          else re_match rest s captures
      | [] => re_match rest s captures
      end
  end.

Definition is_digit (c : N) : bool := (48 <=? c)%N && (c <=? 57)%N.
Definition digit_value (c : N) : nat := N.to_nat (c - 48).

(** [$n] with one digit: the capture when there is one, else the text. *)
Definition one_digit_ref (captures : list jsstring) (d : N) : jsstring :=
  if (1 <=? digit_value d)%nat && (digit_value d <=? length captures)%nat
  then nth (digit_value d - 1) captures []
  else [36%N; d].

(** GetSubstitution: the expansion of [$$], [$&], [$`], [$'], [$n] and
    [$nn] in a replacement string.  There are no named groups, so [$<] is
    text. *)
Fixpoint get_substitution (matched before after : jsstring) (captures : list jsstring)
  (template : jsstring) : jsstring :=
  match template with
  | [] => []
  | c :: rest =>
      if negb (N.eqb c 36) then c :: get_substitution matched before after captures rest
      else
        match rest with
        | [] => [36%N]
        | d :: r =>
            if N.eqb d 36 then 36%N :: get_substitution matched before after captures r
            else if N.eqb d 38 then matched ++ get_substitution matched before after captures r
            else if N.eqb d 96 then before ++ get_substitution matched before after captures r
            else if N.eqb d 39 then after ++ get_substitution matched before after captures r
            else if is_digit d then
              match r with
              | d2 :: r2 =>
                  let index := (10 * digit_value d + digit_value d2)%nat in
                  if is_digit d2 && (index <=? length captures)%nat then
                    (if (1 <=? index)%nat then nth (index - 1) captures []
                     else [36%N; d; d2])
                    ++ get_substitution matched before after captures r2
                  else
                    one_digit_ref captures d
                    ++ get_substitution matched before after captures r
              | [] => one_digit_ref captures d
              end
            else 36%N :: get_substitution matched before after captures rest
        end
  end.

(** [s.replace(/^items$/, template)]: the pattern can only match all of
    [s], so nothing of [s] is left before or after the match. *)
Definition replace_anchored (items : list re_item) (template s : jsstring) : jsstring :=
  match re_match items s [] with
  | Some captures => get_substitution s [] [] captures template
  | None => s
  end.

End JS.

(** ** ChainConnector.ts *)

Module ChainConnector.
Import JS.

(** [type SocketUserId = number] *)
Abbreviation SocketUserId := Z (only parsing).

(** generates a random number: [Math.trunc(Math.random() * Math.pow(10, 8))],
    where [r] is the value [Math.random()] returned. *)
Definition getRandomId (r : dyadic) : SocketUserId :=
  Math_trunc (fmul r Math_pow_10_8).

(** The [while (exclude.includes(id)) id = this.getRandomId()] loop, run on
    the numbers [rs] that [Math.random()] is going to return.  [None] when
    the loop is still running after all of [rs] has been consumed. *)
Fixpoint while_excluded (exclude : list Z) (id : SocketUserId) (rs : list dyadic)
  : option SocketUserId * list dyadic :=
  if includes exclude id then
    match rs with
    | [] => (None, [])
    | r :: rs' => while_excluded exclude (getRandomId r) rs'
    end
  else (Some id, rs).

Definition getExclusiveRandomId (exclude : list Z) (rs : list dyadic)
  : option SocketUserId * list dyadic :=
  match rs with
  | [] => (None, [])
  | r :: rs' => while_excluded exclude (getRandomId r) rs'
  end.


(** *** External collaborators *)

(** An entry of [chain.rpcs]; [isHealthy] is the truthiness of the flag. *)
Record Rpc := { url : string; isHealthy : bool }.

(** What [getChain] resolves to, as far as the connector reads it.  [rpcs] is
    [None] when the property is null or undefined. *)
Record Chain := { rpcs : option (list Rpc) }.

(** A [WsProvider] object.  [ws_id] is the object's identity. *)
Record WsProvider := {
  ws_id : nat;
  ws_endpoints : list string;
  ws_autoConnectMs : Z
}.

#[global] Instance WsProvider_eq_dec : EqDecision WsProvider.
Proof. solve_decision. Defined.

Inductive Settled (A : Type) : Type :=
| Resolves (a : A)
| Rejects (reason : string).
Arguments Resolves {A} a.
Arguments Rejects {A} reason.

(** The behaviour of everything the connector calls but does not define:
    the chaindata provider and the methods of [WsProvider].
    [WsProvider_new rpcs ms = Some e] when the constructor throws [e];
    likewise [ws_disconnect]. *)
Record World := {
  getChain : string -> option Chain;
  WsProvider_new : list string -> Z -> option string;
  ws_disconnect : WsProvider -> option string;
  ws_send : WsProvider -> string -> list string -> option bool -> Settled string;
  ws_subscribe : WsProvider -> string -> string -> list string -> nat -> Settled string;
  ws_unsubscribe : WsProvider -> string -> string -> string -> Settled bool
}.

(** *** Exceptions, observable effects, state *)

Inductive Error :=
| Error_chain_not_found (chainId : string)
    (* new Error(`Chain ${chainId} not found in store`) *)
| Error_no_healthy_rpcs (chainId : string)
    (* new Error(`No healthy RPCs available for chain ${chainId}`) *)
| Error_cant_remove_user (chainId : string) (socketUserId : Z) (users : list Z)
    (* new Error(`Can't remove user ... from socket ...: user not in list ...`) *)
| TypeError_of_undefined (property : string)
    (* reading a property of undefined *)
| Thrown (reason : string).
    (* whatever a WsProvider method threw or rejected with *)

Inductive Event :=
| EvNew (chainId : string) (ws : WsProvider)
    (* [new WsProvider(rpcs, autoConnectMs)] returned [ws], while connecting [chainId] *)
| EvDisconnect (ws : WsProvider)              (* ws.disconnect() was called *)
| EvSetInterval (timer : nat) (chainId : string) (ms : Z)
| EvClearInterval (timer : nat)
| EvWsSend (ws : WsProvider) (method : string) (params : list string)
| EvWsSubscribe (ws : WsProvider) (responseMethod subscribeMethod : string)
| EvWsUnsubscribe (ws : WsProvider) (responseMethod unsubscribeMethod subscriptionId : string)
| EvLogError (what : string) (error : Error)
| EvLogWarn (what : string)
| EvRelease (chainId : string) (socketUserId : Z).
    (* disconnectChainSocket(chainId, socketUserId) was entered *)

(** The names of the properties of [Object.prototype], Annex B included.
    The three records of a [ChainConnector] are plain objects, so a read
    [this.#socketConnections[chainId]] under one of these names finds the
    inherited member when the record has no own entry of that name. *)
Definition Object_prototype_properties : list string :=
  ["constructor"; "hasOwnProperty"; "isPrototypeOf"; "propertyIsEnumerable";
   "toLocaleString"; "toString"; "valueOf"; "__proto__"; "__defineGetter__";
   "__defineSetter__"; "__lookupGetter__"; "__lookupSetter__"]%string.

(** The private fields of a [ChainConnector], followed by what the model
    needs of the JavaScript run time: the numbers [Math.random()] will
    return, fresh object and timer identities, the keepalive set-ups that
    are suspended on [isReady], and the effects so far, newest first.
    The three records are plain objects keyed by chain id, read here as
    finite maps: a lookup finds own entries only, which is what the code
    reads for every chain id outside [Object_prototype_properties]. *)
Record State := {
  socketConnections : gmap string WsProvider;
  socketKeepAliveIntervals : gmap string nat;
  socketUsers : gmap string (list SocketUserId);
  random : list dyadic;
  next_ws : nat;
  next_timer : nat;
  awaiting_isReady : list (string * WsProvider);
  trace : list Event
}.

Definition initial (rs : list dyadic) : State :=
  {| socketConnections := ∅; socketKeepAliveIntervals := ∅; socketUsers := ∅;
     random := rs; next_ws := O; next_timer := O; awaiting_isReady := [];
     trace := [] |}.

Definition with_socketConnections (f : gmap string WsProvider -> gmap string WsProvider)
  (s : State) : State :=
  {| socketConnections := f (socketConnections s);
     socketKeepAliveIntervals := socketKeepAliveIntervals s;
     socketUsers := socketUsers s; random := random s; next_ws := next_ws s;
     next_timer := next_timer s; awaiting_isReady := awaiting_isReady s;
     trace := trace s |}.

Definition with_socketKeepAliveIntervals (f : gmap string nat -> gmap string nat)
  (s : State) : State :=
  {| socketConnections := socketConnections s;
     socketKeepAliveIntervals := f (socketKeepAliveIntervals s);
     socketUsers := socketUsers s; random := random s; next_ws := next_ws s;
     next_timer := next_timer s; awaiting_isReady := awaiting_isReady s;
     trace := trace s |}.

Definition with_socketUsers
  (f : gmap string (list SocketUserId) -> gmap string (list SocketUserId))
  (s : State) : State :=
  {| socketConnections := socketConnections s;
     socketKeepAliveIntervals := socketKeepAliveIntervals s;
     socketUsers := f (socketUsers s); random := random s; next_ws := next_ws s;
     next_timer := next_timer s; awaiting_isReady := awaiting_isReady s;
     trace := trace s |}.

Definition with_random (rs : list dyadic) (s : State) : State :=
  {| socketConnections := socketConnections s;
     socketKeepAliveIntervals := socketKeepAliveIntervals s;
     socketUsers := socketUsers s; random := rs; next_ws := next_ws s;
     next_timer := next_timer s; awaiting_isReady := awaiting_isReady s;
     trace := trace s |}.

Definition with_next_ws (n : nat) (s : State) : State :=
  {| socketConnections := socketConnections s;
     socketKeepAliveIntervals := socketKeepAliveIntervals s;
     socketUsers := socketUsers s; random := random s; next_ws := n;
     next_timer := next_timer s; awaiting_isReady := awaiting_isReady s;
     trace := trace s |}.

Definition with_next_timer (n : nat) (s : State) : State :=
  {| socketConnections := socketConnections s;
     socketKeepAliveIntervals := socketKeepAliveIntervals s;
     socketUsers := socketUsers s; random := random s; next_ws := next_ws s;
     next_timer := n; awaiting_isReady := awaiting_isReady s;
     trace := trace s |}.

Definition with_awaiting (f : list (string * WsProvider) -> list (string * WsProvider))
  (s : State) : State :=
  {| socketConnections := socketConnections s;
     socketKeepAliveIntervals := socketKeepAliveIntervals s;
     socketUsers := socketUsers s; random := random s; next_ws := next_ws s;
     next_timer := next_timer s; awaiting_isReady := f (awaiting_isReady s);
     trace := trace s |}.

Definition with_trace (f : list Event -> list Event) (s : State) : State :=
  {| socketConnections := socketConnections s;
     socketKeepAliveIntervals := socketKeepAliveIntervals s;
     socketUsers := socketUsers s; random := random s; next_ws := next_ws s;
     next_timer := next_timer s; awaiting_isReady := awaiting_isReady s;
     trace := f (trace s) |}.

(** *** Computations: state, exceptions, and loops that may not end *)

Inductive Res (A : Type) : Type :=
| Ret (a : A)            (* returned (the promise resolved with) [a] *)
| Throw (e : Error)      (* threw (the promise rejected with) [e] *)
| Diverges.              (* still looping when the random numbers ran out *)
Arguments Ret {A} a.
Arguments Throw {A} e.
Arguments Diverges {A}.

Definition M (A : Type) : Type := State -> Res A * State.

Definition ret {A} (a : A) : M A := fun s => (Ret a, s).
Definition throw {A} (e : Error) : M A := fun s => (Throw e, s).
Definition bind {A B} (m : M A) (k : A -> M B) : M B := fun s =>
  match m s with
  | (Ret a, s') => k a s'
  | (Throw e, s') => (Throw e, s')
  | (Diverges, s') => (Diverges, s')
  end.
(** [try { m } catch (error) { h error }]: the effects of [m] up to the throw stay. *)
Definition try_catch {A} (m : M A) (h : Error -> M A) : M A := fun s =>
  match m s with
  | (Throw e, s') => h e s'
  | r => r
  end.
Definition gets {A} (f : State -> A) : M A := fun s => (Ret (f s), s).
Definition modify (f : State -> State) : M unit := fun s => (Ret tt, f s).
Definition emit (e : Event) : M unit := modify (with_trace (cons e)).

Declare Scope conn_scope.
Delimit Scope conn_scope with conn.
Notation "x <- m ;; k" := (bind m (fun x => k))
  (at level 100, m at next level, right associativity) : conn_scope.
Notation "m ;; k" := (bind m (fun _ => k))
  (at level 100, right associativity) : conn_scope.
Local Open Scope conn_scope.

(** *** The methods *)

Section Methods.
Variable W : World.

(** [log.error(what, error)] and [log.warn(what)] *)
Definition log_error (what : string) (error : Error) : M unit :=
  emit (EvLogError what error).
Definition log_warn (what : string) : M unit := emit (EvLogWarn what).

(** [this.#socketUsers[chainId]] where the code goes on to read a property
    of it: a TypeError when the chain has no array. *)
Definition the_socketUsers (chainId : string) : M (list SocketUserId) :=
  users <- gets (fun s => socketUsers s !! chainId) ;;
  match users with
  | Some l => ret l
  | None => throw (TypeError_of_undefined "socketUsers[chainId]")
  end.

(** [this.getExclusiveRandomId(exclude)], drawing from the state's numbers. *)
Definition getExclusiveRandomId_m (exclude : list Z) : M SocketUserId := fun s =>
  match getExclusiveRandomId exclude (random s) with
  | (Some id, rs) => (Ret id, with_random rs s)
  | (None, rs) => (Diverges, with_random rs s)
  end.

Definition addSocketUser (chainId : string) : M SocketUserId :=
  users <- gets (fun s => socketUsers s !! chainId) ;;
  (* if (!Array.isArray(this.#socketUsers[chainId])) this.#socketUsers[chainId] = [] *)
  match users with
  | Some _ => ret tt
  | None => modify (with_socketUsers (<[chainId := []]>))
  end ;;
  exclude <- the_socketUsers chainId ;;
  socketUserId <- getExclusiveRandomId_m exclude ;;
  (* this.#socketUsers[chainId].push(socketUserId) *)
  modify (with_socketUsers (<[chainId := exclude ++ [socketUserId]]>)) ;;
  ret socketUserId.

Definition removeSocketUser (chainId : string) (socketUserId : SocketUserId) : M unit :=
  users <- the_socketUsers chainId ;;
  match indexOf users socketUserId with
  | None => throw (Error_cant_remove_user chainId socketUserId users)
  | Some userIndex =>
      modify (with_socketUsers (<[chainId := splice1 users userIndex]>))
  end.

(** [new WsProvider(rpcs, autoConnectMs)], called while connecting [chainId] *)
Definition new_WsProvider (chainId : string) (endpoints : list string) (autoConnectMs : Z)
  : M WsProvider :=
  match WsProvider_new W endpoints autoConnectMs with
  | Some e => throw (Thrown e)
  | None =>
      n <- gets next_ws ;;
      let ws := {| ws_id := n; ws_endpoints := endpoints;
                   ws_autoConnectMs := autoConnectMs |} in
      modify (with_next_ws (S n)) ;;
      emit (EvNew chainId ws) ;;
      ret ws
  end.

(** [chain.rpcs || []] *)
Definition rpcs_or_empty (chain : Chain) : list Rpc :=
  match rpcs chain with Some l => l | None => [] end.

(** The endpoint list of lines 121-127: healthy rpcs before unhealthy rpcs. *)
Definition sorted_rpcs (chain : Chain) : list string :=
  let healthyRpcs := map url (List.filter isHealthy (rpcs_or_empty chain)) in
  let unhealthyRpcs :=
    map url (List.filter (fun r => negb (isHealthy r)) (rpcs_or_empty chain)) in
  healthyRpcs ++ unhealthyRpcs.

(** The start of the detached keepalive set-up, up to its [await ... isReady]. *)
Definition keepalive_setup_start (chainId : string) : M unit :=
  conn <- gets (fun s => socketConnections s !! chainId) ;;
  match conn with
  | None => log_warn "ignoring rpc ws healthcheck initialization: ws is not defined"
  | Some ws => modify (with_awaiting (fun l => l ++ [(chainId, ws)]))
  end.

(** The rest of the keepalive set-up, run once [isReady] has resolved. *)
Definition keepalive_setup_resume (chainId : string) : M unit :=
  old <- gets (fun s => socketKeepAliveIntervals s !! chainId) ;;
  match old with
  | Some t => emit (EvClearInterval t)
  | None => ret tt
  end ;;
  let intervalMs := 10000 in
  t <- gets next_timer ;;
  modify (with_next_timer (S t)) ;;
  emit (EvSetInterval t chainId intervalMs) ;;
  modify (with_socketKeepAliveIntervals (<[chainId := t]>)).

(** One firing of the interval callback of [chainId]; [isConnected] is what
    the transport's [isConnected] reads at that moment. *)
Definition keepalive_tick (chainId : string) (isConnected : bool) : M unit :=
  conn <- gets (fun s => socketConnections s !! chainId) ;;
  match conn with
  | None => log_warn "skipping rpc ws healthcheck: ws is not defined"
  | Some ws =>
      if negb isConnected then log_warn "skipping rpc ws healthcheck: ws is not connected"
      else
        emit (EvWsSend ws "system_health" []) ;;
        match ws_send W ws "system_health" [] None with
        | Resolves _ => ret tt
        | Rejects e => log_warn "Failed keep-alive for socket"
        end
  end.

(** [connectChainSocket], from the point where [getChain] has resolved. *)
Definition connectChainSocket (chainId : string) : M (SocketUserId * option WsProvider) :=
  match getChain W chainId with
  | None => throw (Error_chain_not_found chainId)
  | Some chain =>
      socketUserId <- addSocketUser chainId ;;
      existing <- gets (fun s => socketConnections s !! chainId) ;;
      match existing with
      | Some ws => ret (socketUserId, Some ws)
      | None =>
          let autoConnectMs := 1000 in
          try_catch
            (let rpcs := sorted_rpcs chain in
             if negb (Nat.eqb (length rpcs) 0) then
               ws <- new_WsProvider chainId rpcs autoConnectMs ;;
               modify (with_socketConnections (<[chainId := ws]>))
             else throw (Error_no_healthy_rpcs chainId))
            (fun error => log_error "" error ;; throw error) ;;
          keepalive_setup_start chainId ;;
          conn <- gets (fun s => socketConnections s !! chainId) ;;
          ret (socketUserId, conn)
      end
  end.

Definition disconnectChainSocket (chainId : string) (socketUserId : SocketUserId) : M unit :=
  emit (EvRelease chainId socketUserId) ;;
  removeSocketUser chainId socketUserId ;;
  users <- the_socketUsers chainId ;;
  if Nat.ltb 0 (length users) then ret tt
  else
    conn <- gets (fun s => socketConnections s !! chainId) ;;
    match conn with
    | None => log_warn "Failed to disconnect socket: socket not found"
    | Some ws =>
        try_catch
          (emit (EvDisconnect ws) ;;
           match ws_disconnect W ws with
           | Some e => throw (Thrown e)
           | None => ret tt
           end)
          (fun error => log_warn "Error occurred disconnecting socket") ;;
        modify (with_socketConnections (delete chainId)) ;;
        (* clearInterval(undefined) does nothing *)
        timer <- gets (fun s => socketKeepAliveIntervals s !! chainId) ;;
        match timer with
        | Some t => emit (EvClearInterval t)
        | None => ret tt
        end ;;
        modify (with_socketKeepAliveIntervals (delete chainId))
    end.

(** [waitForWs(ws, timeout)] only suspends the caller: neither [ws.isReady]
    nor [sleep] rejects, and the pool is not touched.  Reading [isReady] of
    an undefined [ws] is a TypeError.  This is the wait during which no
    other task is scheduled; [waitForWs_during] below is the general one. *)
Definition waitForWs (ws : option WsProvider) (timeout : Z) : M WsProvider :=
  match ws with
  | Some ws => ret ws
  | None => throw (TypeError_of_undefined "isReady")
  end.

Definition settle {A} (r : Settled A) : M A :=
  match r with
  | Resolves a => ret a
  | Rejects e => throw (Thrown e)
  end.

(** [send], [subscribe] and the closure [unsubscribe] as they run when no
    other task is scheduled while they are suspended at their [await]s
    (lines 34, 39 and 43; 63, 66 and 70; 85).  [send_during],
    [subscribe_during] and [unsubscribe_during] below are the general
    runs, and agree with these on empty schedules. *)
Definition send (chainId method : string) (params : list string) (isCacheable : option bool)
  : M string :=
  acquired <- connectChainSocket chainId ;;
  let socketUserId := fst acquired in
  let timeout := 15000 in
  ws <- waitForWs (snd acquired) timeout ;;
  response <-
    try_catch
      (emit (EvWsSend ws method params) ;;
       settle (ws_send W ws method params isCacheable))
      (fun error =>
         log_error "Failed to send" error ;;
         disconnectChainSocket chainId socketUserId ;;
         throw error) ;;
  disconnectChainSocket chainId socketUserId ;;
  ret response.

(** The closure [unsubscribe] that [subscribe] returns. *)
Definition unsubscribe (chainId : string) (socketUserId : SocketUserId) (ws : WsProvider)
  (responseMethod unsubscribeMethod subscriptionId : string) : M unit :=
  emit (EvWsUnsubscribe ws responseMethod unsubscribeMethod subscriptionId) ;;
  settle (ws_unsubscribe W ws responseMethod unsubscribeMethod subscriptionId) ;;
  disconnectChainSocket chainId socketUserId.

Definition subscribe (chainId subscribeMethod unsubscribeMethod responseMethod : string)
  (params : list string) (callback : nat) : M (M unit) :=
  acquired <- connectChainSocket chainId ;;
  let socketUserId := fst acquired in
  ws <- waitForWs (snd acquired) 30000 ;;
  subscriptionId <-
    try_catch
      (emit (EvWsSubscribe ws responseMethod subscribeMethod) ;;
       settle (ws_subscribe W ws responseMethod subscribeMethod params callback))
      (fun error =>
         disconnectChainSocket chainId socketUserId ;;
         throw error) ;;
  ret (unsubscribe chainId socketUserId ws responseMethod unsubscribeMethod subscriptionId).

(** *** Interleavings

    Every method body runs to its next [await] without interruption.  The
    segments of the pool that other tasks can interleave with are: an
    acquire once [getChain] has resolved, a release, the resumption of a
    keepalive set-up, and a firing of a keepalive interval.  (A firing is
    allowed for any chain, whether or not a timer is active for it.) *)
Inductive Op :=
| Acquire (chainId : string)
| Release (chainId : string) (socketUserId : SocketUserId)
| KeepaliveReady (n : nat)
| KeepaliveTick (chainId : string) (isConnected : bool).

Definition run_op (op : Op) : M unit :=
  match op with
  | Acquire chainId => connectChainSocket chainId ;; ret tt
  | Release chainId socketUserId => disconnectChainSocket chainId socketUserId
  | KeepaliveReady n =>
      waiting <- gets awaiting_isReady ;;
      match waiting !! n with
      | None => ret tt
      | Some (chainId, _) =>
          modify (with_awaiting (fun l => take n l ++ drop (S n) l)) ;;
          keepalive_setup_resume chainId
      end
  | KeepaliveTick chainId isConnected => keepalive_tick chainId isConnected
  end.

Definition step (s : State) (op : Op) : State := snd (run_op op s).

(** The transports that are open after a history: constructed, and
    [disconnect()] not yet called on them. *)
Fixpoint live (tr : list Event) : list (string * WsProvider) :=
  match tr with
  | [] => []
  | EvNew chainId ws :: older => (chainId, ws) :: live older
  | EvDisconnect ws :: older =>
      List.filter (fun p => negb (Nat.eqb (ws_id (snd p)) (ws_id ws))) (live older)
  | _ :: older => live older
  end.

Definition live_transports (chainId : string) (s : State) : list WsProvider :=
  map snd (List.filter (fun p => String.eqb (fst p) chainId) (live (trace s))).

End Methods.

(** A history: segments in the order they run, each with the behaviour of
    the outside world at that moment (the directory and the transports may
    answer differently from one segment to the next).  A segment that throws
    or does not return leaves the state it had reached. *)
Definition run_history (h : list (World * Op)) (s : State) : State :=
  fold_left (fun s wo => step (fst wo) s (snd wo)) h s.

(** *** The request methods under a schedule

    [send], [subscribe] and the closure a subscription returns are
    suspended at each of their [await]s, and the segments of other tasks
    that are scheduled in the meantime run on the pool before the method
    goes on.  The definitions below take these segments as arguments, one
    history for each [await] of the source.  The segments of one call read
    disjoint parts of the world (the directory and the constructor at the
    acquire, the transport call when it settles, [disconnect] at the
    release), so one [World] for the call is as general as one for each of
    its segments.  The transport calls other tasks make do not touch the
    pool and are not segments of a schedule. *)

(** What an [await] does to the pool: the segments scheduled during it run. *)
Definition suspended (during : list (World * Op)) : M unit := modify (run_history during).

(** [waitForWs(ws, timeout)]: reads [ws.isReady], a TypeError on an
    undefined [ws], and is suspended until the race of line 103 settles. *)
Definition waitForWs_during (ws : option WsProvider) (timeout : Z)
  (during : list (World * Op)) : M WsProvider :=
  match ws with
  | Some ws => suspended during ;; ret ws
  | None => throw (TypeError_of_undefined "isReady")
  end.

(** [send], lines 28-53.  [disconnectChainSocket] has no [await] of its
    own: its body runs at the call, and what is scheduled while its promise
    is awaited (lines 46 and 50) comes after everything [send] does. *)
Definition send_during (W : World) (chainId method : string) (params : list string)
  (isCacheable : option bool) (after_acquire during_wait during_call : list (World * Op))
  : M string :=
  acquired <- connectChainSocket W chainId ;;
  suspended after_acquire ;;                                     (* await, line 34 *)
  let socketUserId := fst acquired in
  let timeout := 15000 in
  ws <- waitForWs_during (snd acquired) timeout during_wait ;;   (* await, line 39 *)
  response <-
    try_catch
      (emit (EvWsSend ws method params) ;;
       suspended during_call ;;                                  (* await, line 43 *)
       settle (ws_send W ws method params isCacheable))
      (fun error =>
         log_error "Failed to send" error ;;
         disconnectChainSocket W chainId socketUserId ;;
         throw error) ;;
  disconnectChainSocket W chainId socketUserId ;;
  ret response.

(** The closure [unsubscribe] of lines 76-87, invoked in world [W]. *)
Definition unsubscribe_during (W : World) (chainId : string) (socketUserId : SocketUserId)
  (ws : WsProvider) (responseMethod unsubscribeMethod subscriptionId : string)
  (during_call : list (World * Op)) : M unit :=
  emit (EvWsUnsubscribe ws responseMethod unsubscribeMethod subscriptionId) ;;
  suspended during_call ;;                                       (* await, line 85 *)
  settle (ws_unsubscribe W ws responseMethod unsubscribeMethod subscriptionId) ;;
  disconnectChainSocket W chainId socketUserId.

(** [subscribe], lines 55-90.  The closure it returns is invoked later, in
    the world and under the schedule of that moment. *)
Definition subscribe_during (W : World)
  (chainId subscribeMethod unsubscribeMethod responseMethod : string)
  (params : list string) (callback : nat)
  (after_acquire during_wait during_call : list (World * Op))
  : M (World -> list (World * Op) -> M unit) :=
  acquired <- connectChainSocket W chainId ;;
  suspended after_acquire ;;                                     (* await, line 63 *)
  let socketUserId := fst acquired in
  ws <- waitForWs_during (snd acquired) 30000 during_wait ;;     (* await, line 66 *)
  subscriptionId <-
    try_catch
      (emit (EvWsSubscribe ws responseMethod subscribeMethod) ;;
       suspended during_call ;;                                  (* await, line 70 *)
       settle (ws_subscribe W ws responseMethod subscribeMethod params callback))
      (fun error =>
         disconnectChainSocket W chainId socketUserId ;;
         throw error) ;;
  ret (fun W' =>
         unsubscribe_during W' chainId socketUserId ws responseMethod unsubscribeMethod
           subscriptionId).

(** *** Derived notions, used to state what the methods do *)

(** [this.#socketUsers[chainId]], read as empty when there is no array. *)
Definition users_of (c : string) (s : State) : list SocketUserId :=
  default [] (socketUsers s !! c).

(** The state once [addSocketUser c] has pushed [id], having consumed the
    random numbers down to [rs]. *)
Definition joined (c : string) (id : SocketUserId) (rs : list dyadic) (s : State) : State :=
  with_random rs (with_socketUsers (<[c := users_of c s ++ [id]]>) s).

(** The object [new WsProvider(endpoints, 1000)] returns in state [s]. *)
Definition fresh_ws (endpoints : list string) (s : State) : WsProvider :=
  {| ws_id := next_ws s; ws_endpoints := endpoints; ws_autoConnectMs := 1000 |}.

(** The state once the transport [ws] has been constructed and stored for
    [c], and its keepalive set-up is suspended on [isReady]. *)
Definition opened (c : string) (ws : WsProvider) (s : State) : State :=
  with_awaiting (fun l => l ++ [(c, ws)])
    (with_socketConnections (<[c := ws]>)
       (with_trace (cons (EvNew c ws)) (with_next_ws (S (next_ws s)) s))).

(** The state on entry of [disconnectChainSocket c id]. *)
Definition released (c : string) (id : SocketUserId) (s : State) : State :=
  with_trace (cons (EvRelease c id)) s.

(** The state once [removeSocketUser c] has spliced index [i] out. *)
Definition without_user (c : string) (i : nat) (s : State) : State :=
  with_socketUsers (<[c := splice1 (users_of c s) i]>) s.

(** The effects of the [try { ws.disconnect() } catch { log.warn }] block. *)
Definition disconnect_log (W : World) (ws : WsProvider) : list Event :=
  match ws_disconnect W ws with
  | Some e => [EvLogWarn "Error occurred disconnecting socket"; EvDisconnect ws]
  | None => [EvDisconnect ws]
  end.

(** The effect of [clearInterval(this.#socketKeepAliveIntervals[c])]. *)
Definition clear_log (s : State) (c : string) : list Event :=
  match socketKeepAliveIntervals s !! c with
  | Some t => [EvClearInterval t]
  | None => []
  end.

(** The state once the transport [ws] of [c] has been torn down. *)
Definition closed (W : World) (c : string) (ws : WsProvider) (s : State) : State :=
  with_socketKeepAliveIntervals (delete c)
    (with_trace (app (clear_log s c ++ disconnect_log W ws))
       (with_socketConnections (delete c) s)).

(** The open transports are exactly the stored ones, and object identities
    are not reused. *)
Definition consistent (s : State) : Prop :=
  (forall c ws, In (c, ws) (live (trace s)) <-> socketConnections s !! c = Some ws) /\
  NoDup (map (fun p => ws_id (snd p)) (live (trace s))) /\
  (forall c ws, In (c, ws) (live (trace s)) -> (ws_id ws < next_ws s)%nat).

(** What a step does to the handles of a chain: nothing, a push of a new
    value, or the removal of one element. *)
Definition users_step (l l' : list SocketUserId) : Prop :=
  l' = l \/ (exists id, ~ In id l /\ l' = l ++ [id]) \/ (exists i, l' = splice1 l i).

(** How often [disconnectChainSocket c id] was entered in a history. *)
Definition release_count (c : string) (id : SocketUserId) (tr : list Event) : nat :=
  length (List.filter
            (fun e => match e with
                      | EvRelease c' id' => String.eqb c' c && Z.eqb id' id
                      | _ => false
                      end) tr).

(** The interval timers that are running after a history: set, and not
    cleared since. *)
Fixpoint active_timers (tr : list Event) : list (nat * string) :=
  match tr with
  | [] => []
  | EvSetInterval t chainId _ :: older => (t, chainId) :: active_timers older
  | EvClearInterval t :: older =>
      List.filter (fun p => negb (Nat.eqb (fst p) t)) (active_timers older)
  | _ :: older => active_timers older
  end.

Definition chain_timers (chainId : string) (s : State) : list nat :=
  map fst (List.filter (fun p => String.eqb (snd p) chainId) (active_timers (trace s))).

(** The running timers are exactly the registered ones, and timer
    identities are not reused. *)
Definition timers_consistent (s : State) : Prop :=
  (forall t c, In (t, c) (active_timers (trace s))
               <-> socketKeepAliveIntervals s !! c = Some t) /\
  NoDup (map fst (active_timers (trace s))) /\
  (forall t c, In (t, c) (active_timers (trace s)) -> (t < next_timer s)%nat).

(** The state once the keepalive set-up of [c] has resumed. *)
Definition resumed (c : string) (s : State) : State :=
  with_socketKeepAliveIntervals (<[c := next_timer s]>)
    (with_trace (app (EvSetInterval (next_timer s) c 10000 :: clear_log s c))
       (with_next_timer (S (next_timer s)) s)).

(** A stored transport has at least one handle. *)
Definition borrowed (s : State) : Prop :=
  forall c ws, socketConnections s !! c = Some ws -> users_of c s <> [].

(** No segment of the schedule releases handle [id] of chain [c]: a handle
    is released by the task that holds it. *)
Definition keeps (c : string) (id : SocketUserId) (h : list (World * Op)) : Prop :=
  Forall (fun wo => snd wo <> Release c id) h.

(** No segment of the schedule acquires on chain [c]. *)
Definition no_acquire (c : string) (h : list (World * Op)) : Prop :=
  Forall (fun wo => snd wo <> Acquire c) h.

(** The state [disconnectChainSocket c id] leaves when it finds [id] at
    index [i] of the chain's list and [ws] is the stored transport: the
    call recorded and the handle spliced out and, when no handle is left,
    the transport torn down. *)
Definition let_go (W : World) (c : string) (id : SocketUserId) (i : nat) (ws : WsProvider)
  (s : State) : State :=
  match splice1 (users_of c s) i with
  | [] => closed W c ws (without_user c i (released c id s))
  | _ :: _ => without_user c i (released c id s)
  end.

End ChainConnector.

(** ** chain-connector-evm/src/util.ts *)

Module EvmUtil.
Import JS.

(** How an endpoint behaves on one [provider.send("eth_chainId", [])]:
    it settles some milliseconds after the call, or never.  A result is
    given by what the ToString of [parseInt] makes of it: the string
    [rpcChainId], or the error it throws on a result that has no string
    conversion (an object with an own [toString] that is not callable, as
    the JSON result [{"toString": 0}]). *)
Inductive Reply :=
| Answers (after_ms : Z) (rpcChainId : jsstring)
| Fails (after_ms : Z) (reason : string)
| Silent
| NoProvider (reason : string)    (* the provider constructor threw *)
| AnswersUnconvertible (after_ms : Z) (err : string).

(** The value a call resolved with, as [parseInt] is going to read it. *)
Inductive Resolved :=
| Converts (rpcChainId : jsstring)
| ToStringThrows (err : string).

(** What [util.ts] relies on: the endpoints, keyed by url and the chain id
    the provider was built with, and the constant [RPC_HEALTHCHECK_TIMEOUT]
    of ./constants. *)
Record World := {
  rpc : string -> Z -> Reply;
  RPC_HEALTHCHECK_TIMEOUT : Z
}.

Inductive Event :=
| EvProbe (url : string) (chainId : Z)      (* isHealthyRpc(url, chainId) was called *)
| EvLogError (url : string) (err : string).

(** Computations that log: the effects so far, newest first. *)
Definition L (A : Type) : Type := list Event -> A * list Event.

Section Methods.
Variable W : World.

(** [Promise.race([provider.send("eth_chainId", []), throwAfter(TIMEOUT)])]:
    what the call settles with when it settles before the timer fires, else
    the timer's rejection. *)
Definition race (r : Reply) : string + Resolved :=
  match r with
  | Answers t rpcChainId =>
      if t <? RPC_HEALTHCHECK_TIMEOUT W then inr (Converts rpcChainId)
      else inl "timeout"%string
  | Fails t reason =>
      if t <? RPC_HEALTHCHECK_TIMEOUT W then inl reason else inl "timeout"%string
  | Silent => inl "timeout"%string
  | NoProvider reason => inl reason
  | AnswersUnconvertible t err =>
      if t <? RPC_HEALTHCHECK_TIMEOUT W then inr (ToStringThrows err)
      else inl "timeout"%string
  end.

(** The [try] block of [isHealthyRpc]: [inl err] when it throws [err],
    [inr (parseInt(rpcChainId, 16) === chainId)] when it returns.
    [parseInt] throws what the conversion of its argument to a string
    throws. *)
Definition probe (url : string) (chainId : Z) : string + bool :=
  match race (rpc W url chainId) with
  | inl err => inl err
  | inr (Converts rpcChainId) => inr (strict_eq_int (parseInt16 rpcChainId) chainId)
  | inr (ToStringThrows err) => inl err
  end.

Definition isHealthyRpc (url : string) (chainId : Z) : L bool := fun log =>
  let log := EvProbe url chainId :: log in
  match probe url chainId with
  | inr answer => (answer, log)
  | inl err =>
      (* catch (err) { log.error("Unhealthy EVM RPC %s", url, { err }); return false } *)
      (false, EvLogError url err :: log)
  end.

(** [for (const rpcUrl of rpcUrls) if (await isHealthyRpc(...)) return rpcUrl; return null] *)
Fixpoint getHealthyRpc (rpcUrls : list string) (chainId : Z) : L (option string) := fun log =>
  match rpcUrls with
  | [] => (None, log)
  | rpcUrl :: rest =>
      match isHealthyRpc rpcUrl chainId log with
      | (true, log') => (Some rpcUrl, log')
      | (false, log') => getHealthyRpc rest chainId log'
      end
  end.

(** The urls probed by a run, oldest first. *)
Definition probed (log : list Event) : list string :=
  rev (omap (fun e => match e with EvProbe u _ => Some u | _ => None end) log).

(** What a probe of [url] answers, whatever was logged before. *)
Definition healthy (url : string) (chainId : Z) : bool :=
  fst (isHealthyRpc url chainId []).

End Methods.

(** [isUnhealthyRpcError(err)]; [None] is the TypeError of reading [reason]
    off undefined or null. *)
Definition isUnhealthyRpcError (err : value) : option bool :=
  match get err "reason" with
  | None => None
  | Some reason =>
      if includes_string [lit "processing response error"] reason then Some false
      else Some true
  end.

(** *** The rest of util.ts *)

(** [[A-z-]]: the code units from [A] to [z], and the hyphen. *)
Definition A_z_hyphen (c : N) : bool := ((65 <=? c)%N && (c <=? 122)%N) || N.eqb c 45.

(** [/^https:\/\/([A-z-]+)\.api\.onfinality\.io\/public-ws\/?$/] *)
Definition onfinality_public_ws : list re_item :=
  [Lit (lit "https://"); GroupPlus A_z_hyphen; Lit (lit ".api.onfinality.io/public-ws");
   Opt 47%N].

(** [/^https:\/\/([A-z-]+)\.api\.onfinality\.io\/rpc\/?$/] *)
Definition onfinality_rpc : list re_item :=
  [Lit (lit "https://"); GroupPlus A_z_hyphen; Lit (lit ".api.onfinality.io/rpc");
   Opt 47%N].

(** [resolveRpcUrl(rpcUrl)]; [API_KEY_ONFINALITY] is a constant of
    ./constants, interpolated into both replacement strings. *)
Definition resolveRpcUrl (API_KEY_ONFINALITY : jsstring) (rpcUrl : jsstring) : jsstring :=
  replace_anchored onfinality_rpc
    (lit "https://$1.api.onfinality.io/rpc?apikey=" ++ API_KEY_ONFINALITY)
    (replace_anchored onfinality_public_ws
       (lit "https://$1.api.onfinality.io/ws?apikey=" ++ API_KEY_ONFINALITY)
       rpcUrl).

(** What [send] of [StandardRpcProvider] and of [BatchRpcProvider] ends
    with: the result, the rethrown error, or the TypeError of reading
    [reason] off an undefined or null error. *)
Inductive SendOutcome :=
| Returned (result : value)
| Rethrown (err : value)
| ThrewTypeError.

(** The body both classes share: [settled] is how [super.send(method,
    params)] settled, [inl result] or [inr err]; the second component is
    the list of errors handed to [this.emit("error", _)]. *)
Definition provider_send (settled : value + value) : SendOutcome * list value :=
  match settled with
  | inl result => (Returned result, [])
  | inr err =>
      match isUnhealthyRpcError err with
      | None => (ThrewTypeError, [])
      | Some true => (Rethrown err, [err])
      | Some false => (Rethrown err, [])
      end
  end.

Definition StandardRpcProvider_send := provider_send.
Definition BatchRpcProvider_send := provider_send.

(** [https://<sub>.api.onfinality.io/<path>] *)
Definition onfinality_url (sub path : jsstring) : jsstring :=
  lit "https://" ++ sub ++ lit ".api.onfinality.io/" ++ path.

(** What [([A-z-]+)] accepts. *)
Definition subdomain (sub : jsstring) : Prop :=
  sub <> [] /\ Forall (fun c => A_z_hyphen c = true) sub.

(** Whether [provider.send("eth_chainId", [])] resolves before the timer
    fires, with a result that [parseInt] can convert to a string. *)
Definition reads_in_time (W : World) (url : string) (chainId : Z) : bool :=
  match rpc W url chainId with
  | Answers t _ => t <? RPC_HEALTHCHECK_TIMEOUT W
  | _ => false
  end.

(** The urls for which [log.error] was called, oldest first. *)
Definition logged_errors (log : list Event) : list string :=
  rev (omap (fun e => match e with EvLogError u _ => Some u | _ => None end) log).

End EvmUtil.



(** ** Concrete worlds and states, for the examples *)

Module Scenario.
Import JS ChainConnector.
Local Open Scope string_scope.

Definition A := {| url := "wss://a"; isHealthy := false |}.
Definition B := {| url := "wss://b"; isHealthy := true |}.
Definition C := {| url := "wss://c"; isHealthy := true |}.
Definition D := {| url := "wss://d"; isHealthy := false |}.

(** A directory with four chains: one with mixed endpoints, one whose only
    endpoint is flagged unhealthy, one with no endpoints, and one whose
    endpoint, [custom_rpc], is not a websocket url at first. *)
Definition directory (custom_rpc : string) (chainId : string) : option Chain :=
  if String.eqb chainId "polkadot" then Some {| rpcs := Some [A; B; C; D] |}
  else if String.eqb chainId "kusama" then Some {| rpcs := Some [A] |}
  else if String.eqb chainId "empty" then Some {| rpcs := Some [] |}
  else if String.eqb chainId "custom"
       then Some {| rpcs := Some [ {| url := custom_rpc; isHealthy := true |} ] |}
  else None.

(** The check the constructor of [WsProvider] makes on its endpoints. *)
Definition is_ws_url (endpoint : string) : bool :=
  String.prefix "ws://" endpoint || String.prefix "wss://" endpoint.

(** Transports that work, except that the unsubscribe call is rejected. *)
Definition world_with (custom_rpc : string) : World := {|
  getChain := directory custom_rpc;
  WsProvider_new := fun endpoints _ =>
    if forallb is_ws_url endpoints then None
    else Some "Endpoint should start with 'ws://'";
  ws_disconnect := fun _ => None;
  ws_send := fun _ _ _ _ => Resolves "result";
  ws_subscribe := fun _ _ _ _ _ => Resolves "sub-1";
  ws_unsubscribe := fun _ _ _ _ => Rejects "unsubscribe failed"
|}.

Definition world : World := world_with "https://rpc.example".

(** The same once the directory lists a websocket url for "custom". *)
Definition world_later : World := world_with "wss://rpc.example".

(** [Math.random()] is going to return 0.5, 0.25, 0.75, 0.5. *)
Definition draws : list dyadic := [Dy 1 1; Dy 1 2; Dy 3 2; Dy 1 1].

(** Of three endpoints only "u2" reports chain id 5 in time: "u1" reports
    another chain and "u3" answers after the timeout. *)
Definition evm_world : EvmUtil.World := {|
  EvmUtil.rpc := fun url _ =>
    if String.eqb url "u1" then EvmUtil.Answers 20 (lit "0x1")
    else if String.eqb url "u2" then EvmUtil.Answers 35 (lit "0x5")
    else if String.eqb url "u3" then EvmUtil.Answers 9000 (lit "0x5")
    else EvmUtil.Fails 3 "ECONNREFUSED";
  EvmUtil.RPC_HEALTHCHECK_TIMEOUT := 5000
|}.

Definition ws0 : WsProvider :=
  {| ws_id := 0; ws_endpoints := ["wss://b"; "wss://c"; "wss://a"; "wss://d"];
     ws_autoConnectMs := 1000 |}.

(** The pool after one acquire of "polkadot". *)
Definition once : State := snd (connectChainSocket world "polkadot" (initial draws)).

(** Transports on which every call resolves. *)
Definition obliging_world : World := {|
  getChain := directory "wss://rpc.example";
  WsProvider_new := WsProvider_new world;
  ws_disconnect := fun _ => None;
  ws_send := fun _ _ _ _ => Resolves "result";
  ws_subscribe := fun _ _ _ _ _ => Resolves "sub-1";
  ws_unsubscribe := fun _ _ _ _ => Resolves true
|}.

End Scenario.

(** * Properties *)

Import JS.

(** ** Numbers and arrays *)

Lemma round53_nonneg n : 0 <= n -> 0 <= round53 n.
Proof.
  intros Hn. unfold round53. destruct (Z.ltb_spec n (2 ^ 53)); [lia|].
  assert (Hk : 1 <= Z.log2 n - 52).
  { assert (53 <= Z.log2 n) by (apply Z.log2_le_pow2; lia). lia. }
  rewrite Z.shiftl_mul_pow2 by lia.
  assert (0 <= Z.shiftr n (Z.log2 n - 52)) by (apply Z.shiftr_nonneg; lia).
  assert (0 < 2 ^ (Z.log2 n - 52)) by (apply Z.pow_pos_nonneg; lia).
  destruct (_ || _); nia.
Qed.

(** Rounding moves a number up by at most half a unit in its last place. *)
Lemma round53_upper n : 0 <= n -> round53 n * 2 ^ 53 <= n * (2 ^ 53 + 1).
Proof.
  intros Hn. unfold round53. destruct (Z.ltb_spec n (2 ^ 53)); [nia|].
  set (k := Z.log2 n - 52).
  assert (Hlog : 53 <= Z.log2 n) by (apply Z.log2_le_pow2; lia).
  assert (Hk : 1 <= k) by (unfold k; lia).
  rewrite !Z.shiftl_mul_pow2, Z.shiftr_div_pow2 by lia.
  set (q := n / 2 ^ k).
  assert (Hp : 0 < 2 ^ k) by (apply Z.pow_pos_nonneg; lia).
  assert (Hh : 2 ^ k = 2 * 2 ^ (k - 1)).
  { replace k with (1 + (k - 1)) at 1 by lia. rewrite Z.pow_add_r by lia. reflexivity. }
  assert (Hdm : n = 2 ^ k * q + n mod 2 ^ k) by (apply Z.div_mod; lia).
  assert (Hm : 0 <= n mod 2 ^ k < 2 ^ k) by (apply Z.mod_pos_bound; lia).
  assert (Hhalf : 2 ^ (k - 1) * 2 ^ 53 <= n).
  { rewrite <- Z.pow_add_r by lia. replace (k - 1 + 53) with (Z.log2 n) by (unfold k; lia).
    apply Z.log2_spec. lia. }
  assert (Hr : n - q * 2 ^ k = n mod 2 ^ k) by lia.
  rewrite Hr.
  destruct ((2 ^ (k - 1) <? n mod 2 ^ k) || ((n mod 2 ^ k =? 2 ^ (k - 1)) && Z.odd q)) eqn:E.
  - assert (2 ^ (k - 1) <= n mod 2 ^ k).
    { apply orb_true_iff in E as [E|E]; [apply Z.ltb_lt in E; lia|].
      apply andb_true_iff in E as [E _]. apply Z.eqb_eq in E. lia. }
    nia.
  - nia.
Qed.

Lemma is_randomb_spec r : is_randomb r = true <-> is_random r.
Proof.
  unfold is_randomb, is_random. rewrite !andb_true_iff, !Z.leb_le, !Z.ltb_lt. tauto.
Qed.

Lemma includes_spec l x : includes l x = true <-> In x l.
Proof.
  unfold includes. rewrite existsb_exists. split.
  - intros (y & Hy & E). apply Z.eqb_eq in E. subst. done.
  - intros H. exists x. split; [done | apply Z.eqb_refl].
Qed.

Lemma includes_false l x : includes l x = false <-> ~ In x l.
Proof.
  rewrite <- includes_spec. destruct (includes l x); split; congruence.
Qed.

Lemma indexOf_None l x : indexOf l x = None <-> ~ In x l.
Proof.
  induction l as [|y l IH]; simpl; [tauto|].
  destruct (Z.eqb_spec y x).
  - split; [discriminate | intros H; exfalso; apply H; auto].
  - destruct (indexOf l x); simpl.
    + split; [discriminate|]. intros H.
      assert (Hx : ~ In x l) by (intros Hx; apply H; by right).
      apply IH in Hx. discriminate.
    + split; [|done]. intros _ [E|Hin]; [done|]. by apply IH in Hin.
Qed.

Lemma indexOf_Some l x i : indexOf l x = Some i -> l !! i = Some x.
Proof.
  revert i. induction l as [|y l IH]; simpl; [discriminate|]. intros i.
  destruct (Z.eqb_spec y x) as [->|].
  - intros [= <-]. done.
  - destruct (indexOf l x) as [j|]; simpl; [|discriminate].
    intros [= <-]. simpl. by apply IH.
Qed.

Lemma indexOf_In l x : In x l -> exists i, indexOf l x = Some i.
Proof.
  intros H. destruct (indexOf l x) as [i|] eqn:E; [eauto|].
  apply indexOf_None in E. done.
Qed.

Lemma splice1_In l i x : In x (splice1 l i) -> In x l.
Proof.
  revert i. induction l as [|y l IH]; intros [|i]; simpl; auto.
  intros [->|H]; auto. right. eauto.
Qed.

Lemma splice1_NoDup l i : NoDup l -> NoDup (splice1 l i).
Proof.
  revert i. induction l as [|y l IH]; intros [|i] Hnd; simpl; auto.
  - apply NoDup_cons in Hnd. tauto.
  - apply NoDup_cons in Hnd as [Hy Hl].
    apply NoDup_cons. split; [|auto].
    rewrite list_elem_of_In. intros Hin. apply splice1_In in Hin.
    apply Hy. by rewrite list_elem_of_In.
Qed.

Lemma splice1_length l i x : l !! i = Some x -> S (length (splice1 l i)) = length l.
Proof.
  revert i. induction l as [|y l IH]; intros [|i]; simpl; try discriminate; auto.
Qed.

(** Removing the first occurrence of [x] from a duplicate-free list removes [x]. *)
Lemma splice1_indexOf_notin l x i : NoDup l -> indexOf l x = Some i -> ~ In x (splice1 l i).
Proof.
  revert i. induction l as [|y l IH]; simpl; [discriminate|]. intros i Hnd.
  apply NoDup_cons in Hnd as [Hy Hl]. rewrite list_elem_of_In in Hy.
  destruct (Z.eqb_spec y x) as [->|Hne].
  - intros [= <-]. done.
  - destruct (indexOf l x) as [j|] eqn:E; simpl; [|discriminate].
    intros [= <-]. simpl. intros [?|?]; [done|]. by eapply IH.
Qed.

(** ** The socket pool *)

Import ChainConnector.
Local Open Scope conn_scope.

Ltac unfold_m :=
  cbv [run_op connectChainSocket disconnectChainSocket addSocketUser removeSocketUser
       the_socketUsers getExclusiveRandomId_m new_WsProvider keepalive_setup_start
       keepalive_setup_resume keepalive_tick log_warn log_error emit settle waitForWs
       bind ret throw try_catch gets modify].

(** *** What each method does, as one case analysis *)

Lemma addSocketUser_run c s :
  addSocketUser c s =
  match getExclusiveRandomId (users_of c s) (random s) with
  | (Some id, rs) => (Ret id, joined c id rs s)
  | (None, rs) => (Diverges, with_random rs (with_socketUsers (<[c := users_of c s]>) s))
  end.
Proof.
  unfold_m. unfold joined, users_of.
  destruct (socketUsers s !! c) as [users|] eqn:Hu; simpl.
  - rewrite Hu. simpl. destruct (getExclusiveRandomId users (random s)) as [[id|] rs]; simpl.
    + reflexivity.
    + destruct s; simpl in *. unfold with_random, with_socketUsers; simpl.
      rewrite insert_id by done. reflexivity.
  - rewrite lookup_insert_eq. unfold with_random, with_socketUsers. simpl.
    destruct (getExclusiveRandomId _ _) as [[id|] rs]; simpl.
    + by rewrite insert_insert_eq.
    + reflexivity.
Qed.

Lemma connectChainSocket_run W c s :
  connectChainSocket W c s =
  match getChain W c with
  | None => (Throw (Error_chain_not_found c), s)
  | Some chain =>
      match getExclusiveRandomId (users_of c s) (random s) with
      | (None, rs) =>
          (Diverges, with_random rs (with_socketUsers (<[c := users_of c s]>) s))
      | (Some id, rs) =>
          match socketConnections s !! c with
          | Some ws => (Ret (id, Some ws), joined c id rs s)
          | None =>
              match sorted_rpcs chain with
              | [] => (Throw (Error_no_healthy_rpcs c),
                       with_trace (cons (EvLogError "" (Error_no_healthy_rpcs c)))
                         (joined c id rs s))
              | _ :: _ =>
                  match WsProvider_new W (sorted_rpcs chain) 1000 with
                  | Some e => (Throw (Thrown e),
                               with_trace (cons (EvLogError "" (Thrown e))) (joined c id rs s))
                  | None =>
                      let ws := fresh_ws (sorted_rpcs chain) s in
                      (Ret (id, Some ws), opened c ws (joined c id rs s))
                  end
              end
          end
      end
  end.
Proof.
  unfold connectChainSocket. destruct (getChain W c) as [chain|]; [|reflexivity].
  unfold bind at 1. rewrite addSocketUser_run.
  destruct (getExclusiveRandomId (users_of c s) (random s)) as [[id|] rs]; [|reflexivity].
  unfold_m. simpl.
  destruct (socketConnections s !! c) as [ws|] eqn:Hc; [reflexivity|].
  destruct (sorted_rpcs chain) as [|u us] eqn:Hr; simpl; [reflexivity|].
  destruct (WsProvider_new W (u :: us) 1000); simpl; [reflexivity|].
  rewrite lookup_insert_eq. simpl. rewrite lookup_insert_eq. reflexivity.
Qed.

Lemma disconnectChainSocket_run W c id s :
  disconnectChainSocket W c id s =
  match socketUsers s !! c with
  | None => (Throw (TypeError_of_undefined "socketUsers[chainId]"), released c id s)
  | Some users =>
      match indexOf users id with
      | None => (Throw (Error_cant_remove_user c id users), released c id s)
      | Some i =>
          let s1 := without_user c i (released c id s) in
          if Nat.ltb 0 (length (splice1 users i)) then (Ret tt, s1)
          else
            match socketConnections s !! c with
            | None =>
                (Ret tt,
                 with_trace (cons (EvLogWarn "Failed to disconnect socket: socket not found")) s1)
            | Some ws => (Ret tt, closed W c ws s1)
            end
      end
  end.
Proof.
  unfold_m. unfold released, without_user, closed, clear_log, disconnect_log, users_of. simpl.
  destruct (socketUsers s !! c) as [users|] eqn:Hu; simpl; [|reflexivity].
  destruct (indexOf users id) as [i|]; simpl; [|reflexivity].
  rewrite lookup_insert_eq. simpl.
  destruct (Nat.ltb 0 _); simpl; [reflexivity|].
  destruct (socketConnections s !! c) as [ws|]; simpl; [|reflexivity].
  destruct (ws_disconnect W ws); simpl;
    destruct (socketKeepAliveIntervals s !! c); simpl; reflexivity.
Qed.

(** *** One transport per chain *)

Lemma consistent_initial rs : consistent (initial rs).
Proof.
  unfold consistent. simpl. split; [|split].
  - intros c ws. rewrite lookup_empty. split; [tauto | discriminate].
  - constructor.
  - tauto.
Qed.

(** [consistent] reads only three components of the state. *)
Lemma consistent_same s s' :
  live (trace s') = live (trace s) ->
  socketConnections s' = socketConnections s ->
  next_ws s' = next_ws s ->
  consistent s -> consistent s'.
Proof. unfold consistent. intros -> -> ->. tauto. Qed.

Lemma consistent_opened c ws s :
  socketConnections s !! c = None -> ws_id ws = next_ws s ->
  consistent s -> consistent (opened c ws s).
Proof.
  intros Hc Hid (H1 & H2 & H3). unfold consistent. simpl. split; [|split].
  - intros c' ws'. destruct (decide (c = c')) as [<-|Hne].
    + rewrite lookup_insert_eq. split.
      * intros [[= <-]|Hin]; [done|]. apply H1 in Hin. congruence.
      * intros [= <-]. by left.
    + rewrite lookup_insert_ne by done. rewrite <- H1. split; [|tauto].
      intros [[= ? ?]|?]; done.
  - apply NoDup_cons. split; [|done]. simpl.
    rewrite list_elem_of_In, in_map_iff. intros ([c' ws'] & E & Hin). simpl in E.
    apply H3 in Hin. lia.
  - intros c' ws' [[= <- <-]|Hin]; [lia|]. apply H3 in Hin. lia.
Qed.

Lemma NoDup_map_filter {A B} (f : A -> B) (p : A -> bool) (l : list A) :
  NoDup (map f l) -> NoDup (map f (List.filter p l)).
Proof.
  induction l as [|a l IH]; simpl; [done|]. intros Hnd.
  apply NoDup_cons in Hnd as [Ha Hl]. destruct (p a); simpl; [|auto].
  apply NoDup_cons. split; [|auto].
  rewrite list_elem_of_In, in_map_iff in *. intros (b & E & Hin).
  apply Ha. exists b. split; [done|]. apply filter_In in Hin. tauto.
Qed.

Lemma NoDup_map_inj_in {A B} (f : A -> B) (l : list A) x y :
  NoDup (map f l) -> In x l -> In y l -> f x = f y -> x = y.
Proof.
  induction l as [|a l IH]; simpl; [tauto|]. intros Hnd Hx Hy E.
  apply NoDup_cons in Hnd as [Ha Hl]. rewrite list_elem_of_In, in_map_iff in Ha.
  destruct Hx as [->|Hx], Hy as [->|Hy]; auto.
  - exfalso. apply Ha. eauto.
  - exfalso. apply Ha. eauto.
Qed.

Lemma consistent_closed W c ws s :
  socketConnections s !! c = Some ws ->
  consistent s -> consistent (closed W c ws s).
Proof.
  intros Hc (H1 & H2 & H3).
  assert (Hlive : live (trace (closed W c ws s)) =
                  List.filter (fun p => negb (Nat.eqb (ws_id (snd p)) (ws_id ws)))
                    (live (trace s))).
  { unfold closed, clear_log, disconnect_log. simpl.
    destruct (socketKeepAliveIntervals s !! c), (ws_disconnect W ws); reflexivity. }
  unfold consistent. rewrite Hlive. simpl. split; [|split].
  - intros c' ws'. rewrite filter_In. simpl. rewrite negb_true_iff, Nat.eqb_neq.
    destruct (decide (c = c')) as [<-|Hne].
    + rewrite lookup_delete_eq. split; [|discriminate].
      intros [Hin Hid]. apply H1 in Hin. congruence.
    + rewrite lookup_delete_ne by done. rewrite <- H1. split; [tauto|].
      intros Hin. split; [done|]. intros Hid.
      apply H1 in Hc.
      pose proof (NoDup_map_inj_in _ _ (c', ws') (c, ws) H2 Hin Hc Hid) as E.
      congruence.
  - by apply NoDup_map_filter.
  - intros c' ws' Hin. apply filter_In in Hin as [Hin _]. eauto.
Qed.

Lemma consistent_at_most_one c s :
  consistent s -> (length (live_transports c s) <= 1)%nat.
Proof.
  intros (H1 & H2 & _). unfold live_transports. rewrite length_map.
  assert (Hnd : NoDup (live (trace s))) by (eapply NoDup_fmap_1; exact H2).
  assert (Hall : forall p q, In p (List.filter (fun p => String.eqb (fst p) c) (live (trace s))) ->
                             In q (List.filter (fun p => String.eqb (fst p) c) (live (trace s))) ->
                             p = q).
  { intros [c1 w1] [c2 w2] Hp Hq. apply filter_In in Hp as [Hp E1], Hq as [Hq E2].
    simpl in *. apply String.eqb_eq in E1, E2. subst.
    apply H1 in Hp, Hq. congruence. }
  assert (Hnd' : NoDup (List.filter (fun p => String.eqb (fst p) c) (live (trace s)))).
  { apply NoDup_ListNoDup. apply List.NoDup_filter. by apply NoDup_ListNoDup. }
  destruct (List.filter _ _) as [|p [|q l]]; simpl; [lia | lia |].
  exfalso. apply NoDup_cons in Hnd' as [Hp _]. apply Hp.
  rewrite (Hall p q); [left | by left | right; by left].
Qed.

Lemma consistent_connect W c s : consistent s -> consistent (snd (connectChainSocket W c s)).
Proof.
  intros H. rewrite connectChainSocket_run.
  destruct (getChain W c) as [chain|]; [|done].
  destruct (getExclusiveRandomId _ _) as [[id|] rs]; simpl.
  2: { by eapply consistent_same; [..|exact H]. }
  assert (Hj : consistent (joined c id rs s)) by (by eapply consistent_same; [..|exact H]).
  destruct (socketConnections s !! c) as [ws|] eqn:Hc; simpl; [done|].
  destruct (sorted_rpcs chain) as [|u us]; simpl.
  { by eapply consistent_same; [..|exact Hj]. }
  destruct (WsProvider_new W _ _); simpl.
  { by eapply consistent_same; [..|exact Hj]. }
  apply consistent_opened; done.
Qed.

Lemma consistent_disconnect W c id s :
  consistent s -> consistent (snd (disconnectChainSocket W c id s)).
Proof.
  intros H. rewrite disconnectChainSocket_run.
  destruct (socketUsers s !! c) as [users|]; simpl.
  2: { by eapply consistent_same; [..|exact H]. }
  destruct (indexOf users id) as [i|]; simpl.
  2: { by eapply consistent_same; [..|exact H]. }
  assert (Hj : consistent (without_user c i (released c id s)))
    by (by eapply consistent_same; [..|exact H]).
  destruct (Nat.ltb 0 _); simpl; [done|].
  destruct (socketConnections s !! c) as [ws|] eqn:Hc; simpl.
  - apply consistent_closed; done.
  - by eapply consistent_same; [..|exact Hj].
Qed.

Lemma consistent_step W op s : consistent s -> consistent (step W s op).
Proof.
  intros H. unfold step. destruct op as [c|c id|n|c b]; simpl.
  - unfold bind. pose proof (consistent_connect W c s H) as H'.
    destruct (connectChainSocket W c s) as [[[id ws]| |] s']; exact H'.
  - by apply consistent_disconnect.
  - unfold_m. simpl. destruct (awaiting_isReady s !! n) as [[c ws]|]; simpl; [|done].
    destruct (socketKeepAliveIntervals s !! c); simpl;
      by eapply consistent_same; [..|exact H].
  - unfold_m. simpl. destruct (socketConnections s !! c) as [ws|]; simpl.
    + destruct b; simpl; [|by eapply consistent_same; [..|exact H]].
      destruct (ws_send W ws _ _ _); simpl; by eapply consistent_same; [..|exact H].
    + by eapply consistent_same; [..|exact H].
Qed.

Lemma consistent_run h s : consistent s -> consistent (run_history h s).
Proof.
  revert s. induction h as [|[W op] h IH]; intros s H; simpl; [done|].
  apply IH. by apply consistent_step.
Qed.

(** *** Handles *)

Lemma getRandomId_range r : is_random r -> 0 <= getRandomId r < 10 ^ 8.
Proof.
  intros (Hm & He & Hlt). unfold getRandomId, Math_trunc, fmul, Math_pow_10_8. simpl.
  assert (HP : 0 < 2 ^ dexp r) by (apply Z.pow_pos_nonneg; lia).
  pose proof (round53_nonneg (dnum r * 10 ^ 8) ltac:(lia)) as H0.
  pose proof (round53_upper (dnum r * 10 ^ 8) ltac:(lia)) as H1.
  split; [apply Z.div_pos; lia|].
  apply Z.div_lt_upper_bound; [lia|].
  set (T := 2 ^ 53) in *. set (P := 2 ^ dexp r) in *.
  set (R := round53 _) in *.
  assert (HT : T = 9007199254740992) by reflexivity.
  assert (dnum r * (T + 1) < P * T).
  { destruct (Z.le_gt_cases P T); nia. }
  nia.
Qed.

Lemma while_excluded_sound exclude rs : forall id0 id rs',
  while_excluded exclude id0 rs = (Some id, rs') ->
  ~ In id exclude /\ (id = id0 \/ exists r, In r rs /\ id = getRandomId r) /\
  exists used, rs = used ++ rs'.
Proof.
  induction rs as [|r rs IH]; intros id0 id rs'; simpl.
  - destruct (includes exclude id0) eqn:E; [discriminate|].
    intros [= <- <-]. apply includes_false in E. split; [done|]. split; [by left|].
    by exists [].
  - destruct (includes exclude id0) eqn:E.
    + intros H. apply IH in H as (Hn & Hsrc & used & ->). split; [done|]. split.
      * right. destruct Hsrc as [->|(r' & Hin & ->)]; [exists r | exists r']; split; auto.
      * by exists (r :: used).
    + intros [= <- <-]. apply includes_false in E. split; [done|]. split; [by left|].
      by exists [].
Qed.

Lemma while_excluded_total exclude rs : forall id0,
  (~ In id0 exclude \/ exists r, In r rs /\ ~ In (getRandomId r) exclude) ->
  exists id rs', while_excluded exclude id0 rs = (Some id, rs').
Proof.
  induction rs as [|r rs IH]; intros id0 H; simpl.
  - destruct (includes exclude id0) eqn:E; [|eauto].
    apply includes_spec in E. destruct H as [H|(r & [] & _)]. done.
  - destruct (includes exclude id0) eqn:E; [|eauto].
    apply includes_spec in E. apply IH.
    destruct H as [H|(r' & [->|Hin] & Hr)]; [done | by left | right; eauto].
Qed.

Lemma getExclusiveRandomId_sound exclude rs id rs' :
  getExclusiveRandomId exclude rs = (Some id, rs') ->
  ~ In id exclude /\ (exists r, In r rs /\ id = getRandomId r) /\
  exists used, rs = used ++ rs'.
Proof.
  destruct rs as [|r rs]; simpl; [discriminate|]. intros H.
  apply while_excluded_sound in H as (Hn & Hsrc & used & ->). split; [done|]. split.
  - destruct Hsrc as [->|(r' & Hin & ->)]; [exists r | exists r']; split; auto.
  - by exists (r :: used).
Qed.

Lemma getExclusiveRandomId_total exclude rs :
  (exists r, In r rs /\ ~ In (getRandomId r) exclude) ->
  exists id rs', getExclusiveRandomId exclude rs = (Some id, rs').
Proof.
  destruct rs as [|r rs]; simpl; intros (r' & Hin & Hr); [done|].
  apply while_excluded_total. destruct Hin as [->|Hin]; [by left | right; eauto].
Qed.

Lemma users_of_insert c c' l (m : gmap string (list SocketUserId)) :
  default [] (<[c := l]> m !! c') = if decide (c = c') then l else default [] (m !! c').
Proof. rewrite lookup_insert. by destruct (decide (c = c')). Qed.

Lemma users_step_NoDup l l' : users_step l l' -> NoDup l -> NoDup l'.
Proof.
  intros [->|[(id & Hid & ->)|(i & ->)]] Hnd; [done | | by apply splice1_NoDup].
  apply NoDup_app. split; [done|]. split; [|apply NoDup_singleton].
  intros x Hx Hx'. apply list_elem_of_In in Hx, Hx'. destruct Hx' as [<-|[]]. done.
Qed.

Lemma joined_users c c' id rs s :
  users_of c' (joined c id rs s) = if decide (c = c') then users_of c s ++ [id] else users_of c' s.
Proof. unfold joined, users_of. simpl. apply users_of_insert. Qed.

Lemma connect_users_step W c c' s :
  users_step (users_of c' s) (users_of c' (snd (connectChainSocket W c s))).
Proof.
  rewrite connectChainSocket_run. destruct (getChain W c) as [chain|]; [|by left].
  destruct (getExclusiveRandomId _ _) as [[id|] rs] eqn:E; simpl.
  2: { left. unfold users_of. simpl. rewrite users_of_insert.
       by destruct (decide (c = c')) as [<-|]. }
  apply getExclusiveRandomId_sound in E as (Hn & _).
  assert (Hj : users_step (users_of c' s) (users_of c' (joined c id rs s))).
  { rewrite joined_users. destruct (decide (c = c')) as [<-|]; [|by left].
    right. left. eauto. }
  destruct (socketConnections s !! c); [exact Hj|].
  destruct (sorted_rpcs chain); [exact Hj|].
  destruct (WsProvider_new W _ _); exact Hj.
Qed.

Lemma disconnect_users_step W c id c' s :
  users_step (users_of c' s) (users_of c' (snd (disconnectChainSocket W c id s))).
Proof.
  rewrite disconnectChainSocket_run.
  destruct (socketUsers s !! c) as [users|] eqn:Hu; [|by left].
  destruct (indexOf users id) as [i|]; [|by left]. simpl.
  assert (Hj : users_step (users_of c' s) (users_of c' (without_user c i (released c id s)))).
  { unfold without_user, users_of. simpl. rewrite users_of_insert.
    destruct (decide (c = c')) as [<-|]; [|by left].
    right. right. exists i. by rewrite Hu. }
  destruct (Nat.ltb 0 _); [exact Hj|].
  destruct (socketConnections s !! c); exact Hj.
Qed.

Lemma step_users_step W op c' s : users_step (users_of c' s) (users_of c' (step W s op)).
Proof.
  unfold step. destruct op as [c|c id|n|c b]; simpl.
  - unfold bind. pose proof (connect_users_step W c c' s) as H.
    destruct (connectChainSocket W c s) as [[[id ws]| |] s']; exact H.
  - apply disconnect_users_step.
  - unfold_m. simpl. destruct (awaiting_isReady s !! n) as [[c ws]|]; simpl; [|by left].
    destruct (socketKeepAliveIntervals s !! c); simpl; by left.
  - unfold_m. simpl. destruct (socketConnections s !! c) as [ws|]; simpl; [|by left].
    destruct b; simpl; [|by left]. destruct (ws_send W ws _ _ _); simpl; by left.
Qed.

Lemma run_history_NoDup h : forall s c,
  (forall c, NoDup (users_of c s)) -> NoDup (users_of c (run_history h s)).
Proof.
  induction h as [|[W op] h IH]; intros s c H; simpl; [done|].
  apply IH. intros c'. eapply users_step_NoDup; [apply step_users_step | apply H].
Qed.

Lemma live_transports_stored c s :
  consistent s ->
  live_transports c s =
  match socketConnections s !! c with Some ws => [ws] | None => [] end.
Proof.
  intros H. pose proof (consistent_at_most_one c s H) as Hlen.
  destruct H as (H1 & _). unfold live_transports in *.
  destruct (socketConnections s !! c) as [ws|] eqn:Hc.
  - apply H1 in Hc.
    assert (Hin : In ws (map snd (List.filter (fun p => String.eqb (fst p) c) (live (trace s))))).
    { apply in_map_iff. exists (c, ws). split; [done|]. apply filter_In. split; [done|].
      simpl. apply String.eqb_refl. }
    destruct (map snd _) as [|w [|w' l]]; simpl in *; [done | | lia].
    destruct Hin as [->|[]]. done.
  - destruct (List.filter _ _) as [|[c' w] l] eqn:E; [done|]. exfalso.
    assert (Hin : In (c', w) (List.filter (fun p => String.eqb (fst p) c) (live (trace s))))
      by (rewrite E; by left).
    apply filter_In in Hin as [Hin Hc']. simpl in Hc'. apply String.eqb_eq in Hc'. subst.
    apply H1 in Hin. congruence.
Qed.

(** C1. Whatever acquires, releases, keepalive resumptions and keepalive
    firings are interleaved, on any chains and whatever the directory and
    the transports answer, at most one transport is live for a chain,
    namely the stored one; and when a transport is stored for
    the chain, acquire returns it with a handle that was not in use, and
    constructs nothing: no effect is logged, no object identity consumed,
    the stored connections are unchanged. *)
Theorem one_live_transport_per_chain :
  (forall rs h c,
      let s := run_history h (initial rs) in
      (length (live_transports c s) <= 1)%nat /\
      live_transports c s =
        match socketConnections s !! c with Some ws => [ws] | None => [] end) /\
  (forall W c s ws chain id rs,
      socketConnections s !! c = Some ws ->
      getChain W c = Some chain ->
      getExclusiveRandomId (users_of c s) (random s) = (Some id, rs) ->
      exists s',
        connectChainSocket W c s = (Ret (id, Some ws), s') /\
        ~ In id (users_of c s) /\ users_of c s' = users_of c s ++ [id] /\
        trace s' = trace s /\ next_ws s' = next_ws s /\
        socketConnections s' = socketConnections s).
Proof.
  split.
  - intros rs h c s.
    assert (H : consistent s) by (apply consistent_run, consistent_initial).
    split; [by apply consistent_at_most_one | by apply live_transports_stored].
  - intros W c s ws chain id rs Hc Hg Hr. exists (joined c id rs s).
    rewrite connectChainSocket_run, Hg, Hr, Hc.
    apply getExclusiveRandomId_sound in Hr as (Hn & _).
    rewrite joined_users. destruct (decide (c = c)); done.
Qed.

Lemma one_live_transport_per_chain_witness :
  (length (live_transports "polkadot"
             (run_history
                [(Scenario.world, Acquire "custom");
                 (Scenario.world, Acquire "polkadot");
                 (Scenario.world, Acquire "polkadot");
                 (Scenario.world, KeepaliveReady 0);
                 (Scenario.world, Release "polkadot" 25000000);
                 (Scenario.world, KeepaliveTick "polkadot" true);
                 (Scenario.world, Release "polkadot" 75000000);
                 (Scenario.world, Acquire "kusama")]
                (initial Scenario.draws))) <= 1)%nat /\
  exists s',
    connectChainSocket Scenario.world "polkadot" Scenario.once
      = (Ret (25000000, Some Scenario.ws0), s') /\
    ~ In 25000000 (users_of "polkadot" Scenario.once) /\
    users_of "polkadot" s' = users_of "polkadot" Scenario.once ++ [25000000] /\
    trace s' = trace Scenario.once /\ next_ws s' = next_ws Scenario.once /\
    socketConnections s' = socketConnections Scenario.once.
Proof.
  split.
  - apply (proj1 one_live_transport_per_chain).
  - apply (proj2 one_live_transport_per_chain Scenario.world "polkadot" Scenario.once
             Scenario.ws0 {| rpcs := Some [Scenario.A; Scenario.B; Scenario.C; Scenario.D] |}
             25000000 [Dy 3 2; Dy 1 1]); vm_compute; reflexivity.
Defined.

(** C8. A handle that acquire returns is an integer from 0 up to (and
    below) 10^8 whenever [Math.random()] returns numbers of [0, 1); it is
    not among the handles active for the chain when it is allocated, so no
    history of the pool gives a chain the same live handle twice.  The
    generate-and-check loop never returns a member of its exclude list, and
    it does return as soon as a draw falls outside that list. *)
Theorem acquired_handle_fresh :
  (forall exclude rs id rs',
      getExclusiveRandomId exclude rs = (Some id, rs') ->
      ~ In id exclude /\ exists r, In r rs /\ id = getRandomId r) /\
  (forall exclude rs,
      (exists r, In r rs /\ ~ In (getRandomId r) exclude) ->
      exists id rs', getExclusiveRandomId exclude rs = (Some id, rs')) /\
  (forall r, is_random r -> 0 <= getRandomId r < 10 ^ 8) /\
  (forall W c s id ws s',
      Forall is_random (random s) ->
      connectChainSocket W c s = (Ret (id, ws), s') ->
      0 <= id < 10 ^ 8 /\ ~ In id (users_of c s) /\
      users_of c s' = users_of c s ++ [id]) /\
  (forall rs h c, NoDup (users_of c (run_history h (initial rs)))).
Proof.
  split; [|split; [|split; [|split]]].
  - intros exclude rs id rs' H. apply getExclusiveRandomId_sound in H. tauto.
  - apply getExclusiveRandomId_total.
  - apply getRandomId_range.
  - intros W c s id ws s' Hrand H. rewrite connectChainSocket_run in H.
    destruct (getChain W c) as [chain|]; [|discriminate].
    destruct (getExclusiveRandomId _ _) as [[id'|] rs] eqn:E; [|discriminate].
    apply getExclusiveRandomId_sound in E as (Hn & (r & Hin & ->) & _).
    assert (Hid : id = getRandomId r /\ users_of c s' = users_of c s ++ [getRandomId r]).
    { destruct (socketConnections s !! c).
      { injection H as <- _ <-. rewrite joined_users. by destruct (decide (c = c)). }
      destruct (sorted_rpcs chain); [discriminate|].
      destruct (WsProvider_new W _ _); [discriminate|].
      injection H as <- _ <-. split; [done|].
      change (users_of c (opened c _ (joined c (getRandomId r) rs s)))
        with (users_of c (joined c (getRandomId r) rs s)).
      rewrite joined_users. by destruct (decide (c = c)). }
    destruct Hid as [-> Hu]. split; [|done].
    apply getRandomId_range. rewrite Forall_forall in Hrand. apply Hrand.
    by apply list_elem_of_In.
  - intros rs h c. apply run_history_NoDup. intros c'. unfold users_of. simpl.
    rewrite lookup_empty. constructor.
Qed.

Lemma acquired_handle_fresh_witness :
  (~ In 75000000 [50000000; 25000000] /\
   exists r, In r [Dy 1 1; Dy 1 2; Dy 3 2] /\ 75000000 = getRandomId r) /\
  (exists id rs', getExclusiveRandomId [50000000] Scenario.draws = (Some id, rs')) /\
  0 <= getRandomId (Dy (2 ^ 53 - 1) 53) < 10 ^ 8 /\
  (0 <= 25000000 < 10 ^ 8 /\ ~ In 25000000 (users_of "polkadot" Scenario.once) /\
   users_of "polkadot" (snd (connectChainSocket Scenario.world "polkadot" Scenario.once))
     = users_of "polkadot" Scenario.once ++ [25000000]).
Proof.
  destruct acquired_handle_fresh as (H1 & H2 & H3 & H4 & _).
  split; [|split; [|split]].
  - apply (H1 [50000000; 25000000] [Dy 1 1; Dy 1 2; Dy 3 2] 75000000 []).
    vm_compute. reflexivity.
  - apply H2. exists (Dy 1 2). split; [right; by left|]. vm_compute. intuition congruence.
  - apply H3. vm_compute. intuition congruence.
  - apply (H4 Scenario.world "polkadot" Scenario.once 25000000 (Some Scenario.ws0)).
    + unfold Scenario.once. repeat constructor; vm_compute; intuition congruence.
    + vm_compute. reflexivity.
Defined.

(** *** Release *)

Lemma length_zero_nil {A} (l : list A) : Nat.ltb 0 (length l) = false -> l = [].
Proof. destruct l; [done|]. simpl. discriminate. Qed.

Lemma length_pos_not_nil {A} (l : list A) : Nat.ltb 0 (length l) = true -> l <> [].
Proof. destruct l; [discriminate | done]. Qed.

Lemma indexOf_Some_In l x i : indexOf l x = Some i -> In x l.
Proof.
  intros H. apply indexOf_Some in H. apply list_elem_of_In.
  eapply list_elem_of_lookup_2. exact H.
Qed.

(** C3. With a transport [ws] stored for the chain, a release calls
    [ws.disconnect()] if and only if it removes its handle and leaves the
    chain's handle list empty, and it disconnects no other transport.  In
    that case the connection entry and the keepalive entry are deleted and
    the registered timer, if any, is cleared.  A release that removes its
    handle and leaves the list non-empty changes the handle list only (and
    is recorded as a call). *)
Theorem release_disconnects_iff_last (W : World) c id s ws :
  socketConnections s !! c = Some ws ->
  let r := fst (disconnectChainSocket W c id s) in
  let s' := snd (disconnectChainSocket W c id s) in
  exists new,
    trace s' = new ++ trace s /\
    (In (EvDisconnect ws) new <-> In id (users_of c s) /\ users_of c s' = []) /\
    (forall ws', In (EvDisconnect ws') new -> ws' = ws) /\
    (In id (users_of c s) -> users_of c s' = [] ->
       r = Ret tt /\
       socketConnections s' = delete c (socketConnections s) /\
       socketKeepAliveIntervals s' = delete c (socketKeepAliveIntervals s) /\
       (forall t, socketKeepAliveIntervals s !! c = Some t -> In (EvClearInterval t) new)) /\
    (In id (users_of c s) -> users_of c s' <> [] ->
       exists i, indexOf (users_of c s) id = Some i /\
         r = Ret tt /\
         s' = with_socketUsers (<[c := splice1 (users_of c s) i]>)
                (with_trace (cons (EvRelease c id)) s)).
Proof.
  intros Hc. cbv zeta. rewrite disconnectChainSocket_run.
  assert (Hno : forall w, ~ In (EvDisconnect w) [EvRelease c id])
    by (intros w [[=]|[]]).
  unfold users_of at 1 3 5 7 8.
  destruct (socketUsers s !! c) as [users|] eqn:Hu; simpl.
  2: { exists [EvRelease c id]. split; [done|].
       split; [split; [intros H; by apply Hno in H | tauto]|].
       split; [intros w H; by apply Hno in H|]. split; tauto. }
  destruct (indexOf users id) as [i|] eqn:Hi; simpl.
  2: { apply indexOf_None in Hi. exists [EvRelease c id]. split; [done|].
       split; [split; [intros H; by apply Hno in H | tauto]|].
       split; [intros w H; by apply Hno in H|]. split; tauto. }
  pose proof (indexOf_Some_In _ _ _ Hi) as Hin.
  destruct (Nat.ltb 0 (length (splice1 users i))) eqn:Hlen; simpl.
  - apply length_pos_not_nil in Hlen.
    assert (Hu' : users_of c (without_user c i (released c id s)) = splice1 users i).
    { unfold without_user, users_of. simpl. by rewrite lookup_insert_eq, Hu. }
    exists [EvRelease c id]. split; [done|]. rewrite Hu'.
    split; [split; [intros H; by apply Hno in H | tauto]|].
    split; [intros w H; by apply Hno in H|]. split; [tauto|].
    intros _ _. exists i. split; [done|]. split; [done|].
    unfold without_user, released, users_of. simpl. by rewrite Hu.
  - apply length_zero_nil in Hlen. rewrite Hc.
    assert (Hu' : users_of c (closed W c ws (without_user c i (released c id s))) = []).
    { unfold closed, without_user, users_of. simpl. by rewrite lookup_insert_eq, Hu. }
    exists (clear_log s c ++ disconnect_log W ws ++ [EvRelease c id]).
    split; [|split; [|split; [|split]]].
    + unfold closed. simpl. by rewrite <- !app_assoc.
    + split; [done|]. intros _. rewrite !in_app_iff. right. left.
      unfold disconnect_log. destruct (ws_disconnect W ws); simpl; auto.
    + intros ws'. rewrite !in_app_iff. unfold clear_log, disconnect_log.
      destruct (socketKeepAliveIntervals s !! c), (ws_disconnect W ws); simpl;
        intuition congruence.
    + intros _ _. split; [done|]. split; [done|]. split; [done|].
      intros t Ht. rewrite in_app_iff. left.
      unfold clear_log. simpl. rewrite Ht. by left.
    + intros _ Hne. exfalso. apply Hne. exact Hu'.
Qed.

Lemma release_disconnects_iff_last_witness :
  let W := Scenario.world in
  let s := Scenario.once in
  let r := fst (disconnectChainSocket W "polkadot" 50000000 s) in
  let s' := snd (disconnectChainSocket W "polkadot" 50000000 s) in
  exists new,
    trace s' = new ++ trace s /\
    (In (EvDisconnect Scenario.ws0) new
       <-> In 50000000 (users_of "polkadot" s) /\ users_of "polkadot" s' = []) /\
    (forall ws', In (EvDisconnect ws') new -> ws' = Scenario.ws0) /\
    (In 50000000 (users_of "polkadot" s) -> users_of "polkadot" s' = [] ->
       r = Ret tt /\
       socketConnections s' = delete "polkadot" (socketConnections s) /\
       socketKeepAliveIntervals s' = delete "polkadot" (socketKeepAliveIntervals s) /\
       (forall t, socketKeepAliveIntervals s !! "polkadot" = Some t ->
                  In (EvClearInterval t) new)) /\
    (In 50000000 (users_of "polkadot" s) -> users_of "polkadot" s' <> [] ->
       exists i, indexOf (users_of "polkadot" s) 50000000 = Some i /\
         r = Ret tt /\
         s' = with_socketUsers (<["polkadot" := splice1 (users_of "polkadot" s) i]>)
                (with_trace (cons (EvRelease "polkadot" 50000000)) s)).
Proof.
  apply (release_disconnects_iff_last Scenario.world "polkadot" 50000000 Scenario.once
           Scenario.ws0).
  vm_compute. reflexivity.
Defined.

(** *** Endpoint order *)

Lemma filter_partition_perm {A} (p : A -> bool) (l : list A) :
  Permutation (List.filter p l ++ List.filter (fun x => negb (p x)) l) l.
Proof.
  induction l as [|a l IH]; simpl; [constructor|].
  destruct (p a); simpl.
  - by constructor.
  - rewrite <- Permutation_middle. by constructor.
Qed.

Lemma filter_filter_same {A} (p : A -> bool) (l : list A) :
  List.filter p (List.filter p l) = List.filter p l.
Proof.
  induction l as [|a l IH]; simpl; [done|].
  destruct (p a) eqn:E; simpl; [|done]. by rewrite E, IH.
Qed.

Lemma filter_filter_neg {A} (p : A -> bool) (l : list A) :
  List.filter p (List.filter (fun x => negb (p x)) l) = [].
Proof.
  induction l as [|a l IH]; simpl; [done|].
  destruct (p a) eqn:E; simpl; [done|]. by rewrite E.
Qed.

Lemma filter_neg_filter {A} (p : A -> bool) (l : list A) :
  List.filter (fun x => negb (p x)) (List.filter p l) = [].
Proof.
  induction l as [|a l IH]; simpl; [done|].
  destruct (p a) eqn:E; simpl; [|done]. by rewrite E.
Qed.

Lemma sorted_rpcs_nil chain : sorted_rpcs chain = [] <-> rpcs_or_empty chain = [].
Proof.
  unfold sorted_rpcs. rewrite <- map_app. split.
  - intros H. apply map_eq_nil in H.
    pose proof (filter_partition_perm isHealthy (rpcs_or_empty chain)) as P.
    rewrite H in P. by apply Permutation_nil in P.
  - intros ->. reflexivity.
Qed.

(** C4. The endpoint list built at connect time is the urls of a
    reordering of the candidates in which every candidate flagged healthy
    comes before every candidate flagged unhealthy and each of the two
    groups keeps its input order; it is a permutation of the input; and it
    is the list the transport constructed by a first acquire was given.
    A(unhealthy), B(healthy), C(healthy), D(unhealthy) become B, C, A, D. *)
Theorem sorted_rpcs_healthy_first (chain : Chain) :
  let input := rpcs_or_empty chain in
  let ordered :=
    List.filter isHealthy input ++ List.filter (fun r => negb (isHealthy r)) input in
  sorted_rpcs chain = map url ordered /\
  Permutation ordered input /\
  Permutation (sorted_rpcs chain) (map url input) /\
  (forall i j a b,
      ordered !! i = Some a -> ordered !! j = Some b ->
      isHealthy a = true -> isHealthy b = false -> (i < j)%nat) /\
  List.filter isHealthy ordered = List.filter isHealthy input /\
  List.filter (fun r => negb (isHealthy r)) ordered
    = List.filter (fun r => negb (isHealthy r)) input /\
  (forall W c s id ws s',
      getChain W c = Some chain -> socketConnections s !! c = None ->
      connectChainSocket W c s = (Ret (id, Some ws), s') ->
      ws_endpoints ws = sorted_rpcs chain /\ In (EvNew c ws) (trace s')) /\
  sorted_rpcs {| rpcs := Some [Scenario.A; Scenario.B; Scenario.C; Scenario.D] |}
    = [url Scenario.B; url Scenario.C; url Scenario.A; url Scenario.D].
Proof.
  intros input ordered.
  assert (HP : Permutation ordered input) by apply filter_partition_perm.
  split; [|split; [|split; [|split; [|split; [|split; [|split]]]]]].
  - unfold sorted_rpcs. by rewrite <- map_app.
  - exact HP.
  - unfold sorted_rpcs. rewrite <- map_app. by apply Permutation_map.
  - intros i j a b Hi Hj Ha Hb. subst ordered.
    destruct (decide (i < length (List.filter isHealthy input))%nat) as [Hlt|Hge].
    + destruct (decide (j < length (List.filter isHealthy input))%nat) as [Hlt'|Hge']; [|lia].
      rewrite lookup_app_l in Hj by done.
      apply list_elem_of_lookup_2, list_elem_of_In, filter_In in Hj as [_ Hj]. congruence.
    + rewrite lookup_app_r in Hi by lia.
      apply list_elem_of_lookup_2, list_elem_of_In, filter_In in Hi as [_ Hi].
      rewrite Ha in Hi. discriminate.
  - subst ordered. rewrite List.filter_app, filter_filter_same, filter_filter_neg.
    apply app_nil_r.
  - subst ordered. rewrite List.filter_app, filter_neg_filter.
    by rewrite (filter_filter_same (fun r => negb (isHealthy r))).
  - intros W c s id ws s' Hg Hc H. rewrite connectChainSocket_run, Hg in H.
    destruct (getExclusiveRandomId _ _) as [[id'|] rs]; [|discriminate].
    rewrite Hc in H. destruct (sorted_rpcs chain) as [|u us] eqn:E; [discriminate|].
    destruct (WsProvider_new W _ _); [discriminate|].
    injection H as <- <- <-. split; [reflexivity|]. simpl. by left.
  - reflexivity.
Qed.

Lemma sorted_rpcs_healthy_first_witness :
  let chain := {| rpcs := Some [Scenario.A; Scenario.B; Scenario.C; Scenario.D] |} in
  (forall i j a b,
      [Scenario.B; Scenario.C; Scenario.A; Scenario.D] !! i = Some a ->
      [Scenario.B; Scenario.C; Scenario.A; Scenario.D] !! j = Some b ->
      isHealthy a = true -> isHealthy b = false -> (i < j)%nat) /\
  ws_endpoints Scenario.ws0 = sorted_rpcs chain /\
  In (EvNew "polkadot" Scenario.ws0) (trace Scenario.once).
Proof.
  intros chain.
  destruct (sorted_rpcs_healthy_first chain) as (_ & _ & _ & H4 & _ & _ & H7 & _).
  split; [exact H4|].
  apply (H7 Scenario.world "polkadot" (initial Scenario.draws) 50000000 Scenario.ws0
            Scenario.once); vm_compute; reflexivity.
Defined.

(** *** Failures of acquire *)

(** Every candidate endpoint of "kusama" is flagged unhealthy and the chain
    has no connection entry, yet acquire does not fail for lack of healthy
    endpoints: it opens a transport on the unhealthy endpoint.  And
    "custom" is known to the directory and has an endpoint, yet acquire
    does not return: the transport constructor throws. *)
Lemma unhealthy_only_chain_connects :
  (getChain Scenario.world "kusama" = Some {| rpcs := Some [Scenario.A] |} /\
   Forall (fun r => isHealthy r = false) [Scenario.A] /\
   socketConnections (initial Scenario.draws) !! "kusama" = None /\
   fst (connectChainSocket Scenario.world "kusama" (initial Scenario.draws))
     = Ret (50000000, Some {| ws_id := 0; ws_endpoints := ["wss://a"%string];
                              ws_autoConnectMs := 1000 |}) /\
   fst (connectChainSocket Scenario.world "kusama" (initial Scenario.draws))
     <> Throw (Error_no_healthy_rpcs "kusama")) /\
  (getChain Scenario.world "custom" <> None /\
   sorted_rpcs {| rpcs := Some [ {| url := "https://rpc.example"; isHealthy := true |} ] |}
     <> [] /\
   fst (connectChainSocket Scenario.world "custom" (initial Scenario.draws))
     = Throw (Thrown "Endpoint should start with 'ws://'")).
Proof.
  split.
  - split; [reflexivity|]. split; [by repeat constructor|]. split; [reflexivity|].
    split; [vm_compute; reflexivity|]. vm_compute. discriminate.
  - split; [vm_compute; discriminate|]. split; [vm_compute; discriminate|].
    vm_compute. reflexivity.
Qed.

(** C5, amended. For a chain id that is not the name of a property of
    [Object.prototype], and when the random numbers to come include one
    outside the chain's active handles, acquire fails with the
    chain-not-found error exactly when the directory returns none.
    Otherwise, with a stored connection it returns that connection; without
    one it fails with the no-healthy-RPCs error exactly when the chain has
    no candidate endpoint at all, healthy or not, and else either rethrows
    what the transport constructor threw or returns a handle and the new
    connection.  (Under a name such as "constructor" the read of line 116
    finds the inherited member, and acquire returns it without constructing
    or throwing.) *)
Theorem acquire_outcome (W : World) c s :
  ~ In c Object_prototype_properties ->
  (exists r, In r (random s) /\ ~ In (getRandomId r) (users_of c s)) ->
  let r := fst (connectChainSocket W c s) in
  (r = Throw (Error_chain_not_found c) <-> getChain W c = None) /\
  (forall chain, getChain W c = Some chain ->
     match socketConnections s !! c with
     | Some ws => exists id, r = Ret (id, Some ws)
     | None =>
         (r = Throw (Error_no_healthy_rpcs c) <-> rpcs_or_empty chain = []) /\
         (rpcs_or_empty chain <> [] ->
            match WsProvider_new W (sorted_rpcs chain) 1000 with
            | Some e => r = Throw (Thrown e)
            | None => exists id, r = Ret (id, Some (fresh_ws (sorted_rpcs chain) s))
            end)
     end).
Proof.
  intros _ Hr. cbv zeta. rewrite connectChainSocket_run.
  apply getExclusiveRandomId_total in Hr as (id & rs & ->).
  split.
  - destruct (getChain W c) as [chain|]; [|done].
    split; [|discriminate].
    destruct (socketConnections s !! c); [discriminate|].
    destruct (sorted_rpcs chain); [discriminate|].
    destruct (WsProvider_new W _ _); discriminate.
  - intros chain ->. destruct (socketConnections s !! c) as [ws|]; simpl; [eauto|].
    rewrite <- sorted_rpcs_nil.
    destruct (sorted_rpcs chain) as [|u us] eqn:E; simpl.
    + split; [done|]. intros H. done.
    + split.
      * destruct (WsProvider_new W _ _); split; discriminate.
      * intros _. destruct (WsProvider_new W _ _); simpl; eauto.
Qed.

Lemma acquire_outcome_witness :
  let r := fst (connectChainSocket Scenario.world "kusama" (initial Scenario.draws)) in
  (r = Throw (Error_chain_not_found "kusama") <-> getChain Scenario.world "kusama" = None) /\
  (forall chain, getChain Scenario.world "kusama" = Some chain ->
     match socketConnections (initial Scenario.draws) !! "kusama" with
     | Some ws => exists id, r = Ret (id, Some ws)
     | None =>
         (r = Throw (Error_no_healthy_rpcs "kusama") <-> rpcs_or_empty chain = []) /\
         (rpcs_or_empty chain <> [] ->
            match WsProvider_new Scenario.world (sorted_rpcs chain) 1000 with
            | Some e => r = Throw (Thrown e)
            | None =>
                exists id,
                  r = Ret (id, Some (fresh_ws (sorted_rpcs chain) (initial Scenario.draws)))
            end)
     end).
Proof.
  apply (acquire_outcome Scenario.world "kusama" (initial Scenario.draws)).
  - intros H. repeat (destruct H as [H|H]; [discriminate|]). exact H.
  - exists (Dy 1 1). split; [by left|]. vm_compute. tauto.
Defined.

(** C7. Acquire on a chain without endpoints throws, and so does acquire
    when the transport constructor throws (here on an endpoint that is not
    a websocket url); neither leaves a transport or a keepalive timer, but
    both leave the handle they had allocated in the chain's handle list,
    where no caller can release it.  Once the directory lists a websocket
    url for that chain, a caller that acquires and releases it leaves the
    transport open behind: the stale handle keeps the list non-empty. *)
Theorem failed_acquire_keeps_handle :
  let no_rpcs := connectChainSocket Scenario.world "empty" (initial Scenario.draws) in
  let no_ctor := connectChainSocket Scenario.world "custom" (initial Scenario.draws) in
  let later := connectChainSocket Scenario.world_later "custom" (snd no_ctor) in
  let after := disconnectChainSocket Scenario.world_later "custom" 25000000 (snd later) in
  let ws := {| ws_id := 0; ws_endpoints := ["wss://rpc.example"%string];
               ws_autoConnectMs := 1000 |} in
  (fst no_rpcs = Throw (Error_no_healthy_rpcs "empty") /\
   socketConnections (snd no_rpcs) !! "empty" = None /\
   socketKeepAliveIntervals (snd no_rpcs) !! "empty" = None /\
   awaiting_isReady (snd no_rpcs) = [] /\
   socketUsers (snd no_rpcs) !! "empty" = Some [50000000]) /\
  (fst no_ctor = Throw (Thrown "Endpoint should start with 'ws://'") /\
   socketConnections (snd no_ctor) !! "custom" = None /\
   socketKeepAliveIntervals (snd no_ctor) !! "custom" = None /\
   awaiting_isReady (snd no_ctor) = [] /\
   socketUsers (snd no_ctor) !! "custom" = Some [50000000]) /\
  (fst later = Ret (25000000, Some ws) /\
   fst after = Ret tt /\
   socketUsers (snd after) !! "custom" = Some [50000000] /\
   live_transports "custom" (snd after) = [ws]).
Proof. vm_compute. repeat split; reflexivity. Qed.

(** The leak in general: whenever acquire throws anything but the
    chain-not-found error, the chain's handle list has grown by one. *)
Lemma failed_acquire_leaks W c s e s' :
  connectChainSocket W c s = (Throw e, s') ->
  e <> Error_chain_not_found c ->
  exists id, ~ In id (users_of c s) /\ users_of c s' = users_of c s ++ [id] /\
             socketConnections s' !! c = None.
Proof.
  rewrite connectChainSocket_run. intros H Hne.
  destruct (getChain W c) as [chain|]; [|congruence].
  destruct (getExclusiveRandomId _ _) as [[id|] rs] eqn:E; [|discriminate].
  apply getExclusiveRandomId_sound in E as (Hn & _). exists id.
  assert (Hj : users_of c (joined c id rs s) = users_of c s ++ [id]).
  { rewrite joined_users. by destruct (decide (c = c)). }
  destruct (socketConnections s !! c) eqn:Hc; [discriminate|].
  destruct (sorted_rpcs chain); [injection H as <- <-; done|].
  destruct (WsProvider_new W _ _); [injection H as <- <-; done | discriminate].
Qed.

(** *** Releases that do not find their handle *)

(** Releasing a handle a second time raises an error, and so does a
    release on a chain that never had a handle. *)
Lemma double_release_raises :
  let first := disconnectChainSocket Scenario.world "polkadot" 50000000 Scenario.once in
  fst first = Ret tt /\
  fst (disconnectChainSocket Scenario.world "polkadot" 50000000 (snd first))
    = Throw (Error_cant_remove_user "polkadot" 50000000 []) /\
  fst (disconnectChainSocket Scenario.world "moonbeam" 50000000 Scenario.once)
    = Throw (TypeError_of_undefined "socketUsers[chainId]").
Proof. vm_compute. repeat split; reflexivity. Qed.

(** C6, amended. A release whose handle is not in the chain's handle list
    (already released, say) throws the can't-remove-user error and changes
    nothing but the record of the call.  A release whose handle is in the
    list never throws; when it empties the list and no transport is stored
    for the chain, it logs one warning, disconnects nothing and changes
    only the handle list. *)
Theorem release_of_inactive_handle_raises (W : World) c id s users :
  socketUsers s !! c = Some users ->
  (~ In id users ->
     disconnectChainSocket W c id s
       = (Throw (Error_cant_remove_user c id users), with_trace (cons (EvRelease c id)) s)) /\
  (In id users -> fst (disconnectChainSocket W c id s) = Ret tt) /\
  (In id users -> socketConnections s !! c = None ->
     forall i, indexOf users id = Some i -> splice1 users i = [] ->
     disconnectChainSocket W c id s
       = (Ret tt,
          with_trace (app [EvLogWarn "Failed to disconnect socket: socket not found";
                           EvRelease c id])
            (with_socketUsers (<[c := []]>) s))).
Proof.
  intros Hu. rewrite disconnectChainSocket_run, Hu. split; [|split].
  - intros Hn. apply indexOf_None in Hn. by rewrite Hn.
  - intros Hin. apply indexOf_In in Hin as (i & ->). simpl.
    destruct (Nat.ltb 0 _); [done|]. by destruct (socketConnections s !! c).
  - intros Hin Hc i Hi Hnil. rewrite Hi, Hc. cbv zeta. rewrite Hnil. simpl.
    unfold without_user, released, users_of. simpl. rewrite Hu. simpl. by rewrite Hnil.
Qed.

Lemma release_of_inactive_handle_raises_witness :
  let s := snd (disconnectChainSocket Scenario.world "polkadot" 50000000 Scenario.once) in
  disconnectChainSocket Scenario.world "polkadot" 50000000 s
    = (Throw (Error_cant_remove_user "polkadot" 50000000 []),
       with_trace (cons (EvRelease "polkadot" 50000000)) s).
Proof.
  intros s.
  apply (release_of_inactive_handle_raises Scenario.world "polkadot" 50000000 s []).
  - vm_compute. reflexivity.
  - simpl. tauto.
Defined.

(** *** The request multiplexer *)

Lemma indexOf_app_last l x : ~ In x l -> indexOf (l ++ [x]) x = Some (length l).
Proof.
  induction l as [|y l IH]; simpl; intros Hn.
  - by rewrite Z.eqb_refl.
  - destruct (Z.eqb_spec y x) as [->|_]; [tauto|]. rewrite IH by tauto. done.
Qed.

Lemma splice1_app_last l (x : Z) : splice1 (l ++ [x]) (length l) = l.
Proof. induction l as [|y l IH]; simpl; [done|]. by rewrite IH. Qed.

Lemma release_count_other c id e tr :
  (forall c' id', e <> EvRelease c' id') ->
  release_count c id (e :: tr) = release_count c id tr.
Proof. intros H. unfold release_count. simpl. destruct e; try done. by destruct (H chainId socketUserId). Qed.

(** Every call of [disconnectChainSocket c id] is recorded once, whatever
    its outcome. *)
Lemma disconnect_release_count W c id s :
  release_count c id (trace (snd (disconnectChainSocket W c id s)))
  = S (release_count c id (trace s)).
Proof.
  rewrite disconnectChainSocket_run. unfold release_count.
  assert (Hhd : (String.eqb c c && Z.eqb id id) = true)
    by (by rewrite String.eqb_refl, Z.eqb_refl).
  destruct (socketUsers s !! c) as [users|]; simpl; [|by rewrite Hhd].
  destruct (indexOf users id) as [i|]; simpl; [|by rewrite Hhd].
  destruct (Nat.ltb 0 _); simpl; [by rewrite Hhd|].
  destruct (socketConnections s !! c) as [ws|]; simpl; [|by rewrite Hhd].
  unfold clear_log, disconnect_log. simpl.
  destruct (socketKeepAliveIntervals s !! c), (ws_disconnect W ws); simpl; by rewrite Hhd.
Qed.

(** Acquire records no release, and its handle is the last of the list. *)
Lemma connect_returns W c s id ws s' :
  connectChainSocket W c s = (Ret (id, ws), s') ->
  (exists w, ws = Some w) /\
  release_count c id (trace s') = release_count c id (trace s) /\
  ~ In id (users_of c s) /\ socketUsers s' !! c = Some (users_of c s ++ [id]).
Proof.
  rewrite connectChainSocket_run. intros H.
  destruct (getChain W c) as [chain|]; [|discriminate].
  destruct (getExclusiveRandomId _ _) as [[id'|] rs] eqn:E; [|discriminate].
  apply getExclusiveRandomId_sound in E as (Hn & _).
  assert (Hj : socketUsers (joined c id' rs s) !! c = Some (users_of c s ++ [id'])).
  { unfold joined. simpl. by rewrite lookup_insert_eq. }
  destruct (socketConnections s !! c).
  { injection H as <- <- <-. eauto. }
  destruct (sorted_rpcs chain); [discriminate|].
  destruct (WsProvider_new W _ _); [discriminate|].
  injection H as <- <- <-. eauto.
Qed.

(** Releasing the handle that was pushed last restores the handle list. *)
Lemma disconnect_last W c id s l :
  socketUsers s !! c = Some (l ++ [id]) -> ~ In id l ->
  fst (disconnectChainSocket W c id s) = Ret tt /\
  socketUsers (snd (disconnectChainSocket W c id s)) !! c = Some l.
Proof.
  intros Hu Hn. rewrite disconnectChainSocket_run, Hu, indexOf_app_last by done.
  cbv zeta. rewrite splice1_app_last.
  assert (Hw : socketUsers (without_user c (length l) (released c id s)) !! c = Some l).
  { unfold without_user, released, users_of. simpl.
    by rewrite lookup_insert_eq, Hu; simpl; rewrite splice1_app_last. }
  destruct (Nat.ltb 0 (length l)); [done|].
  destruct (socketConnections s !! c); done.
Qed.

Lemma send_run W c method params isCacheable s id ws s1 :
  connectChainSocket W c s = (Ret (id, Some ws), s1) ->
  let sent := with_trace (cons (EvWsSend ws method params)) s1 in
  send W c method params isCacheable s =
  match ws_send W ws method params isCacheable with
  | Resolves response => (Ret response, snd (disconnectChainSocket W c id sent))
  | Rejects e =>
      (Throw (Thrown e),
       snd (disconnectChainSocket W c id
              (with_trace (cons (EvLogError "Failed to send" (Thrown e))) sent)))
  end.
Proof.
  intros Hacq sent. pose proof (connect_returns _ _ _ _ _ _ Hacq) as (_ & _ & Hn & Hu).
  unfold send, bind, try_catch, waitForWs, settle, log_error, emit, modify, ret, throw.
  rewrite Hacq. simpl. fold sent.
  destruct (ws_send W ws method params isCacheable) as [response|e]; simpl.
  - pose proof (disconnect_last W c id sent (users_of c s) Hu Hn) as (Hr & _).
    destruct (disconnectChainSocket W c id sent) as [r s3]. simpl in Hr. by subst r.
  - set (s2 := with_trace _ sent).
    pose proof (disconnect_last W c id s2 (users_of c s) Hu Hn) as (Hr & _).
    destruct (disconnectChainSocket W c id s2) as [r s3]. simpl in Hr. by subst r.
Qed.

(** [send] releases the handle it acquired exactly once, after a resolved
    and after a rejected transport call alike, and hands on the result or
    the error. *)
Lemma send_releases_once W c method params isCacheable s id ws s1 :
  connectChainSocket W c s = (Ret (id, Some ws), s1) ->
  let out := send W c method params isCacheable s in
  release_count c id (trace (snd out)) = S (release_count c id (trace s)) /\
  socketUsers (snd out) !! c = Some (users_of c s) /\
  fst out = match ws_send W ws method params isCacheable with
            | Resolves response => Ret response
            | Rejects e => Throw (Thrown e)
            end.
Proof.
  intros Hacq. pose proof (connect_returns _ _ _ _ _ _ Hacq) as (_ & Hcnt & Hn & Hu).
  cbv zeta. rewrite (send_run _ _ _ _ _ _ _ _ _ Hacq). cbv zeta.
  destruct (ws_send W ws method params isCacheable) as [response|e]; simpl.
  - rewrite disconnect_release_count. simpl. rewrite release_count_other, Hcnt by done.
    split; [done|]. split; [|done]. by apply disconnect_last.
  - rewrite disconnect_release_count. simpl. rewrite !release_count_other, Hcnt by done.
    split; [done|]. split; [|done]. by apply disconnect_last.
Qed.

Lemma subscribe_run W c subscribeMethod unsubscribeMethod responseMethod params callback
  s id ws s1 :
  connectChainSocket W c s = (Ret (id, Some ws), s1) ->
  let asked := with_trace (cons (EvWsSubscribe ws responseMethod subscribeMethod)) s1 in
  subscribe W c subscribeMethod unsubscribeMethod responseMethod params callback s =
  match ws_subscribe W ws responseMethod subscribeMethod params callback with
  | Resolves subscriptionId =>
      (Ret (unsubscribe W c id ws responseMethod unsubscribeMethod subscriptionId), asked)
  | Rejects e => (Throw (Thrown e), snd (disconnectChainSocket W c id asked))
  end.
Proof.
  intros Hacq asked. pose proof (connect_returns _ _ _ _ _ _ Hacq) as (_ & _ & Hn & Hu).
  unfold subscribe, bind, try_catch, waitForWs, settle, emit, modify, ret, throw.
  rewrite Hacq. simpl. fold asked.
  destruct (ws_subscribe W ws responseMethod subscribeMethod params callback) as [sub|e];
    simpl; [done|].
  pose proof (disconnect_last W c id asked (users_of c s) Hu Hn) as (Hr & _).
  destruct (disconnectChainSocket W c id asked) as [r s3]. simpl in Hr. by subst r.
Qed.

(** A failed subscribe call releases the handle once and rethrows; a
    successful one releases nothing and returns the unsubscribe closure. *)
Lemma subscribe_releases W c subscribeMethod unsubscribeMethod responseMethod params
  callback s id ws s1 :
  connectChainSocket W c s = (Ret (id, Some ws), s1) ->
  let out :=
    subscribe W c subscribeMethod unsubscribeMethod responseMethod params callback s in
  match ws_subscribe W ws responseMethod subscribeMethod params callback with
  | Rejects e =>
      fst out = Throw (Thrown e) /\
      release_count c id (trace (snd out)) = S (release_count c id (trace s)) /\
      socketUsers (snd out) !! c = Some (users_of c s)
  | Resolves subscriptionId =>
      fst out = Ret (unsubscribe W c id ws responseMethod unsubscribeMethod subscriptionId) /\
      release_count c id (trace (snd out)) = release_count c id (trace s) /\
      socketUsers (snd out) !! c = Some (users_of c s ++ [id])
  end.
Proof.
  intros Hacq. pose proof (connect_returns _ _ _ _ _ _ Hacq) as (_ & Hcnt & Hn & Hu).
  cbv zeta. rewrite (subscribe_run _ _ _ _ _ _ _ _ _ _ _ Hacq). cbv zeta.
  destruct (ws_subscribe W ws responseMethod subscribeMethod params callback) as [sub|e];
    simpl.
  - rewrite release_count_other, Hcnt by done. done.
  - rewrite disconnect_release_count. simpl. rewrite release_count_other, Hcnt by done.
    split; [done|]. split; [done|]. by apply disconnect_last.
Qed.

(** The unsubscribe closure releases the handle once when the transport's
    unsubscribe call resolves.  When that call is rejected the closure
    rethrows without releasing: the state gains the record of the call and
    nothing else. *)
Lemma unsubscribe_run W c id ws responseMethod unsubscribeMethod subscriptionId s :
  let asked :=
    with_trace (cons (EvWsUnsubscribe ws responseMethod unsubscribeMethod subscriptionId)) s in
  unsubscribe W c id ws responseMethod unsubscribeMethod subscriptionId s =
  match ws_unsubscribe W ws responseMethod unsubscribeMethod subscriptionId with
  | Resolves _ => disconnectChainSocket W c id asked
  | Rejects e => (Throw (Thrown e), asked)
  end.
Proof.
  intros asked. unfold unsubscribe, bind, settle, emit, modify, ret, throw. simpl. fold asked.
  destruct (ws_unsubscribe W ws responseMethod unsubscribeMethod subscriptionId); done.
Qed.

(** C2. A subscribe on "polkadot" succeeds and keeps its handle; the
    returned unsubscribe closure is invoked and the transport rejects the
    unsubscribe call.  The closure rethrows, and the handle has not been
    released: no release was recorded, the handle is still in the chain's
    list and the transport is still open. *)
Theorem rejected_unsubscribe_keeps_handle :
  let subscribed :=
    subscribe Scenario.world "polkadot" "chain_subscribeNewHeads"
      "chain_unsubscribeNewHeads" "chain_newHead" [] 0 (initial Scenario.draws) in
  let unsubscribeFn :=
    unsubscribe Scenario.world "polkadot" 50000000 Scenario.ws0 "chain_newHead"
      "chain_unsubscribeNewHeads" "sub-1" in
  fst subscribed = Ret unsubscribeFn /\
  users_of "polkadot" (snd subscribed) = [50000000] /\
  fst (unsubscribeFn (snd subscribed)) = Throw (Thrown "unsubscribe failed") /\
  release_count "polkadot" 50000000 (trace (snd (unsubscribeFn (snd subscribed)))) = O /\
  users_of "polkadot" (snd (unsubscribeFn (snd subscribed))) = [50000000] /\
  live_transports "polkadot" (snd (unsubscribeFn (snd subscribed))) = [Scenario.ws0].
Proof.
  cbv zeta. split; [|vm_compute; repeat split; reflexivity].
  rewrite (subscribe_run Scenario.world "polkadot" _ _ _ _ _ _ 50000000 Scenario.ws0
             Scenario.once) by (vm_compute; reflexivity).
  reflexivity.
Qed.

(** ** EVM endpoint selection *)

Section Evm.
Import EvmUtil.
Variable W : World.

Lemma strict_eq_int_true x n : strict_eq_int x n = true <-> x = Finite n.
Proof.
  destruct x as [|z|b]; simpl; try (split; discriminate).
  rewrite Z.eqb_eq. split; congruence.
Qed.

Lemma isHealthyRpc_true url chainId log :
  fst (isHealthyRpc W url chainId log) = true <->
  exists t rpcChainId,
    rpc W url chainId = Answers t rpcChainId /\
    t < RPC_HEALTHCHECK_TIMEOUT W /\
    parseInt16 rpcChainId = Finite chainId.
Proof.
  unfold isHealthyRpc, probe, race.
  destruct (rpc W url chainId) as [t ans|t e| |e|t e]; simpl.
  - destruct (Z.ltb_spec t (RPC_HEALTHCHECK_TIMEOUT W)); simpl.
    + rewrite strict_eq_int_true. split.
      * intros H'. exists t, ans. done.
      * intros (t' & ans' & [= <- <-] & _ & H'). done.
    + split; [discriminate|]. intros (t' & ans' & [= <- <-] & Hlt & _). lia.
  - split; [destruct (t <? _); discriminate|]. intros (? & ? & [=] & _).
  - split; [discriminate|]. intros (? & ? & [=] & _).
  - split; [discriminate|]. intros (? & ? & [=] & _).
  - split; [destruct (t <? _); discriminate|]. intros (? & ? & [=] & _).
Qed.

Lemma isHealthyRpc_log url chainId log :
  fst (isHealthyRpc W url chainId log) = healthy W url chainId /\
  probed (snd (isHealthyRpc W url chainId log)) = probed log ++ [url].
Proof.
  unfold healthy, isHealthyRpc, probed.
  destruct (probe W url chainId); simpl; done.
Qed.

Lemma getHealthyRpc_first rpcUrls chainId : forall log,
  match fst (getHealthyRpc W rpcUrls chainId log) with
  | Some u =>
      exists before after,
        rpcUrls = before ++ u :: after /\
        Forall (fun x => healthy W x chainId = false) before /\
        healthy W u chainId = true /\
        probed (snd (getHealthyRpc W rpcUrls chainId log)) = probed log ++ before ++ [u]
  | None =>
      Forall (fun x => healthy W x chainId = false) rpcUrls /\
      probed (snd (getHealthyRpc W rpcUrls chainId log)) = probed log ++ rpcUrls
  end.
Proof.
  induction rpcUrls as [|u rest IH]; intros log; simpl.
  - split; [constructor|]. by rewrite app_nil_r.
  - pose proof (isHealthyRpc_log u chainId log) as [Hf Hp].
    destruct (isHealthyRpc W u chainId log) as [[|] log']; simpl in *.
    + exists [], rest. split; [done|]. split; [constructor|]. split; [done|]. exact Hp.
    + specialize (IH log').
      destruct (fst (getHealthyRpc W rest chainId log')) as [v|].
      * destruct IH as (before & after & -> & Hall & Hv & Hpr).
        exists (u :: before), after. split; [done|]. split; [by constructor|].
        split; [done|]. rewrite Hpr, Hp. by rewrite <- app_assoc.
      * destruct IH as [Hall Hpr]. split; [by constructor|].
        rewrite Hpr, Hp. by rewrite <- app_assoc.
Qed.

End Evm.

(** C9. A probe reports healthy exactly when the endpoint answers
    eth_chainId before the timeout with a string that [parseInt(_, 16)]
    reads as the expected chain id; every other course of the probe, a
    rejection or a timeout included, makes it return false.  The selection
    probes the urls in the given order, stops at the first healthy one and
    returns it, and returns null, having probed them all, when none is
    healthy.  With "u1", "u2", "u3" and chain id 5, where only "u2" answers
    0x5 in time, it returns "u2" after probing "u1" and "u2". *)
Theorem getHealthyRpc_first_healthy (W : EvmUtil.World) rpcUrls chainId log :
  (forall url log',
      fst (EvmUtil.isHealthyRpc W url chainId log') = true <->
      exists t rpcChainId,
        EvmUtil.rpc W url chainId = EvmUtil.Answers t rpcChainId /\
        t < EvmUtil.RPC_HEALTHCHECK_TIMEOUT W /\
        parseInt16 rpcChainId = Finite chainId) /\
  (forall url log',
      fst (EvmUtil.isHealthyRpc W url chainId log') = EvmUtil.healthy W url chainId) /\
  match fst (EvmUtil.getHealthyRpc W rpcUrls chainId log) with
  | Some u =>
      exists before after,
        rpcUrls = before ++ u :: after /\
        Forall (fun x => EvmUtil.healthy W x chainId = false) before /\
        EvmUtil.healthy W u chainId = true /\
        EvmUtil.probed (snd (EvmUtil.getHealthyRpc W rpcUrls chainId log))
          = EvmUtil.probed log ++ before ++ [u]
  | None =>
      Forall (fun x => EvmUtil.healthy W x chainId = false) rpcUrls /\
      EvmUtil.probed (snd (EvmUtil.getHealthyRpc W rpcUrls chainId log))
        = EvmUtil.probed log ++ rpcUrls
  end /\
  (EvmUtil.getHealthyRpc Scenario.evm_world ["u1"; "u2"; "u3"]%string 5 []
     = (Some "u2"%string, [EvmUtil.EvProbe "u2" 5; EvmUtil.EvProbe "u1" 5]) /\
   fst (EvmUtil.getHealthyRpc Scenario.evm_world ["u1"; "u3"; "u4"]%string 5 []) = None).
Proof.
  split; [|split; [|split]].
  - intros url log'. apply isHealthyRpc_true.
  - intros url log'. apply isHealthyRpc_log.
  - apply getHealthyRpc_first.
  - split; vm_compute; reflexivity.
Qed.

(** ** Error classification *)

(** C10. For an error object, [isUnhealthyRpcError] returns false exactly
    when its [reason] is the string "processing response error", and true
    for every other object, one without a [reason] included. *)
Theorem isUnhealthyRpcError_allow_list (properties : list (string * value)) :
  (EvmUtil.isUnhealthyRpcError (VObject properties) = Some false <->
     get_property properties "reason" = VString (lit "processing response error")) /\
  (EvmUtil.isUnhealthyRpcError (VObject properties) = Some true <->
     get_property properties "reason" <> VString (lit "processing response error")) /\
  EvmUtil.isUnhealthyRpcError
    (VObject [("reason"%string, VString (lit "processing response error"))]) = Some false /\
  EvmUtil.isUnhealthyRpcError
    (VObject [("code"%string, VString (lit "SERVER_ERROR"));
              ("reason"%string, VString (lit "missing response"))]) = Some true /\
  EvmUtil.isUnhealthyRpcError (VObject []) = Some true.
Proof.
  unfold EvmUtil.isUnhealthyRpcError. simpl get.
  split; [|split; [|split; [|split]]]; try reflexivity.
  - destruct (get_property properties "reason") as [| | | |s|]; simpl;
      try (split; discriminate).
    rewrite orb_false_r. destruct (bool_decide_reflect (lit "processing response error" = s)).
    + subst. done.
    + split; [discriminate|]. intros [= E]. by subst.
  - destruct (get_property properties "reason") as [| | | |s|]; simpl;
      try (split; [discriminate | done]); try done.
    rewrite orb_false_r. destruct (bool_decide_reflect (lit "processing response error" = s)).
    + subst. split; [discriminate | done].
    + split; [|done]. intros _ [= E]. by subst.
Qed.

(** * Further properties of ChainConnector.ts *)

(** ** Further properties of the socket pool *)

(** *** Keepalive timers *)

Lemma keepalive_ready_run W n s :
  step W s (KeepaliveReady n) =
  match awaiting_isReady s !! n with
  | None => s
  | Some (c, _) => resumed c (with_awaiting (fun l => take n l ++ drop (S n) l) s)
  end.
Proof.
  unfold step. unfold_m. unfold resumed, clear_log. simpl.
  destruct (awaiting_isReady s !! n) as [[c ws]|]; simpl; [|done].
  destruct (socketKeepAliveIntervals s !! c); reflexivity.
Qed.

Lemma timers_consistent_initial rs : timers_consistent (initial rs).
Proof.
  unfold timers_consistent. simpl. split; [|split].
  - intros t c. rewrite lookup_empty. split; [tauto | discriminate].
  - constructor.
  - tauto.
Qed.

Lemma timers_consistent_same s s' :
  active_timers (trace s') = active_timers (trace s) ->
  socketKeepAliveIntervals s' = socketKeepAliveIntervals s ->
  next_timer s' = next_timer s ->
  timers_consistent s -> timers_consistent s'.
Proof. unfold timers_consistent. intros -> -> ->. tauto. Qed.

Lemma active_timers_cleared s c :
  timers_consistent s ->
  (forall t' c', In (t', c') (active_timers (clear_log s c ++ trace s))
                 <-> socketKeepAliveIntervals s !! c' = Some t' /\ c' <> c) /\
  NoDup (map fst (active_timers (clear_log s c ++ trace s))) /\
  (forall t' c', In (t', c') (active_timers (clear_log s c ++ trace s)) ->
                 (t' < next_timer s)%nat).
Proof.
  intros (H1 & H2 & H3). unfold clear_log.
  destruct (socketKeepAliveIntervals s !! c) as [t|] eqn:Ht; simpl.
  - split; [|split].
    + intros t' c'. rewrite filter_In. simpl. rewrite negb_true_iff, Nat.eqb_neq, H1.
      split.
      * intros [Hin Hne]. split; [done|]. intros ->. congruence.
      * intros [Hin Hne]. split; [done|]. intros ->.
        apply H1 in Hin, Ht.
        pose proof (NoDup_map_inj_in _ _ (t, c') (t, c) H2 Hin Ht eq_refl). congruence.
    + by apply NoDup_map_filter.
    + intros t' c' Hin. apply filter_In in Hin as [Hin _]. eauto.
  - split; [|split]; [|done|done].
    intros t' c'. rewrite H1. split; [|tauto]. intros Hin. split; [done|]. intros ->.
    congruence.
Qed.

Lemma timers_consistent_resumed c s : timers_consistent s -> timers_consistent (resumed c s).
Proof.
  intros H. pose proof (active_timers_cleared s c H) as (C1 & C2 & C3).
  unfold timers_consistent, resumed. simpl. split; [|split].
  - intros t' c'. rewrite C1. destruct (decide (c = c')) as [<-|Hne].
    + rewrite lookup_insert_eq. split.
      * intros [[= <-]|[_ Hc]]; done.
      * intros [= <-]. by left.
    + rewrite lookup_insert_ne by done. split.
      * intros [[= ? ?]|[Hin _]]; done.
      * intros Hin. right. split; [done|]. congruence.
  - apply NoDup_cons. split; [|done].
    rewrite list_elem_of_In, in_map_iff. intros ([t' c'] & E & Hin). simpl in E. subst.
    apply C3 in Hin. lia.
  - intros t' c' [[= <- <-]|Hin]; [lia|]. apply C3 in Hin. lia.
Qed.

Lemma timers_consistent_closed W c ws s :
  timers_consistent s -> timers_consistent (closed W c ws s).
Proof.
  intros H. pose proof (active_timers_cleared s c H) as (C1 & C2 & C3).
  assert (Ha : active_timers (trace (closed W c ws s)) = active_timers (clear_log s c ++ trace s)).
  { unfold closed, clear_log, disconnect_log. simpl.
    destruct (socketKeepAliveIntervals s !! c), (ws_disconnect W ws); reflexivity. }
  unfold timers_consistent. rewrite Ha. split; [|split]; [|done|exact C3].
  intros t' c'. rewrite C1. simpl. destruct (decide (c = c')) as [<-|Hne].
  - rewrite lookup_delete_eq. split; [tauto | discriminate].
  - rewrite lookup_delete_ne by done. split; [tauto|]. intros ?. split; [done|congruence].
Qed.

Lemma timers_consistent_step W op s : timers_consistent s -> timers_consistent (step W s op).
Proof.
  intros H. destruct op as [c|c id|n|c b].
  - unfold step. simpl. unfold bind.
    assert (H' : timers_consistent (snd (connectChainSocket W c s))).
    { rewrite connectChainSocket_run. destruct (getChain W c) as [chain|]; [|done].
      destruct (getExclusiveRandomId _ _) as [[id|] rs]; simpl.
      2: { by eapply timers_consistent_same; [..|exact H]. }
      destruct (socketConnections s !! c); simpl.
      { by eapply timers_consistent_same; [..|exact H]. }
      destruct (sorted_rpcs chain); simpl.
      { by eapply timers_consistent_same; [..|exact H]. }
      destruct (WsProvider_new W _ _); simpl; by eapply timers_consistent_same; [..|exact H]. }
    destruct (connectChainSocket W c s) as [[[id ws]| |] s']; exact H'.
  - unfold step. simpl. rewrite disconnectChainSocket_run.
    destruct (socketUsers s !! c) as [users|]; simpl.
    2: { by eapply timers_consistent_same; [..|exact H]. }
    destruct (indexOf users id) as [i|]; simpl.
    2: { by eapply timers_consistent_same; [..|exact H]. }
    assert (Hj : timers_consistent (without_user c i (released c id s)))
      by (by eapply timers_consistent_same; [..|exact H]).
    destruct (Nat.ltb 0 _); simpl; [done|].
    destruct (socketConnections s !! c) as [ws|]; simpl.
    + by apply timers_consistent_closed.
    + by eapply timers_consistent_same; [..|exact Hj].
  - rewrite keepalive_ready_run. destruct (awaiting_isReady s !! n) as [[c ws]|]; [|done].
    apply timers_consistent_resumed. by eapply timers_consistent_same; [..|exact H].
  - unfold step. unfold_m. simpl. destruct (socketConnections s !! c) as [ws|]; simpl.
    + destruct b; simpl; [|by eapply timers_consistent_same; [..|exact H]].
      destruct (ws_send W ws _ _ _); simpl; by eapply timers_consistent_same; [..|exact H].
    + by eapply timers_consistent_same; [..|exact H].
Qed.

Lemma timers_consistent_run h s : timers_consistent s -> timers_consistent (run_history h s).
Proof.
  revert s. induction h as [|[W op] h IH]; intros s H; simpl; [done|].
  apply IH. by apply timers_consistent_step.
Qed.

(** X1. Whatever segments are interleaved, the interval timers running for
    a chain (set and not cleared) are exactly the one registered in
    [#socketKeepAliveIntervals], so there is never more than one: a
    keepalive set-up that resumes clears the timer it replaces, and a
    teardown clears the registered one. *)
Theorem one_running_timer_per_chain rs h c :
  let s := run_history h (initial rs) in
  chain_timers c s =
    match socketKeepAliveIntervals s !! c with Some t => [t] | None => [] end /\
  (length (chain_timers c s) <= 1)%nat.
Proof.
  intros s.
  assert (H : timers_consistent s) by (apply timers_consistent_run, timers_consistent_initial).
  destruct H as (H1 & H2 & _).
  assert (Hnd : NoDup (active_timers (trace s))) by (eapply NoDup_fmap_1; exact H2).
  assert (Hf : NoDup (List.filter (fun p => String.eqb (snd p) c) (active_timers (trace s)))).
  { apply NoDup_ListNoDup. apply List.NoDup_filter. by apply NoDup_ListNoDup. }
  assert (Hall : forall p, In p (List.filter (fun p => String.eqb (snd p) c)
                                   (active_timers (trace s))) ->
                           socketKeepAliveIntervals s !! c = Some (fst p) /\ snd p = c).
  { intros [t c'] Hp. apply filter_In in Hp as [Hp E]. simpl in *.
    apply String.eqb_eq in E. subst. by apply H1 in Hp. }
  assert (Heq : chain_timers c s =
                match socketKeepAliveIntervals s !! c with Some t => [t] | None => [] end).
  { unfold chain_timers. destruct (socketKeepAliveIntervals s !! c) as [t|] eqn:Ht.
    - assert (Hin : In (t, c) (List.filter (fun p => String.eqb (snd p) c)
                                 (active_timers (trace s)))).
      { apply filter_In. split; [by apply H1|]. simpl. apply String.eqb_refl. }
      destruct (List.filter _ _) as [|p [|q l]]; [done| |].
      + destruct Hin as [->|[]]. done.
      + exfalso. apply NoDup_cons in Hf as [Hp _]. apply Hp.
        destruct p as [tp cp], q as [tq cq].
        pose proof (Hall (tp, cp) (or_introl eq_refl)) as [Ep Ecp].
        pose proof (Hall (tq, cq) (or_intror (or_introl eq_refl))) as [Eq Ecq].
        simpl in *. apply list_elem_of_In. left. congruence.
    - destruct (List.filter _ _) as [|p l]; [done|].
      destruct (Hall p (or_introl eq_refl)) as [[=] _]. }
  split; [exact Heq|]. rewrite Heq. destruct (socketKeepAliveIntervals s !! c); simpl; lia.
Qed.

(** *** Transports and their borrowers *)

Lemma app_singleton_not_nil {A} (l : list A) x : l ++ [x] <> [].
Proof. destruct l; discriminate. Qed.

Lemma borrowed_joined c id rs s : borrowed s -> borrowed (joined c id rs s).
Proof.
  intros H c' ws Hc. rewrite joined_users. destruct (decide (c = c')) as [<-|].
  - apply app_singleton_not_nil.
  - by eapply H.
Qed.

Lemma borrowed_connect W c s : borrowed s -> borrowed (snd (connectChainSocket W c s)).
Proof.
  intros H. rewrite connectChainSocket_run. destruct (getChain W c) as [chain|]; [|done].
  destruct (getExclusiveRandomId _ _) as [[id|] rs]; simpl.
  2: { intros c' ws Hc. unfold users_of. simpl. rewrite users_of_insert.
       destruct (decide (c = c')) as [<-|]; by eapply H. }
  pose proof (borrowed_joined c id rs s H) as Hj.
  destruct (socketConnections s !! c) eqn:Hc; simpl; [done|].
  destruct (sorted_rpcs chain); simpl; [exact Hj|].
  destruct (WsProvider_new W _ _); simpl; [exact Hj|].
  intros c' ws. unfold opened. simpl.
  change (users_of c' _) with (users_of c' (joined c id rs s)).
  destruct (decide (c = c')) as [<-|Hne].
  - intros _. rewrite joined_users. destruct (decide (c = c)); [|done].
    apply app_singleton_not_nil.
  - rewrite lookup_insert_ne by done. apply Hj.
Qed.

Lemma borrowed_disconnect W c id s :
  borrowed s -> borrowed (snd (disconnectChainSocket W c id s)).
Proof.
  intros H. rewrite disconnectChainSocket_run.
  destruct (socketUsers s !! c) as [users|] eqn:Hu; simpl; [|exact H].
  destruct (indexOf users id) as [i|]; simpl; [|exact H].
  assert (Hw : forall c', users_of c' (without_user c i (released c id s))
                          = if decide (c = c') then splice1 users i else users_of c' s).
  { intros c'. unfold without_user, users_of. simpl. rewrite users_of_insert, Hu. done. }
  destruct (Nat.ltb 0 (length (splice1 users i))) eqn:Hlen; simpl.
  - apply length_pos_not_nil in Hlen. intros c' ws Hc. rewrite Hw.
    destruct (decide (c = c')); [done | by eapply H].
  - destruct (socketConnections s !! c) as [ws|] eqn:Hc; simpl.
    + intros c' ws'. unfold closed. simpl.
      change (users_of c' _) with (users_of c' (without_user c i (released c id s))).
      destruct (decide (c = c')) as [<-|Hne].
      * by rewrite lookup_delete_eq.
      * rewrite lookup_delete_ne by done. rewrite Hw.
        destruct (decide (c = c')); [done|]. apply H.
    + intros c' ws' Hc'. simpl in Hc'.
      change (users_of c' _) with (users_of c' (without_user c i (released c id s))).
      rewrite Hw. destruct (decide (c = c')) as [<-|]; [congruence | by eapply H].
Qed.

Lemma borrowed_step W op s : borrowed s -> borrowed (step W s op).
Proof.
  intros H. destruct op as [c|c id|n|c b].
  - unfold step. simpl. unfold bind. pose proof (borrowed_connect W c s H) as H'.
    destruct (connectChainSocket W c s) as [[[id ws]| |] s']; exact H'.
  - by apply borrowed_disconnect.
  - rewrite keepalive_ready_run. destruct (awaiting_isReady s !! n) as [[c ws]|]; [|done].
    exact H.
  - unfold step. unfold_m. simpl. destruct (socketConnections s !! c) as [ws|]; simpl.
    + destruct b; simpl; [|exact H]. destruct (ws_send W ws _ _ _); exact H.
    + exact H.
Qed.

Lemma borrowed_run h : forall s, borrowed s -> borrowed (run_history h s).
Proof.
  induction h as [|[W op] h IH]; intros s H; simpl; [done|].
  apply IH. by apply borrowed_step.
Qed.

Lemma borrowed_initial rs : borrowed (initial rs).
Proof. intros c ws. simpl. by rewrite lookup_empty. Qed.

(** X2. Whatever segments are interleaved, a chain for which a transport
    is stored has at least one handle in its list: the pool never keeps a
    transport for a chain whose handle list is empty.  (A handle that a
    throwing acquire left behind counts like any other.) *)
Theorem stored_transport_has_borrower rs h c :
  let s := run_history h (initial rs) in
  socketConnections s !! c <> None -> users_of c s <> [].
Proof.
  intros s Hc.
  assert (H : borrowed s) by apply borrowed_run, borrowed_initial.
  destruct (socketConnections s !! c) as [ws|] eqn:E; [|done]. by eapply H.
Qed.

Lemma stored_transport_has_borrower_witness :
  users_of "polkadot"
    (run_history [(Scenario.world, Acquire "polkadot");
                  (Scenario.world, Acquire "polkadot");
                  (Scenario.world, Release "polkadot" 50000000)]
       (initial Scenario.draws)) <> [].
Proof.
  apply (stored_transport_has_borrower Scenario.draws
           [(Scenario.world, Acquire "polkadot");
            (Scenario.world, Acquire "polkadot");
            (Scenario.world, Release "polkadot" 50000000)] "polkadot").
  vm_compute. discriminate.
Defined.

(** *** A keepalive set-up that resumes after the teardown *)

(** X3. When the last handle of a chain is released while the keepalive
    set-up of its transport is still waiting for [isReady], and the set-up
    resumes afterwards, it installs an interval timer although no transport
    is stored for the chain any more; the timer keeps running, and a firing
    of it only logs that the ws is not defined. *)
Theorem late_keepalive_leaves_timer (W : World) c id ws w n s :
  socketConnections s !! c = Some ws ->
  socketUsers s !! c = Some [id] ->
  awaiting_isReady s !! n = Some (c, w) ->
  let s1 := step W s (Release c id) in
  let s2 := step W s1 (KeepaliveReady n) in
  let s3 := step W s2 (KeepaliveTick c true) in
  socketConnections s1 !! c = None /\
  socketKeepAliveIntervals s1 !! c = None /\
  socketConnections s2 !! c = None /\
  socketKeepAliveIntervals s2 !! c = Some (next_timer s) /\
  In (next_timer s, c) (active_timers (trace s2)) /\
  trace s3 = EvLogWarn "skipping rpc ws healthcheck: ws is not defined" :: trace s2 /\
  socketKeepAliveIntervals s3 !! c = Some (next_timer s).
Proof.
  intros Hc Hu Hn. cbv zeta.
  assert (E1 : step W s (Release c id) = closed W c ws (without_user c 0 (released c id s))).
  { unfold step. simpl. rewrite disconnectChainSocket_run, Hu. simpl.
    rewrite Z.eqb_refl. simpl. by rewrite Hc. }
  rewrite E1. set (s1 := closed W c ws _).
  assert (Hc1 : socketConnections s1 !! c = None) by (unfold s1, closed; simpl; apply lookup_delete_eq).
  assert (Hk1 : socketKeepAliveIntervals s1 !! c = None)
    by (unfold s1, closed; simpl; apply lookup_delete_eq).
  assert (Hn1 : awaiting_isReady s1 !! n = Some (c, w)) by exact Hn.
  assert (Ht1 : next_timer s1 = next_timer s) by reflexivity.
  rewrite keepalive_ready_run, Hn1.
  set (s2 := resumed c _).
  assert (Hc2 : socketConnections s2 !! c = None) by exact Hc1.
  assert (Hk2 : socketKeepAliveIntervals s2 !! c = Some (next_timer s)).
  { unfold s2, resumed. simpl. by rewrite lookup_insert_eq. }
  split; [done|]. split; [done|]. split; [done|]. split; [done|]. split.
  - unfold s2, resumed. simpl. by left.
  - unfold step. unfold_m. simpl. rewrite lookup_delete_eq. simpl.
    split; [reflexivity|]. exact Hk2.
Qed.

Lemma late_keepalive_leaves_timer_witness :
  let s := Scenario.once in
  let s1 := step Scenario.world s (Release "polkadot" 50000000) in
  let s2 := step Scenario.world s1 (KeepaliveReady 0) in
  let s3 := step Scenario.world s2 (KeepaliveTick "polkadot" true) in
  socketConnections s1 !! "polkadot" = None /\
  socketKeepAliveIntervals s1 !! "polkadot" = None /\
  socketConnections s2 !! "polkadot" = None /\
  socketKeepAliveIntervals s2 !! "polkadot" = Some (next_timer s) /\
  In (next_timer s, "polkadot"%string) (active_timers (trace s2)) /\
  trace s3 = EvLogWarn "skipping rpc ws healthcheck: ws is not defined" :: trace s2 /\
  socketKeepAliveIntervals s3 !! "polkadot" = Some (next_timer s).
Proof.
  apply (late_keepalive_leaves_timer Scenario.world "polkadot" 50000000 Scenario.ws0
           Scenario.ws0 0 Scenario.once); vm_compute; reflexivity.
Defined.

(** *** Chains do not interfere *)

(** X4. An acquire or a release on one chain leaves the connection, the
    keepalive timer and the handle list of every other chain as they
    were, whatever its outcome. *)
Theorem other_chains_untouched (W : World) c c' id s :
  c <> c' ->
  let acquired := snd (connectChainSocket W c s) in
  let after_release := snd (disconnectChainSocket W c id s) in
  (socketConnections acquired !! c' = socketConnections s !! c' /\
   socketKeepAliveIntervals acquired !! c' = socketKeepAliveIntervals s !! c' /\
   socketUsers acquired !! c' = socketUsers s !! c') /\
  (socketConnections after_release !! c' = socketConnections s !! c' /\
   socketKeepAliveIntervals after_release !! c' = socketKeepAliveIntervals s !! c' /\
   socketUsers after_release !! c' = socketUsers s !! c').
Proof.
  intros Hne. cbv zeta. split.
  - rewrite connectChainSocket_run. destruct (getChain W c) as [chain|]; [|done].
    destruct (getExclusiveRandomId _ _) as [[id'|] rs]; simpl.
    2: { by rewrite lookup_insert_ne. }
    destruct (socketConnections s !! c); simpl.
    { by rewrite lookup_insert_ne. }
    destruct (sorted_rpcs chain); simpl.
    { by rewrite lookup_insert_ne. }
    destruct (WsProvider_new W _ _); simpl; by rewrite !lookup_insert_ne.
  - rewrite disconnectChainSocket_run.
    destruct (socketUsers s !! c) as [users|]; simpl; [|done].
    destruct (indexOf users id) as [i|]; simpl; [|done].
    destruct (Nat.ltb 0 _); simpl.
    { by rewrite lookup_insert_ne. }
    destruct (socketConnections s !! c); simpl.
    + by rewrite !lookup_delete_ne, lookup_insert_ne.
    + by rewrite lookup_insert_ne.
Qed.

Lemma other_chains_untouched_witness :
  let acquired := snd (connectChainSocket Scenario.world "kusama" Scenario.once) in
  let after_release := snd (disconnectChainSocket Scenario.world "kusama" 1 Scenario.once) in
  (socketConnections acquired !! "polkadot" = socketConnections Scenario.once !! "polkadot" /\
   socketKeepAliveIntervals acquired !! "polkadot"
     = socketKeepAliveIntervals Scenario.once !! "polkadot" /\
   socketUsers acquired !! "polkadot" = socketUsers Scenario.once !! "polkadot") /\
  (socketConnections after_release !! "polkadot"
     = socketConnections Scenario.once !! "polkadot" /\
   socketKeepAliveIntervals after_release !! "polkadot"
     = socketKeepAliveIntervals Scenario.once !! "polkadot" /\
   socketUsers after_release !! "polkadot" = socketUsers Scenario.once !! "polkadot").
Proof.
  apply (other_chains_untouched Scenario.world "kusama" "polkadot" 1 Scenario.once).
  discriminate.
Defined.

(** *** While a handle is held *)

Lemma splice1_keeps l (x y : Z) i :
  In x l -> x <> y -> indexOf l y = Some i -> In x (splice1 l i).
Proof.
  revert i. induction l as [|z l IH]; simpl; [done|]. intros i Hin Hne.
  destruct (Z.eqb_spec z y) as [->|Hzy].
  - intros [= <-]. simpl. destruct Hin as [E|Hin]; [congruence | done].
  - destruct (indexOf l y) as [j|] eqn:E; simpl; [|discriminate].
    intros [= <-]. simpl. destruct Hin as [->|Hin]; [by left | right; by eapply IH].
Qed.

Lemma users_of_some c s x : In x (users_of c s) -> socketUsers s !! c = Some (users_of c s).
Proof. unfold users_of. destruct (socketUsers s !! c); simpl; [done | tauto]. Qed.

(** While a handle is held, the transport stays. *)
Lemma held_connect W c' c id ws s :
  In id (users_of c s) -> socketConnections s !! c = Some ws ->
  In id (users_of c (snd (connectChainSocket W c' s))) /\
  socketConnections (snd (connectChainSocket W c' s)) !! c = Some ws.
Proof.
  intros Hin Hc. rewrite connectChainSocket_run.
  destruct (getChain W c') as [chain|]; [|done].
  destruct (getExclusiveRandomId _ _) as [[id'|] rs]; simpl.
  { assert (Hj : In id (users_of c (joined c' id' rs s)) /\
                 socketConnections (joined c' id' rs s) !! c = Some ws).
    { rewrite joined_users. split; [|done].
      destruct (decide (c' = c)) as [->|]; [apply in_app_iff; by left | done]. }
    destruct (decide (c' = c)) as [->|Hne]; [by rewrite Hc|].
    destruct (socketConnections s !! c'); [exact Hj|].
    destruct (sorted_rpcs chain); [exact Hj|].
    destruct (WsProvider_new W _ _); [exact Hj|].
    unfold opened. simpl.
    change (users_of c _) with (users_of c (joined c' id' rs s)).
    rewrite lookup_insert_ne by done. exact Hj. }
  split; [|done]. unfold users_of. simpl. rewrite users_of_insert.
  by destruct (decide (c' = c)) as [->|].
Qed.

Lemma held_disconnect W c' id' c id ws s :
  Release c' id' <> Release c id ->
  In id (users_of c s) -> socketConnections s !! c = Some ws ->
  In id (users_of c (snd (disconnectChainSocket W c' id' s))) /\
  socketConnections (snd (disconnectChainSocket W c' id' s)) !! c = Some ws.
Proof.
  intros Hop Hin Hc. rewrite disconnectChainSocket_run.
  destruct (socketUsers s !! c') as [users|] eqn:Hu; simpl; [|done].
  destruct (indexOf users id') as [i|] eqn:Hi; simpl; [|done].
  assert (Hw : forall x, users_of x (without_user c' i (released c' id' s))
                         = if decide (c' = x) then splice1 users i else users_of x s).
  { intros x. unfold without_user, users_of. simpl. rewrite users_of_insert, Hu. done. }
  destruct (decide (c' = c)) as [->|Hne].
  - assert (Hid : id <> id') by congruence.
    assert (Hus : users = users_of c s) by (unfold users_of; by rewrite Hu).
    assert (Hk : In id (splice1 users i)) by (subst users; by eapply splice1_keeps).
    assert (Hlen : Nat.ltb 0 (length (splice1 users i)) = true)
      by (destruct (splice1 users i); [done | reflexivity]).
    rewrite Hlen. simpl. rewrite Hw. by destruct (decide (c = c)).
  - destruct (Nat.ltb 0 _); simpl.
    { rewrite Hw. by destruct (decide (c' = c)). }
    destruct (socketConnections s !! c') as [w|]; simpl.
    + unfold closed. simpl.
      change (users_of c _) with (users_of c (without_user c' i (released c' id' s))).
      rewrite Hw, lookup_delete_ne by done. by destruct (decide (c' = c)).
    + change (users_of c _) with (users_of c (without_user c' i (released c' id' s))).
      rewrite Hw. by destruct (decide (c' = c)).
Qed.

Lemma held_step W op c id ws s :
  op <> Release c id ->
  In id (users_of c s) -> socketConnections s !! c = Some ws ->
  In id (users_of c (step W s op)) /\ socketConnections (step W s op) !! c = Some ws.
Proof.
  intros Hop Hin Hc. destruct op as [c'|c' id'|n|c' b].
  - unfold step. simpl. unfold bind. pose proof (held_connect W c' c id ws s Hin Hc) as H.
    destruct (connectChainSocket W c' s) as [[[id' w]| |] s']; exact H.
  - by apply held_disconnect.
  - rewrite keepalive_ready_run. destruct (awaiting_isReady s !! n) as [[c' w]|]; done.
  - unfold step. unfold_m. simpl. destruct (socketConnections s !! c') as [w|]; simpl; [|done].
    destruct b; simpl; [|done]. destruct (ws_send W w _ _ _); done.
Qed.

Lemma held_run h : forall c id ws s,
  keeps c id h ->
  In id (users_of c s) -> socketConnections s !! c = Some ws ->
  In id (users_of c (run_history h s)) /\ socketConnections (run_history h s) !! c = Some ws.
Proof.
  induction h as [|[W op] h IH]; intros c id ws s Hk Hin Hc; simpl; [done|].
  apply Forall_cons in Hk as [Hop Hk]. simpl in Hop.
  destruct (held_step W op c id ws s Hop Hin Hc) as [Hin' Hc']. by apply IH.
Qed.

Lemma release_count_app c id l tr :
  release_count c id (l ++ tr) = (release_count c id l + release_count c id tr)%nat.
Proof. unfold release_count. by rewrite List.filter_app, length_app. Qed.

Lemma release_count_logs W c id ws s c' :
  release_count c id (clear_log s c' ++ disconnect_log W ws) = O.
Proof.
  unfold clear_log, disconnect_log.
  destruct (socketKeepAliveIntervals s !! c'), (ws_disconnect W ws); reflexivity.
Qed.

Lemma release_count_connect W c' c id s :
  release_count c id (trace (snd (connectChainSocket W c' s))) = release_count c id (trace s).
Proof.
  rewrite connectChainSocket_run. destruct (getChain W c') as [chain|]; [|done].
  destruct (getExclusiveRandomId _ _) as [[id'|] rs]; simpl; [|done].
  destruct (socketConnections s !! c'); simpl; [done|].
  destruct (sorted_rpcs chain); simpl; [done|].
  destruct (WsProvider_new W _ _); simpl; done.
Qed.

Lemma release_count_step W op c id s :
  op <> Release c id ->
  release_count c id (trace (step W s op)) = release_count c id (trace s).
Proof.
  intros Hop. destruct op as [c'|c' id'|n|c' b].
  - unfold step. simpl. unfold bind. pose proof (release_count_connect W c' c id s) as H.
    destruct (connectChainSocket W c' s) as [[[id' w]| |] s']; exact H.
  - unfold step. simpl. rewrite disconnectChainSocket_run.
    assert (Hhd : (String.eqb c' c && Z.eqb id' id) = false).
    { destruct (String.eqb_spec c' c) as [->|]; [|done].
      destruct (Z.eqb_spec id' id) as [->|]; [|done]. done. }
    assert (Hrel : forall tr, release_count c id (EvRelease c' id' :: tr) = release_count c id tr).
    { intros tr. unfold release_count. simpl. by rewrite Hhd. }
    destruct (socketUsers s !! c') as [users|]; simpl; [|apply Hrel].
    destruct (indexOf users id') as [i|]; simpl; [|apply Hrel].
    destruct (Nat.ltb 0 _); simpl; [apply Hrel|].
    destruct (socketConnections s !! c') as [w|]; simpl.
    + rewrite release_count_app, release_count_logs. apply Hrel.
    + rewrite release_count_other by done. apply Hrel.
  - rewrite keepalive_ready_run. destruct (awaiting_isReady s !! n) as [[c' w]|]; [|done].
    unfold resumed, clear_log. simpl.
    destruct (socketKeepAliveIntervals s !! c'); simpl;
      rewrite ?release_count_other by done; done.
  - unfold step. unfold_m. simpl. destruct (socketConnections s !! c') as [w|]; simpl.
    + destruct b; simpl.
      * destruct (ws_send W w _ _ _); simpl; rewrite ?release_count_other by done; done.
      * by rewrite release_count_other.
    + by rewrite release_count_other.
Qed.

Lemma release_count_run h : forall c id s,
  keeps c id h ->
  release_count c id (trace (run_history h s)) = release_count c id (trace s).
Proof.
  induction h as [|[W op] h IH]; intros c id s Hk; simpl; [done|].
  apply Forall_cons in Hk as [Hop Hk]. simpl in Hop.
  rewrite IH by done. by apply release_count_step.
Qed.

Lemma NoDup_run h : forall c s,
  NoDup (users_of c s) -> NoDup (users_of c (run_history h s)).
Proof.
  induction h as [|[W op] h IH]; intros c s H; simpl; [done|].
  apply IH. eapply users_step_NoDup; [apply step_users_step | exact H].
Qed.

(** A release of a handle that is held, in full. *)
Lemma disconnect_held W c id ws s :
  In id (users_of c s) -> socketConnections s !! c = Some ws ->
  exists i,
    indexOf (users_of c s) id = Some i /\
    disconnectChainSocket W c id s = (Ret tt, let_go W c id i ws s).
Proof.
  intros Hin Hc. destruct (indexOf_In _ _ Hin) as [i Hi]. exists i. split; [done|].
  rewrite disconnectChainSocket_run, (users_of_some _ _ _ Hin), Hi, Hc. cbv zeta.
  unfold let_go. change (users_of c (released c id s)) with (users_of c s).
  by destruct (splice1 (users_of c s) i).
Qed.

Lemma let_go_users W c id i ws s :
  users_of c (let_go W c id i ws s) = splice1 (users_of c s) i.
Proof.
  assert (H : users_of c (without_user c i (released c id s)) = splice1 (users_of c s) i).
  { unfold without_user, users_of at 1. simpl. by rewrite lookup_insert_eq. }
  unfold let_go. destruct (splice1 (users_of c s) i) eqn:E; [|by rewrite H].
  change (users_of c (closed _ _ _ _)) with (users_of c (without_user c i (released c id s))).
  by rewrite H.
Qed.

(** A handle that is not in the list stays out while nobody acquires on the
    chain, and the chain keeps its list. *)
Lemma absent_step W op c id s :
  op <> Acquire c ->
  ~ In id (users_of c s) -> is_Some (socketUsers s !! c) ->
  ~ In id (users_of c (step W s op)) /\ is_Some (socketUsers (step W s op) !! c).
Proof.
  intros Hop Hn Hs. destruct op as [c'|c' id'|n|c' b].
  - assert (Hne : c' <> c) by congruence.
    unfold step. simpl. unfold bind.
    assert (H : ~ In id (users_of c (snd (connectChainSocket W c' s))) /\
                is_Some (socketUsers (snd (connectChainSocket W c' s)) !! c)).
    { rewrite connectChainSocket_run. destruct (getChain W c') as [chain|]; [|done].
      destruct (getExclusiveRandomId _ _) as [[id'|] rs]; simpl.
      2: { unfold users_of. simpl. rewrite users_of_insert, lookup_insert_ne by done.
           by destruct (decide (c' = c)). }
      assert (Hj : ~ In id (users_of c (joined c' id' rs s)) /\
                   is_Some (socketUsers (joined c' id' rs s) !! c)).
      { rewrite joined_users. unfold joined. simpl. rewrite lookup_insert_ne by done.
        by destruct (decide (c' = c)). }
      destruct (socketConnections s !! c'); [exact Hj|].
      destruct (sorted_rpcs chain); [exact Hj|].
      destruct (WsProvider_new W _ _); exact Hj. }
    destruct (connectChainSocket W c' s) as [[[id' w]| |] s']; exact H.
  - unfold step. simpl. rewrite disconnectChainSocket_run.
    destruct (socketUsers s !! c') as [users|] eqn:Hu; simpl; [|done].
    destruct (indexOf users id') as [i|] eqn:Hi; simpl; [|done].
    assert (Hw : ~ In id (users_of c (without_user c' i (released c' id' s))) /\
                 is_Some (socketUsers (without_user c' i (released c' id' s)) !! c)).
    { unfold without_user, users_of. simpl. rewrite users_of_insert, Hu. simpl.
      destruct (decide (c' = c)) as [->|Hne].
      - rewrite lookup_insert_eq. split; [|done]. intros H. apply splice1_In in H.
        apply Hn. unfold users_of. by rewrite Hu.
      - by rewrite lookup_insert_ne. }
    destruct (Nat.ltb 0 _); simpl; [exact Hw|].
    destruct (socketConnections s !! c'); exact Hw.
  - rewrite keepalive_ready_run. destruct (awaiting_isReady s !! n) as [[c' w]|]; done.
  - unfold step. unfold_m. simpl. destruct (socketConnections s !! c') as [w|]; simpl; [|done].
    destruct b; simpl; [|done]. destruct (ws_send W w _ _ _); done.
Qed.

Lemma absent_run h : forall c id s,
  no_acquire c h ->
  ~ In id (users_of c s) -> is_Some (socketUsers s !! c) ->
  ~ In id (users_of c (run_history h s)) /\ is_Some (socketUsers (run_history h s) !! c).
Proof.
  induction h as [|[W op] h IH]; intros c id s Hk Hn Hs; simpl; [done|].
  apply Forall_cons in Hk as [Hop Hk]. simpl in Hop.
  destruct (absent_step W op c id s Hop Hn Hs) as [Hn' Hs']. by apply IH.
Qed.

(** A release of a handle that is not in the list, in full. *)
Lemma disconnect_absent W c id s :
  ~ In id (users_of c s) -> is_Some (socketUsers s !! c) ->
  disconnectChainSocket W c id s
  = (Throw (Error_cant_remove_user c id (users_of c s)), released c id s).
Proof.
  intros Hn [users Hu]. rewrite disconnectChainSocket_run, Hu.
  assert (E : users_of c s = users) by (unfold users_of; by rewrite Hu).
  rewrite E in *. apply indexOf_None in Hn. by rewrite Hn.
Qed.

Lemma let_go_facts W c id i ws s :
  users_of c (let_go W c id i ws s) = splice1 (users_of c s) i /\
  (socketConnections s !! c = Some ws ->
   (socketConnections (let_go W c id i ws s) !! c = None <-> splice1 (users_of c s) i = [])) /\
  trace (let_go W c id i ws s) =
    match splice1 (users_of c s) i with
    | [] => clear_log s c ++ disconnect_log W ws ++ EvRelease c id :: trace s
    | _ :: _ => EvRelease c id :: trace s
    end.
Proof.
  split; [apply let_go_users|]. unfold let_go.
  destruct (splice1 (users_of c s) i) eqn:E.
  - split.
    + intros _. unfold closed. simpl. by rewrite lookup_delete_eq.
    + unfold closed. simpl. by rewrite <- app_assoc.
  - split; [|done]. intros Hc. simpl. rewrite Hc. split; discriminate.
Qed.

(** X17. While a handle is held the pool does not take its transport
    away: from a state where the open transports are the stored ones, where
    [id] is a handle of the chain and [ws] its stored transport, whatever
    segments of other tasks run (acquires and releases on any chain,
    keepalive resumptions and firings, in any world), as long as none of
    them releases [id] itself, [id] is still in the chain's list, [ws] is
    still the stored transport and the one open transport of the chain, and
    no release of [id] has been recorded. *)
Theorem held_handle_keeps_transport c id ws h s :
  consistent s ->
  In id (users_of c s) -> socketConnections s !! c = Some ws ->
  keeps c id h ->
  let s' := run_history h s in
  In id (users_of c s') /\ socketConnections s' !! c = Some ws /\
  live_transports c s' = [ws] /\
  release_count c id (trace s') = release_count c id (trace s).
Proof.
  intros Hcons Hin Hc Hk. cbv zeta.
  destruct (held_run h c id ws s Hk Hin Hc) as [Hin' Hc'].
  split; [done|]. split; [done|]. split.
  - rewrite live_transports_stored by (by apply consistent_run). by rewrite Hc'.
  - by apply release_count_run.
Qed.

Lemma held_handle_keeps_transport_witness :
  let h := [(Scenario.world, Acquire "polkadot");
            (Scenario.world, KeepaliveReady 0);
            (Scenario.world, Release "polkadot" 25000000);
            (Scenario.world, KeepaliveTick "polkadot" true);
            (Scenario.world, Acquire "kusama")] in
  let s' := run_history h Scenario.once in
  In 50000000 (users_of "polkadot" s') /\
  socketConnections s' !! "polkadot" = Some Scenario.ws0 /\
  live_transports "polkadot" s' = [Scenario.ws0] /\
  release_count "polkadot" 50000000 (trace s')
    = release_count "polkadot" 50000000 (trace Scenario.once).
Proof.
  apply (held_handle_keeps_transport "polkadot" 50000000 Scenario.ws0
           [(Scenario.world, Acquire "polkadot");
            (Scenario.world, KeepaliveReady 0);
            (Scenario.world, Release "polkadot" 25000000);
            (Scenario.world, KeepaliveTick "polkadot" true);
            (Scenario.world, Acquire "kusama")] Scenario.once).
  - apply consistent_connect, consistent_initial.
  - by left.
  - vm_compute. reflexivity.
  - repeat (apply Forall_cons; split; [discriminate|]). by apply Forall_nil.
Defined.

(** *** One-shot requests and subscriptions *)

Lemma connect_returns_stored W c s id ws s1 :
  connectChainSocket W c s = (Ret (id, Some ws), s1) ->
  socketConnections s1 !! c = Some ws /\
  (socketConnections s !! c = Some ws \/
   socketConnections s !! c = None /\ In (EvNew c ws) (trace s1)).
Proof.
  rewrite connectChainSocket_run. intros H.
  destruct (getChain W c) as [chain|]; [|discriminate].
  destruct (getExclusiveRandomId _ _) as [[id'|] rs]; [|discriminate].
  destruct (socketConnections s !! c) as [w|] eqn:Hc.
  { injection H as <- <- <-. split; [exact Hc | by left]. }
  destruct (sorted_rpcs chain); [discriminate|].
  destruct (WsProvider_new W _ _); [discriminate|].
  injection H as <- <- <-. split.
  - unfold opened. simpl. by rewrite lookup_insert_eq.
  - right. split; [done|]. simpl. by left.
Qed.

(** The runs without interruption are the runs under empty schedules. *)
Lemma send_during_nil W c method params isCacheable s :
  send_during W c method params isCacheable [] [] [] s = send W c method params isCacheable s.
Proof.
  unfold send_during, send, waitForWs_during, waitForWs, suspended, bind, modify.
  destruct (connectChainSocket W c s) as [[[id [ws|]]| |] s1]; reflexivity.
Qed.

Lemma unsubscribe_during_nil W c id ws responseMethod unsubscribeMethod subscriptionId s :
  unsubscribe_during W c id ws responseMethod unsubscribeMethod subscriptionId [] s
  = unsubscribe W c id ws responseMethod unsubscribeMethod subscriptionId s.
Proof. reflexivity. Qed.

Lemma subscribe_during_nil W c subscribeMethod unsubscribeMethod responseMethod params
  callback s :
  subscribe W c subscribeMethod unsubscribeMethod responseMethod params callback s =
  match subscribe_during W c subscribeMethod unsubscribeMethod responseMethod params callback
          [] [] [] s with
  | (Ret unsubscribeFn, s') => (Ret (unsubscribeFn W []), s')
  | (Throw e, s') => (Throw e, s')
  | (Diverges, s') => (Diverges, s')
  end.
Proof.
  unfold subscribe_during, subscribe, waitForWs_during, waitForWs, suspended, bind, modify,
    try_catch, emit, modify, settle, ret, throw.
  destruct (connectChainSocket W c s) as [[[id [ws|]]| |] s1]; try reflexivity.
  simpl.
  destruct (ws_subscribe W ws responseMethod subscribeMethod params callback); simpl.
  - reflexivity.
  - destruct (disconnectChainSocket W c id _) as [[[]| |] s2]; reflexivity.
Qed.

(** X5. A [send] whose acquire returns, with any segments of other tasks
    scheduled during its three [await]s as long as none of them releases
    the handle the send holds.  The transport it acquired is still the
    stored one when [ws.send] is called and when that call settles; the
    send returns the result or rethrows the error.  Its release finds the
    handle, so it does not throw, and it runs on the state [logged] reached
    when the call settled (with the error logged on a rejection): it leaves
    that state with the release recorded and the handle spliced out and,
    exactly when no handle is left, with the transport disconnected and its
    entries deleted.  The release issues no transport call and the trace
    gains nothing else; over the whole send the release of its handle is
    recorded exactly once. *)
Theorem send_restores_pool (W : World) c method params isCacheable
    after_acquire during_wait during_call s id ws s1 :
  connectChainSocket W c s = (Ret (id, Some ws), s1) ->
  NoDup (users_of c s) ->
  keeps c id after_acquire -> keeps c id during_wait -> keeps c id during_call ->
  let called := run_history during_wait (run_history after_acquire s1) in
  let settled :=
    run_history during_call (with_trace (cons (EvWsSend ws method params)) called) in
  let logged :=
    match ws_send W ws method params isCacheable with
    | Resolves _ => settled
    | Rejects e => with_trace (cons (EvLogError "Failed to send" (Thrown e))) settled
    end in
  let out :=
    send_during W c method params isCacheable after_acquire during_wait during_call s in
  exists i,
    indexOf (users_of c settled) id = Some i /\
    socketConnections called !! c = Some ws /\
    socketConnections settled !! c = Some ws /\
    fst out = match ws_send W ws method params isCacheable with
              | Resolves response => Ret response
              | Rejects e => Throw (Thrown e)
              end /\
    snd out = let_go W c id i ws logged /\
    users_of c (snd out) = splice1 (users_of c settled) i /\
    ~ In id (users_of c (snd out)) /\
    (socketConnections (snd out) !! c = None <-> splice1 (users_of c settled) i = []) /\
    trace (snd out) =
      match splice1 (users_of c settled) i with
      | [] => clear_log logged c ++ disconnect_log W ws ++ EvRelease c id :: trace logged
      | _ :: _ => EvRelease c id :: trace logged
      end /\
    release_count c id (trace (snd out)) = S (release_count c id (trace s)).
Proof.
  intros Hacq Hnd K1 K2 K3. cbv zeta.
  pose proof (connect_returns _ _ _ _ _ _ Hacq) as (_ & Hcnt & Hn & Hu).
  pose proof (connect_returns_stored _ _ _ _ _ _ Hacq) as (Hc & _).
  assert (Hin1 : In id (users_of c s1)).
  { unfold users_of. rewrite Hu. simpl. apply in_app_iff. right. by left. }
  assert (Hnd1 : NoDup (users_of c s1)).
  { unfold users_of at 1. rewrite Hu. simpl. apply NoDup_app. split; [done|].
    split; [|apply NoDup_singleton].
    intros x Hx Hx'. apply list_elem_of_In in Hx, Hx'. destruct Hx' as [<-|[]]. done. }
  set (s2 := run_history after_acquire s1).
  destruct (held_run after_acquire c id ws s1 K1 Hin1 Hc) as [Hin2 Hc2]. fold s2 in Hin2, Hc2.
  set (called := run_history during_wait s2).
  destruct (held_run during_wait c id ws s2 K2 Hin2 Hc2) as [Hin3 Hc3].
  fold called in Hin3, Hc3.
  set (sent := with_trace (cons (EvWsSend ws method params)) called).
  set (settled := run_history during_call sent).
  destruct (held_run during_call c id ws sent K3 Hin3 Hc3) as [Hin4 Hc4].
  fold settled in Hin4, Hc4.
  assert (Hnd4 : NoDup (users_of c settled)) by (by do 3 apply NoDup_run).
  assert (Hcnt4 : release_count c id (trace settled) = release_count c id (trace s)).
  { unfold settled. rewrite release_count_run by done. unfold sent. simpl.
    rewrite release_count_other by done. unfold called, s2.
    by rewrite !release_count_run. }
  set (logged := match ws_send W ws method params isCacheable with
                 | Resolves _ => settled
                 | Rejects e => with_trace (cons (EvLogError "Failed to send" (Thrown e))) settled
                 end).
  assert (Hl : users_of c logged = users_of c settled /\
               socketConnections logged = socketConnections settled /\
               release_count c id (trace logged) = release_count c id (trace settled)).
  { unfold logged. destruct (ws_send W ws method params isCacheable); [done|].
    split; [done|]. split; [done|]. simpl. by rewrite release_count_other. }
  destruct Hl as (Hlu & Hlc & Hlr).
  assert (Hin5 : In id (users_of c logged)) by (by rewrite Hlu).
  assert (Hc5 : socketConnections logged !! c = Some ws) by (by rewrite Hlc).
  destruct (disconnect_held W c id ws logged Hin5 Hc5) as (i & Hi & Hrel).
  rewrite Hlu in Hi. exists i.
  assert (Hout : send_during W c method params isCacheable after_acquire during_wait
                   during_call s
                 = (match ws_send W ws method params isCacheable with
                    | Resolves response => Ret response
                    | Rejects e => Throw (Thrown e)
                    end, let_go W c id i ws logged)).
  { unfold send_during, waitForWs_during, suspended, bind, try_catch, settle, log_error, emit,
      modify, ret, throw.
    rewrite Hacq. cbn [fst snd]. fold s2. fold called. fold sent. fold settled.
    unfold logged in Hrel |- *.
    destruct (ws_send W ws method params isCacheable) as [response|e]; by rewrite Hrel. }
  rewrite Hout. cbn [fst snd].
  destruct (let_go_facts W c id i ws logged) as (Hgu & Hgc & Hgt).
  rewrite Hlu in Hgu, Hgc, Hgt.
  split; [done|]. split; [done|]. split; [done|]. split; [done|]. split; [done|].
  split; [done|]. split.
  { rewrite Hgu. by apply splice1_indexOf_notin. }
  split; [by apply Hgc|]. split; [exact Hgt|].
  pose proof (disconnect_release_count W c id logged) as Hd. rewrite Hrel in Hd.
  cbn [snd] in Hd. by rewrite Hd, Hlr, Hcnt4.
Qed.

Lemma send_restores_pool_witness :
  let after_acquire := [(Scenario.world, Acquire "polkadot")] in
  let during_wait := [(Scenario.world, KeepaliveReady 0)] in
  let during_call := [(Scenario.world, KeepaliveTick "polkadot" true);
                      (Scenario.world, Release "polkadot" 25000000)] in
  let called := run_history during_wait (run_history after_acquire Scenario.once) in
  let settled :=
    run_history during_call
      (with_trace (cons (EvWsSend Scenario.ws0 "system_chain" [])) called) in
  let out :=
    send_during Scenario.world "polkadot" "system_chain" [] None
      after_acquire during_wait during_call (initial Scenario.draws) in
  exists i,
    indexOf (users_of "polkadot" settled) 50000000 = Some i /\
    socketConnections called !! "polkadot" = Some Scenario.ws0 /\
    socketConnections settled !! "polkadot" = Some Scenario.ws0 /\
    fst out = Ret "result"%string /\
    snd out = let_go Scenario.world "polkadot" 50000000 i Scenario.ws0 settled /\
    users_of "polkadot" (snd out) = splice1 (users_of "polkadot" settled) i /\
    ~ In 50000000 (users_of "polkadot" (snd out)) /\
    (socketConnections (snd out) !! "polkadot" = None
       <-> splice1 (users_of "polkadot" settled) i = []) /\
    trace (snd out) =
      match splice1 (users_of "polkadot" settled) i with
      | [] => clear_log settled "polkadot" ++ disconnect_log Scenario.world Scenario.ws0
                ++ EvRelease "polkadot" 50000000 :: trace settled
      | _ :: _ => EvRelease "polkadot" 50000000 :: trace settled
      end /\
    release_count "polkadot" 50000000 (trace (snd out))
      = S (release_count "polkadot" 50000000 (trace (initial Scenario.draws))).
Proof.
  apply (send_restores_pool Scenario.world "polkadot" "system_chain" [] None
           [(Scenario.world, Acquire "polkadot")]
           [(Scenario.world, KeepaliveReady 0)]
           [(Scenario.world, KeepaliveTick "polkadot" true);
            (Scenario.world, Release "polkadot" 25000000)]
           (initial Scenario.draws) 50000000 Scenario.ws0 Scenario.once).
  - vm_compute. reflexivity.
  - apply NoDup_nil_2.
  - repeat (apply Forall_cons; split; [discriminate|]). by apply Forall_nil.
  - repeat (apply Forall_cons; split; [discriminate|]). by apply Forall_nil.
  - repeat (apply Forall_cons; split; [discriminate|]). by apply Forall_nil.
Defined.

(** X6. On a chain the directory does not know, [send] and [subscribe]
    throw the chain-not-found error and leave the connector exactly as it
    was: no handle is allocated, no transport opened, nothing logged. *)
Theorem unknown_chain_is_refused (W : World) c s :
  getChain W c = None ->
  (forall method params isCacheable,
      send W c method params isCacheable s = (Throw (Error_chain_not_found c), s)) /\
  (forall subscribeMethod unsubscribeMethod responseMethod params callback,
      fst (subscribe W c subscribeMethod unsubscribeMethod responseMethod params callback s)
        = Throw (Error_chain_not_found c) /\
      snd (subscribe W c subscribeMethod unsubscribeMethod responseMethod params callback s)
        = s).
Proof.
  intros Hg.
  assert (Hc : connectChainSocket W c s = (Throw (Error_chain_not_found c), s))
    by (by rewrite connectChainSocket_run, Hg).
  split.
  - intros. unfold send, bind. by rewrite Hc.
  - intros. unfold subscribe, bind. by rewrite Hc.
Qed.

Lemma unknown_chain_is_refused_witness :
  send Scenario.world "moonbeam" "system_chain" [] None Scenario.once
    = (Throw (Error_chain_not_found "moonbeam"), Scenario.once).
Proof.
  apply (unknown_chain_is_refused Scenario.world "moonbeam" Scenario.once).
  reflexivity.
Defined.

(** X7. A [subscribe] whose acquire returns, with any segments of other
    tasks scheduled during its three [await]s as long as none of them
    releases the handle the subscribe holds.  The transport it acquired is
    still the stored one when [ws.subscribe] is called and when that call
    settles.  When the call resolves, the subscribe returns the unsubscribe
    closure for the provider's subscription id and does nothing more: the
    state is the one reached when the call settled, the handle is in the
    list and no release of it has been recorded.  When the call is
    rejected, the subscribe rethrows after one release, which finds the
    handle, splices it out and tears the transport down exactly when no
    handle is left. *)
Theorem subscribe_keeps_or_releases (W : World) c subscribeMethod unsubscribeMethod
    responseMethod params callback after_acquire during_wait during_call s id ws s1 :
  connectChainSocket W c s = (Ret (id, Some ws), s1) ->
  NoDup (users_of c s) ->
  keeps c id after_acquire -> keeps c id during_wait -> keeps c id during_call ->
  let called := run_history during_wait (run_history after_acquire s1) in
  let settled :=
    run_history during_call
      (with_trace (cons (EvWsSubscribe ws responseMethod subscribeMethod)) called) in
  let out :=
    subscribe_during W c subscribeMethod unsubscribeMethod responseMethod params callback
      after_acquire during_wait during_call s in
  exists i,
    indexOf (users_of c settled) id = Some i /\
    socketConnections called !! c = Some ws /\
    socketConnections settled !! c = Some ws /\
    match ws_subscribe W ws responseMethod subscribeMethod params callback with
    | Resolves subscriptionId =>
        out = (Ret (fun W' =>
                      unsubscribe_during W' c id ws responseMethod unsubscribeMethod
                        subscriptionId),
               settled) /\
        release_count c id (trace settled) = release_count c id (trace s)
    | Rejects e =>
        out = (Throw (Thrown e), let_go W c id i ws settled) /\
        users_of c (snd out) = splice1 (users_of c settled) i /\
        ~ In id (users_of c (snd out)) /\
        (socketConnections (snd out) !! c = None <-> splice1 (users_of c settled) i = []) /\
        release_count c id (trace (snd out)) = S (release_count c id (trace s))
    end.
Proof.
  intros Hacq Hnd K1 K2 K3. cbv zeta.
  pose proof (connect_returns _ _ _ _ _ _ Hacq) as (_ & Hcnt & Hn & Hu).
  pose proof (connect_returns_stored _ _ _ _ _ _ Hacq) as (Hc & _).
  assert (Hin1 : In id (users_of c s1)).
  { unfold users_of. rewrite Hu. simpl. apply in_app_iff. right. by left. }
  assert (Hnd1 : NoDup (users_of c s1)).
  { unfold users_of at 1. rewrite Hu. simpl. apply NoDup_app. split; [done|].
    split; [|apply NoDup_singleton].
    intros x Hx Hx'. apply list_elem_of_In in Hx, Hx'. destruct Hx' as [<-|[]]. done. }
  set (s2 := run_history after_acquire s1).
  destruct (held_run after_acquire c id ws s1 K1 Hin1 Hc) as [Hin2 Hc2]. fold s2 in Hin2, Hc2.
  set (called := run_history during_wait s2).
  destruct (held_run during_wait c id ws s2 K2 Hin2 Hc2) as [Hin3 Hc3].
  fold called in Hin3, Hc3.
  set (asked := with_trace (cons (EvWsSubscribe ws responseMethod subscribeMethod)) called).
  set (settled := run_history during_call asked).
  destruct (held_run during_call c id ws asked K3 Hin3 Hc3) as [Hin4 Hc4].
  fold settled in Hin4, Hc4.
  assert (Hnd4 : NoDup (users_of c settled)) by (by do 3 apply NoDup_run).
  assert (Hcnt4 : release_count c id (trace settled) = release_count c id (trace s)).
  { unfold settled. rewrite release_count_run by done. unfold asked. simpl.
    rewrite release_count_other by done. unfold called, s2.
    by rewrite !release_count_run. }
  destruct (disconnect_held W c id ws settled Hin4 Hc4) as (i & Hi & Hrel).
  exists i. split; [done|]. split; [done|]. split; [done|].
  unfold subscribe_during, waitForWs_during, suspended, bind, try_catch, settle, emit,
    modify, ret, throw.
  rewrite Hacq. cbn [fst snd]. fold s2. fold called. fold asked. fold settled.
  destruct (ws_subscribe W ws responseMethod subscribeMethod params callback) as [sub|e].
  - split; [reflexivity | exact Hcnt4].
  - rewrite Hrel. cbn [fst snd].
    destruct (let_go_facts W c id i ws settled) as (Hgu & Hgc & _).
    split; [done|]. split; [done|]. split.
    { rewrite Hgu. by apply splice1_indexOf_notin. }
    split; [by apply Hgc|].
    pose proof (disconnect_release_count W c id settled) as Hd. rewrite Hrel in Hd.
    cbn [snd] in Hd. by rewrite Hd, Hcnt4.
Qed.

Lemma subscribe_keeps_or_releases_witness :
  let after_acquire := [(Scenario.world, Acquire "polkadot")] in
  let during_wait := [(Scenario.world, KeepaliveReady 0)] in
  let during_call := [(Scenario.world, Release "polkadot" 25000000)] in
  let called := run_history during_wait (run_history after_acquire Scenario.once) in
  let settled :=
    run_history during_call
      (with_trace (cons (EvWsSubscribe Scenario.ws0 "chain_newHead" "chain_subscribeNewHeads"))
         called) in
  let out :=
    subscribe_during Scenario.world "polkadot" "chain_subscribeNewHeads"
      "chain_unsubscribeNewHeads" "chain_newHead" [] 0
      after_acquire during_wait during_call (initial Scenario.draws) in
  exists i,
    indexOf (users_of "polkadot" settled) 50000000 = Some i /\
    socketConnections called !! "polkadot" = Some Scenario.ws0 /\
    socketConnections settled !! "polkadot" = Some Scenario.ws0 /\
    out = (Ret (fun W' =>
                  unsubscribe_during W' "polkadot" 50000000 Scenario.ws0 "chain_newHead"
                    "chain_unsubscribeNewHeads" "sub-1"),
           settled) /\
    release_count "polkadot" 50000000 (trace settled)
      = release_count "polkadot" 50000000 (trace (initial Scenario.draws)).
Proof.
  apply (subscribe_keeps_or_releases Scenario.world "polkadot" "chain_subscribeNewHeads"
           "chain_unsubscribeNewHeads" "chain_newHead" [] 0
           [(Scenario.world, Acquire "polkadot")]
           [(Scenario.world, KeepaliveReady 0)]
           [(Scenario.world, Release "polkadot" 25000000)]
           (initial Scenario.draws) 50000000 Scenario.ws0 Scenario.once).
  - vm_compute. reflexivity.
  - apply NoDup_nil_2.
  - repeat (apply Forall_cons; split; [discriminate|]). by apply Forall_nil.
  - repeat (apply Forall_cons; split; [discriminate|]). by apply Forall_nil.
  - repeat (apply Forall_cons; split; [discriminate|]). by apply Forall_nil.
Defined.

(** X8. The unsubscribe closure, invoked while its handle is in the
    chain's duplicate-free list, with a transport call that resolves and
    any segments of other tasks scheduled during its [await] as long as
    none of them releases the handle: the release runs on the state reached
    when the call settled, returns normally, removes the handle with
    exactly one release recorded, and deletes the stored transport exactly
    when no handle is left.  A second invocation, after and during any
    segments that do not acquire on the chain (an acquire could hand the
    same number out again), finds the handle gone: it throws the
    can't-remove-user error and adds only the record of the call to the
    state reached when its transport call settled. *)
Theorem unsubscribe_once_then_refused (W W' : World) c id ws stored responseMethod
    unsubscribeMethod subscriptionId during_call between during_call' s :
  In id (users_of c s) -> NoDup (users_of c s) ->
  socketConnections s !! c = Some stored ->
  (exists ack,
      ws_unsubscribe W ws responseMethod unsubscribeMethod subscriptionId = Resolves ack) ->
  (exists ack,
      ws_unsubscribe W' ws responseMethod unsubscribeMethod subscriptionId = Resolves ack) ->
  keeps c id during_call ->
  no_acquire c between -> no_acquire c during_call' ->
  let unsubscribeFn W :=
    unsubscribe_during W c id ws responseMethod unsubscribeMethod subscriptionId in
  let asked :=
    with_trace (cons (EvWsUnsubscribe ws responseMethod unsubscribeMethod subscriptionId)) in
  let settled := run_history during_call (asked s) in
  let once := unsubscribeFn W during_call s in
  let settled' := run_history during_call' (asked (run_history between (snd once))) in
  let twice := unsubscribeFn W' during_call' (run_history between (snd once)) in
  exists i,
    indexOf (users_of c settled) id = Some i /\
    socketConnections settled !! c = Some stored /\
    once = (Ret tt, let_go W c id i stored settled) /\
    users_of c (snd once) = splice1 (users_of c settled) i /\
    ~ In id (users_of c (snd once)) /\
    (socketConnections (snd once) !! c = None <-> splice1 (users_of c settled) i = []) /\
    release_count c id (trace (snd once)) = S (release_count c id (trace s)) /\
    ~ In id (users_of c settled') /\
    twice = (Throw (Error_cant_remove_user c id (users_of c settled')),
             released c id settled').
Proof.
  intros Hin Hnd Hc [ack Hack] [ack' Hack'] K N1 N2. cbv zeta.
  set (asked := with_trace
                  (cons (EvWsUnsubscribe ws responseMethod unsubscribeMethod subscriptionId))).
  set (settled := run_history during_call (asked s)).
  destruct (held_run during_call c id stored (asked s) K Hin Hc) as [Hin1 Hc1].
  fold settled in Hin1, Hc1.
  assert (Hnd1 : NoDup (users_of c settled)) by (by apply NoDup_run).
  assert (Hcnt1 : release_count c id (trace settled) = release_count c id (trace s)).
  { unfold settled. rewrite release_count_run by done. unfold asked. simpl.
    by rewrite release_count_other. }
  destruct (disconnect_held W c id stored settled Hin1 Hc1) as (i & Hi & Hrel).
  exists i.
  assert (Hrun : forall V h x,
             unsubscribe_during V c id ws responseMethod unsubscribeMethod subscriptionId h x
             = match ws_unsubscribe V ws responseMethod unsubscribeMethod subscriptionId with
               | Resolves _ => disconnectChainSocket V c id (run_history h (asked x))
               | Rejects e => (Throw (Thrown e), run_history h (asked x))
               end).
  { intros V h x. unfold unsubscribe_during, suspended, bind, settle, emit, modify, ret, throw.
    cbn [fst snd]. fold (asked x).
    destruct (ws_unsubscribe V ws responseMethod unsubscribeMethod subscriptionId); done. }
  rewrite !Hrun, Hack, Hack'. fold settled. rewrite Hrel. cbn [fst snd].
  destruct (let_go_facts W c id i stored settled) as (Hgu & Hgc & _).
  assert (Hout : ~ In id (users_of c (let_go W c id i stored settled))).
  { rewrite Hgu. by apply splice1_indexOf_notin. }
  assert (Hsome : is_Some (socketUsers (let_go W c id i stored settled) !! c)).
  { unfold let_go. destruct (splice1 (users_of c settled) i); unfold closed, without_user;
      simpl; rewrite lookup_insert_eq; done. }
  set (s1 := let_go W c id i stored settled) in *.
  destruct (absent_run between c id s1 N1 Hout Hsome) as [Hout2 Hsome2].
  destruct (absent_run during_call' c id (asked (run_history between s1)) N2 Hout2 Hsome2)
    as [Hout3 Hsome3].
  split; [done|]. split; [done|]. split; [done|]. split; [done|]. split; [done|].
  split; [by apply Hgc|]. split.
  { pose proof (disconnect_release_count W c id settled) as Hd. rewrite Hrel in Hd.
    cbn [snd] in Hd. by rewrite Hd, Hcnt1. }
  split; [done|]. by apply disconnect_absent.
Qed.

Lemma unsubscribe_once_then_refused_witness :
  let W := Scenario.obliging_world in
  let during_call := [(W, Acquire "polkadot"); (W, KeepaliveReady 0)] in
  let between := [(W, Release "polkadot" 25000000); (W, Acquire "kusama")] in
  let during_call' := [(W, KeepaliveTick "polkadot" true)] in
  let unsubscribeFn W :=
    unsubscribe_during W "polkadot" 50000000 Scenario.ws0 "chain_newHead"
      "chain_unsubscribeNewHeads" "sub-1" in
  let asked :=
    with_trace (cons (EvWsUnsubscribe Scenario.ws0 "chain_newHead"
                        "chain_unsubscribeNewHeads" "sub-1")) in
  let settled := run_history during_call (asked Scenario.once) in
  let once := unsubscribeFn W during_call Scenario.once in
  let settled' := run_history during_call' (asked (run_history between (snd once))) in
  let twice := unsubscribeFn W during_call' (run_history between (snd once)) in
  exists i,
    indexOf (users_of "polkadot" settled) 50000000 = Some i /\
    socketConnections settled !! "polkadot" = Some Scenario.ws0 /\
    once = (Ret tt, let_go W "polkadot" 50000000 i Scenario.ws0 settled) /\
    users_of "polkadot" (snd once) = splice1 (users_of "polkadot" settled) i /\
    ~ In 50000000 (users_of "polkadot" (snd once)) /\
    (socketConnections (snd once) !! "polkadot" = None
       <-> splice1 (users_of "polkadot" settled) i = []) /\
    release_count "polkadot" 50000000 (trace (snd once))
      = S (release_count "polkadot" 50000000 (trace Scenario.once)) /\
    ~ In 50000000 (users_of "polkadot" settled') /\
    twice = (Throw (Error_cant_remove_user "polkadot" 50000000 (users_of "polkadot" settled')),
             released "polkadot" 50000000 settled').
Proof.
  apply (unsubscribe_once_then_refused Scenario.obliging_world Scenario.obliging_world
           "polkadot" 50000000 Scenario.ws0 Scenario.ws0 "chain_newHead"
           "chain_unsubscribeNewHeads" "sub-1"
           [(Scenario.obliging_world, Acquire "polkadot");
            (Scenario.obliging_world, KeepaliveReady 0)]
           [(Scenario.obliging_world, Release "polkadot" 25000000);
            (Scenario.obliging_world, Acquire "kusama")]
           [(Scenario.obliging_world, KeepaliveTick "polkadot" true)]
           Scenario.once).
  - by left.
  - vm_compute. apply NoDup_singleton.
  - vm_compute. reflexivity.
  - exists true. reflexivity.
  - exists true. reflexivity.
  - repeat (apply Forall_cons; split; [discriminate|]). by apply Forall_nil.
  - repeat (apply Forall_cons; split; [discriminate|]). by apply Forall_nil.
  - repeat (apply Forall_cons; split; [discriminate|]). by apply Forall_nil.
Defined.

(** *** The id loop, exactly *)

Lemma while_excluded_first_fit exclude rs : forall id0 id rs',
  while_excluded exclude id0 rs = (Some id, rs') <->
  (~ In id0 exclude /\ id = id0 /\ rs' = rs) \/
  (In id0 exclude /\
   exists rejected r,
     rs = rejected ++ r :: rs' /\
     Forall (fun x => In (getRandomId x) exclude) rejected /\
     id = getRandomId r /\ ~ In id exclude).
Proof.
  induction rs as [|r rs IH]; intros id0 id rs'; simpl.
  - destruct (includes exclude id0) eqn:E.
    + apply includes_spec in E. split; [discriminate|].
      intros [[Hn _]|(_ & rej & r & Hrs & _)]; [done|]. by destruct rej.
    + apply includes_false in E. split.
      * intros [= <- <-]. by left.
      * intros [(_ & -> & ->)|[Hin _]]; done.
  - destruct (includes exclude id0) eqn:E.
    + apply includes_spec in E. rewrite IH. split.
      * intros [(Hn & -> & ->)|(Hin & rej & r' & -> & Hrej & -> & Hn)]; right; split; try done.
        -- exists [], r. done.
        -- exists (r :: rej), r'. split; [done|]. split; [by constructor | done].
      * intros [[Hn _]|(_ & rej & r' & Hrs & Hrej & -> & Hn)]; [done|].
        destruct rej as [|x rej]; simpl in Hrs; injection Hrs as -> ->.
        -- left. done.
        -- right. apply Forall_cons in Hrej as [Hx Hrej]. split; [done|].
           exists rej, r'. done.
    + apply includes_false in E. split.
      * intros [= <- <-]. by left.
      * intros [(_ & -> & ->)|[Hin _]]; done.
Qed.

Lemma while_excluded_exhausted exclude rs : forall id0 rs',
  while_excluded exclude id0 rs = (None, rs') <->
  In id0 exclude /\ Forall (fun x => In (getRandomId x) exclude) rs /\ rs' = [].
Proof.
  induction rs as [|r rs IH]; intros id0 rs'; simpl.
  - destruct (includes exclude id0) eqn:E.
    + apply includes_spec in E. split; [intros [= <-]; done | intros (_ & _ & ->); done].
    + apply includes_false in E. split; [discriminate | tauto].
  - destruct (includes exclude id0) eqn:E.
    + apply includes_spec in E. rewrite IH. rewrite Forall_cons. tauto.
    + apply includes_false in E. split; [discriminate | tauto].
Qed.

(** X13. [getExclusiveRandomId] returns the first random id that is not in
    the exclude list: it consumes the draws in order, every draw before the
    returned one gave an excluded id, and the draws after it are left for
    later calls.  It is still looping when the draws run out exactly when
    every one of them gave an excluded id. *)
Theorem getExclusiveRandomId_first_fit (exclude : list Z) (rs : list dyadic) :
  (forall id rs',
      getExclusiveRandomId exclude rs = (Some id, rs') <->
      exists rejected r,
        rs = rejected ++ r :: rs' /\
        Forall (fun x => In (getRandomId x) exclude) rejected /\
        id = getRandomId r /\ ~ In id exclude) /\
  (forall rs',
      getExclusiveRandomId exclude rs = (None, rs') <->
      Forall (fun x => In (getRandomId x) exclude) rs /\ rs' = []).
Proof.
  destruct rs as [|r rs]; simpl.
  - split.
    + intros id rs'. split; [discriminate|]. intros (rej & r & H & _). by destruct rej.
    + intros rs'. split; [intros [= <-]; done | intros [_ ->]; done].
  - split.
    + intros id rs'. rewrite while_excluded_first_fit. split.
      * intros [(Hn & -> & ->)|(Hin & rej & r' & -> & Hrej & -> & Hn)].
        -- exists [], r. done.
        -- exists (r :: rej), r'. split; [done|]. split; [by constructor | done].
      * intros (rej & r' & Hrs & Hrej & -> & Hn).
        destruct rej as [|x rej]; simpl in Hrs; injection Hrs as -> ->.
        -- left. done.
        -- right. apply Forall_cons in Hrej as [Hx Hrej]. split; [done|].
           exists rej, r'. done.
    + intros rs'. rewrite while_excluded_exhausted, Forall_cons. tauto.
Qed.

(** *** What a throwing acquire leaves behind *)

(** X14. When [connectChainSocket] throws the chain-not-found error the
    connector is exactly as before.  When it throws anything else (the
    no-healthy-RPCs error or what the transport constructor threw), the
    error was logged once, and the only other change is that the chain's
    handle list has grown by the handle allocated for the call: no
    transport, timer or keepalive set-up was added. *)
Theorem throwing_acquire_keeps_only_the_handle (W : World) c s e s' :
  connectChainSocket W c s = (Throw e, s') ->
  (e = Error_chain_not_found c /\ s' = s) \/
  (exists id chain,
      getChain W c = Some chain /\
      (e = Error_no_healthy_rpcs c /\ rpcs_or_empty chain = [] \/
       WsProvider_new W (sorted_rpcs chain) 1000 <> None /\ rpcs_or_empty chain <> []) /\
      ~ In id (users_of c s) /\
      socketUsers s' = <[c := users_of c s ++ [id]]> (socketUsers s) /\
      trace s' = EvLogError "" e :: trace s /\
      socketConnections s' = socketConnections s /\
      socketConnections s !! c = None /\
      socketKeepAliveIntervals s' = socketKeepAliveIntervals s /\
      awaiting_isReady s' = awaiting_isReady s /\
      next_ws s' = next_ws s).
Proof.
  rewrite connectChainSocket_run. intros H.
  destruct (getChain W c) as [chain|]; [|injection H as <- <-; by left].
  right. destruct (getExclusiveRandomId _ _) as [[id|] rs] eqn:E; [|discriminate].
  apply getExclusiveRandomId_sound in E as (Hn & _).
  destruct (socketConnections s !! c) eqn:Hc; [discriminate|].
  exists id, chain. split; [done|].
  destruct (sorted_rpcs chain) as [|u us] eqn:Hr.
  - injection H as <- <-. apply sorted_rpcs_nil in Hr. split; [by left|]. done.
  - assert (Hne : rpcs_or_empty chain <> []).
    { intros Hnil. apply sorted_rpcs_nil in Hnil. congruence. }
    destruct (WsProvider_new W _ _) eqn:Hw; [|discriminate].
    injection H as <- <-. split; [right; split; [congruence | done]|]. done.
Qed.

Lemma throwing_acquire_keeps_only_the_handle_witness :
  let s' := snd (connectChainSocket Scenario.world "custom" Scenario.once) in
  let e := Thrown "Endpoint should start with 'ws://'" in
  (e = Error_chain_not_found "custom" /\ s' = Scenario.once) \/
  (exists id chain,
      getChain Scenario.world "custom" = Some chain /\
      (e = Error_no_healthy_rpcs "custom" /\ rpcs_or_empty chain = [] \/
       WsProvider_new Scenario.world (sorted_rpcs chain) 1000 <> None /\
       rpcs_or_empty chain <> []) /\
      ~ In id (users_of "custom" Scenario.once) /\
      socketUsers s'
        = <["custom" := users_of "custom" Scenario.once ++ [id]]> (socketUsers Scenario.once) /\
      trace s' = EvLogError "" e :: trace Scenario.once /\
      socketConnections s' = socketConnections Scenario.once /\
      socketConnections Scenario.once !! "custom" = None /\
      socketKeepAliveIntervals s' = socketKeepAliveIntervals Scenario.once /\
      awaiting_isReady s' = awaiting_isReady Scenario.once /\
      next_ws s' = next_ws Scenario.once).
Proof.
  apply (throwing_acquire_keeps_only_the_handle Scenario.world "custom" Scenario.once).
  vm_compute. reflexivity.
Defined.

(** *** Two borrowers *)

(** X16. Two acquires of a chain that had neither a transport nor handles
    share one transport: the second returns the transport the first
    constructed, with a different handle, and constructs nothing.  Whichever
    of the two handles is released first, the transport stays stored and
    connected; the release of the other one disconnects it and leaves the
    chain without transport, timer entry and handles. *)
Theorem two_borrowers_share_one_transport (W : World) c s id1 ws s1 id2 o2 s2 :
  socketConnections s !! c = None ->
  users_of c s = [] ->
  connectChainSocket W c s = (Ret (id1, Some ws), s1) ->
  connectChainSocket W c s1 = (Ret (id2, o2), s2) ->
  o2 = Some ws /\ id1 <> id2 /\ next_ws s2 = next_ws s1 /\ trace s2 = trace s1 /\
  forall a b,
    a = id1 /\ b = id2 \/ a = id2 /\ b = id1 ->
    let s3 := snd (disconnectChainSocket W c a s2) in
    let s4 := snd (disconnectChainSocket W c b s3) in
    socketConnections s3 !! c = Some ws /\
    live (trace s3) = live (trace s2) /\
    users_of c s3 = [b] /\
    socketConnections s4 !! c = None /\
    socketKeepAliveIntervals s4 !! c = None /\
    users_of c s4 = [] /\
    In (EvDisconnect ws) (trace s4).
Proof.
  intros Hc0 Hu0 H1 H2.
  pose proof (connect_returns _ _ _ _ _ _ H1) as (_ & _ & _ & Hu1).
  pose proof (connect_returns_stored _ _ _ _ _ _ H1) as (Hc1 & _).
  rewrite Hu0 in Hu1. simpl in Hu1.
  assert (Hus1 : users_of c s1 = [id1]) by (unfold users_of; by rewrite Hu1).
  rewrite connectChainSocket_run in H2.
  destruct (getChain W c) as [chain|]; [|discriminate].
  destruct (getExclusiveRandomId _ _) as [[id|] rs] eqn:E; [|discriminate].
  rewrite Hc1 in H2. injection H2 as <- <- <-.
  apply getExclusiveRandomId_sound in E as (Hn & _). rewrite Hus1 in Hn.
  assert (Hne : id1 <> id) by (intros ->; apply Hn; by left).
  split; [done|]. split; [done|]. split; [done|]. split; [done|].
  intros a b Hab. cbv zeta.
  assert (Hu2 : socketUsers (joined c id rs s1) !! c = Some [id1; id]).
  { unfold joined. simpl. by rewrite lookup_insert_eq, Hus1. }
  assert (Hc2 : socketConnections (joined c id rs s1) !! c = Some ws) by exact Hc1.
  assert (Hfirst : exists i, indexOf [id1; id] a = Some i /\ splice1 [id1; id] i = [b]).
  { destruct Hab as [[-> ->]|[-> ->]]; simpl.
    - rewrite Z.eqb_refl. by exists O.
    - destruct (Z.eqb_spec id1 id); [done|]. rewrite Z.eqb_refl. by exists 1%nat. }
  destruct Hfirst as (i & Hi & Hsp).
  rewrite (disconnectChainSocket_run W c a), Hu2, Hi. cbv zeta. rewrite Hsp. simpl.
  set (s3 := without_user c i (released c a (joined c id rs s1))).
  assert (Hu3 : socketUsers s3 !! c = Some [b]).
  { unfold s3, without_user. simpl. rewrite lookup_insert_eq. f_equal.
    change (users_of c (released c a (joined c id rs s1)))
      with (users_of c (joined c id rs s1)).
    unfold users_of. rewrite Hu2. exact Hsp. }
  assert (Hc3 : socketConnections s3 !! c = Some ws) by exact Hc1.
  split; [exact Hc3|]. split; [reflexivity|].
  split; [unfold users_of; by rewrite Hu3|].
  assert (Hib : indexOf [b] b = Some O) by (simpl; by rewrite Z.eqb_refl).
  rewrite (disconnectChainSocket_run W c b), Hu3, Hib. cbv zeta.
  change (Nat.ltb 0 (length (splice1 [b] 0))) with false. cbv iota.
  rewrite Hc3. unfold closed. simpl. rewrite !lookup_delete_eq.
  split; [done|]. split; [done|]. split.
  - unfold users_of at 1. simpl. rewrite lookup_insert_eq. simpl.
    change (users_of c (released c b s3)) with (users_of c s3).
    unfold users_of. by rewrite Hu3.
  - assert (Hd : In (EvDisconnect ws) (disconnect_log W ws))
      by (unfold disconnect_log; destruct (ws_disconnect W ws); simpl; auto).
    rewrite !in_app_iff. tauto.
Qed.

Lemma two_borrowers_share_one_transport_witness :
  let s2 := snd (connectChainSocket Scenario.world "polkadot" Scenario.once) in
  let s3 := snd (disconnectChainSocket Scenario.world "polkadot" 25000000 s2) in
  let s4 := snd (disconnectChainSocket Scenario.world "polkadot" 50000000 s3) in
  socketConnections s3 !! "polkadot" = Some Scenario.ws0 /\
  live (trace s3) = live (trace s2) /\
  users_of "polkadot" s3 = [50000000] /\
  socketConnections s4 !! "polkadot" = None /\
  socketKeepAliveIntervals s4 !! "polkadot" = None /\
  users_of "polkadot" s4 = [] /\
  In (EvDisconnect Scenario.ws0) (trace s4).
Proof.
  destruct (two_borrowers_share_one_transport Scenario.world "polkadot"
              (initial Scenario.draws) 50000000 Scenario.ws0 Scenario.once 25000000
              (Some Scenario.ws0)
              (snd (connectChainSocket Scenario.world "polkadot" Scenario.once)))
    as (_ & _ & _ & _ & H); try (vm_compute; reflexivity).
  apply (H 25000000 50000000). right. done.
Defined.

(** * Further properties of util.ts *)

Section EvmExtras.
Import EvmUtil.

(** ** Rewriting of OnFinality urls *)

Lemma strip_prefix_Some p : forall s r, strip_prefix p s = Some r <-> s = p ++ r.
Proof.
  induction p as [|a p IH]; intros s r; simpl.
  - split; congruence.
  - destruct s as [|b s]; [split; discriminate|].
    destruct (N.eqb_spec a b) as [->|Hne].
    + rewrite IH. split; congruence.
    + split; [discriminate | congruence].
Qed.

Lemma strip_prefix_app p r : strip_prefix p (p ++ r) = Some r.
Proof. by apply strip_prefix_Some. Qed.

Lemma run_length_le class s : (run_length class s <= length s)%nat.
Proof. induction s as [|a s IH]; simpl; [lia|]. destruct (class a); simpl; lia. Qed.

Lemma run_length_take class s k :
  (k <= run_length class s)%nat -> Forall (fun c => class c = true) (take k s).
Proof.
  revert k. induction s as [|a s IH]; intros k Hk; simpl in *.
  - rewrite take_nil. constructor.
  - destruct k as [|k]; [constructor|]. simpl.
    destruct (class a) eqn:E; [|lia]. constructor; [done|]. apply IH. lia.
Qed.

Lemma run_length_app class sub rest :
  Forall (fun c => class c = true) sub ->
  match rest with [] => True | c :: _ => class c = false end ->
  run_length class (sub ++ rest) = length sub.
Proof.
  intros Hsub Hrest. induction Hsub as [|a sub Ha _ IH]; simpl.
  - destruct rest as [|c rest]; simpl; [done|]. by rewrite Hrest.
  - by rewrite Ha, IH.
Qed.

Lemma try_lengths_Some {R} k s (continue : jsstring -> jsstring -> option R) r :
  try_lengths k s continue = Some r ->
  exists j, (1 <= j <= k)%nat /\ continue (drop j s) (take j s) = Some r.
Proof.
  induction k as [|k IH]; simpl; [discriminate|].
  destruct (continue (drop (S k) s) (take (S k) s)) as [r'|] eqn:E.
  - intros [= <-]. exists (S k). split; [lia | done].
  - intros H. apply IH in H as (j & Hj & H). exists j. split; [lia | done].
Qed.

Lemma re_match_Opt_end c w captures r :
  re_match [Opt c] w captures = Some r <-> r = captures /\ (w = [] \/ w = [c]).
Proof.
  simpl. destruct w as [|a [|b w]].
  - split; [intros [= <-]; auto | intros [-> _]; done].
  - destruct (N.eqb_spec a c) as [->|Hne].
    + split; [intros [= <-]; auto | intros [-> _]; done].
    + split; [discriminate|]. intros [_ [?|?]]; congruence.
  - destruct (N.eqb a c); split; try discriminate; intros [_ [?|?]]; congruence.
Qed.

(** What the two patterns accept: a non-empty run of class characters
    between the literal parts, and at most one trailing [c]. *)
Lemma re_match_shape pre class tail c u captures :
  match tail with [] => False | t :: _ => class t = false end ->
  re_match [Lit pre; GroupPlus class; Lit tail; Opt c] u [] = Some captures <->
  exists sub,
    sub <> [] /\ Forall (fun x => class x = true) sub /\ captures = [sub] /\
    (u = pre ++ sub ++ tail \/ u = pre ++ sub ++ tail ++ [c]).
Proof.
  intros Htail. cbn [re_match]. split.
  - destruct (strip_prefix pre u) as [v|] eqn:Ev; [|discriminate].
    apply strip_prefix_Some in Ev. subst u. intros H.
    apply try_lengths_Some in H as (j & Hj & H).
    destruct (strip_prefix tail (drop j v)) as [w|] eqn:Ew; [|discriminate].
    apply strip_prefix_Some in Ew. apply re_match_Opt_end in H as [-> Hw].
    exists (take j v). split; [|split; [|split]].
    + pose proof (run_length_le class v). destruct v; simpl in *; [lia|].
      destruct j; [lia | discriminate].
    + apply run_length_take. lia.
    + reflexivity.
    + rewrite <- (take_drop j v) at 1 3. rewrite Ew.
      destruct Hw as [->| ->]; [left | right]; by rewrite ?app_nil_r.
  - intros (sub & Hne & Hcls & -> & Hu).
    assert (Hv : exists opt, (opt = [] \/ opt = [c]) /\ u = pre ++ sub ++ tail ++ opt).
    { destruct Hu as [->| ->]; [exists [] | exists [c]]; rewrite ?app_nil_r; auto. }
    destruct Hv as (opt & Hopt & ->). rewrite strip_prefix_app.
    assert (Hrun : run_length class (sub ++ tail ++ opt) = length sub).
    { apply run_length_app; [done|]. destruct tail; simpl; done. }
    rewrite Hrun. destruct sub as [|a sub]; [done|]. cbn [length try_lengths].
    rewrite take_app_length', drop_app_length' by done.
    rewrite strip_prefix_app.
    destruct Hopt as [->| ->]; simpl; rewrite ?N.eqb_refl; done.
Qed.

(** A run of class characters followed by a character outside the class
    splits in one way only. *)
Lemma run_split_unique class (sub sub' t t' : jsstring) :
  Forall (fun x => class x = true) sub -> Forall (fun x => class x = true) sub' ->
  match t with [] => False | x :: _ => class x = false end ->
  match t' with [] => False | x :: _ => class x = false end ->
  sub ++ t = sub' ++ t' -> sub = sub' /\ t = t'.
Proof.
  intros Hs. revert sub'. induction Hs as [|a sub Ha _ IH]; intros sub' Hs' Ht Ht' E.
  - destruct Hs' as [|a' sub' Ha' _]; [done|]. simpl in E. subst t. congruence.
  - destruct Hs' as [|a' sub' Ha' Hs']; simpl in E.
    + subst t'. congruence.
    + injection E as -> E. apply IH in E as [-> ->]; done.
Qed.

Lemma get_substitution_text matched before after captures t :
  Forall (fun c => c <> 36%N) t ->
  get_substitution matched before after captures t = t.
Proof.
  induction 1 as [|c t Hc _ IH]; simpl; [done|].
  destruct (N.eqb_spec c 36); [done|]. simpl. by rewrite IH.
Qed.

Lemma substitute_ws_template url sub key :
  get_substitution url [] [] [sub] (lit "https://$1.api.onfinality.io/ws?apikey=" ++ key)
  = lit "https://" ++ sub ++ lit ".api.onfinality.io/ws?apikey="
    ++ get_substitution url [] [] [sub] key.
Proof. vm_compute. reflexivity. Qed.

Lemma substitute_rpc_template url sub key :
  get_substitution url [] [] [sub] (lit "https://$1.api.onfinality.io/rpc?apikey=" ++ key)
  = lit "https://" ++ sub ++ lit ".api.onfinality.io/rpc?apikey="
    ++ get_substitution url [] [] [sub] key.
Proof. vm_compute. reflexivity. Qed.

Lemma match_public_ws u captures :
  re_match onfinality_public_ws u [] = Some captures <->
  exists sub, subdomain sub /\ captures = [sub] /\
    (u = onfinality_url sub (lit "public-ws") \/ u = onfinality_url sub (lit "public-ws/")).
Proof.
  unfold onfinality_public_ws. rewrite re_match_shape by reflexivity.
  unfold subdomain, onfinality_url. split; intros (sub & H); exists sub; tauto.
Qed.

Lemma match_rpc u captures :
  re_match onfinality_rpc u [] = Some captures <->
  exists sub, subdomain sub /\ captures = [sub] /\
    (u = onfinality_url sub (lit "rpc") \/ u = onfinality_url sub (lit "rpc/")).
Proof.
  unfold onfinality_rpc. rewrite re_match_shape by reflexivity.
  unfold subdomain, onfinality_url. split; intros (sub & H); exists sub; tauto.
Qed.

Lemma onfinality_url_inj sub sub' path path' :
  subdomain sub -> subdomain sub' ->
  onfinality_url sub path = onfinality_url sub' path' -> sub = sub' /\ path = path'.
Proof.
  intros [_ Hs] [_ Hs'] E. unfold onfinality_url in E. apply app_inv_head in E.
  apply (run_split_unique A_z_hyphen) in E as [-> E]; try done.
  by apply app_inv_head in E.
Qed.

(** A url that already carries the key parameter matches neither pattern. *)
Lemma rewritten_matches_nothing sub rest :
  subdomain sub ->
  let ws := onfinality_url sub (lit "ws?apikey=" ++ rest) in
  let rpc := onfinality_url sub (lit "rpc?apikey=" ++ rest) in
  re_match onfinality_public_ws ws [] = None /\ re_match onfinality_rpc ws [] = None /\
  re_match onfinality_public_ws rpc [] = None /\ re_match onfinality_rpc rpc [] = None.
Proof.
  intros Hsub ws rpc. subst ws rpc.
  repeat split.
  - destruct (re_match _ _ _) as [caps|] eqn:E; [|done]. exfalso.
    apply match_public_ws in E as (sub' & Hsub' & _ & [E|E]);
      apply onfinality_url_inj in E as [_ E]; try done; vm_compute in E; discriminate.
  - destruct (re_match _ _ _) as [caps|] eqn:E; [|done]. exfalso.
    apply match_rpc in E as (sub' & Hsub' & _ & [E|E]);
      apply onfinality_url_inj in E as [_ E]; try done; vm_compute in E; discriminate.
  - destruct (re_match _ _ _) as [caps|] eqn:E; [|done]. exfalso.
    apply match_public_ws in E as (sub' & Hsub' & _ & [E|E]);
      apply onfinality_url_inj in E as [_ E]; try done; vm_compute in E; discriminate.
  - destruct (re_match _ _ _) as [caps|] eqn:E; [|done]. exfalso.
    apply match_rpc in E as (sub' & Hsub' & _ & [E|E]);
      apply onfinality_url_inj in E as [_ E]; try done; vm_compute in E; discriminate.
Qed.

(** [resolveRpcUrl] by cases on which pattern matches. *)
Lemma resolveRpcUrl_cases key u :
  (exists sub, subdomain sub /\
     re_match onfinality_public_ws u [] = Some [sub] /\
     (u = onfinality_url sub (lit "public-ws") \/ u = onfinality_url sub (lit "public-ws/")) /\
     resolveRpcUrl key u
       = onfinality_url sub (lit "ws?apikey=" ++ get_substitution u [] [] [sub] key)) \/
  (exists sub, subdomain sub /\
     re_match onfinality_rpc u [] = Some [sub] /\
     (u = onfinality_url sub (lit "rpc") \/ u = onfinality_url sub (lit "rpc/")) /\
     resolveRpcUrl key u
       = onfinality_url sub (lit "rpc?apikey=" ++ get_substitution u [] [] [sub] key)) \/
  (re_match onfinality_public_ws u [] = None /\ re_match onfinality_rpc u [] = None /\
   resolveRpcUrl key u = u).
Proof.
  unfold resolveRpcUrl, replace_anchored.
  destruct (re_match onfinality_public_ws u []) as [caps|] eqn:E1.
  - left. apply match_public_ws in E1 as (sub & Hsub & -> & Hu). exists sub.
    split; [done|]. split; [done|]. split; [done|].
    rewrite substitute_ws_template.
    change (lit "https://" ++ sub ++ lit ".api.onfinality.io/ws?apikey=" ++ ?x)
      with (onfinality_url sub (lit "ws?apikey=" ++ x)).
    by destruct (rewritten_matches_nothing sub (get_substitution u [] [] [sub] key) Hsub)
      as (_ & -> & _).
  - destruct (re_match onfinality_rpc u []) as [caps|] eqn:E2.
    + right. left. apply match_rpc in E2 as (sub & Hsub & -> & Hu). exists sub.
      split; [done|]. split; [done|]. split; [done|]. by rewrite substitute_rpc_template.
    + right. right. done.
Qed.

(** X9. [resolveRpcUrl] returns every url unchanged that is not of the form
    https://<sub>.api.onfinality.io/<path> with <sub> a non-empty run of the
    characters of [[A-z-]] and <path> one of public-ws, public-ws/, rpc and
    rpc/: the API key is injected into no other url. *)
Theorem resolveRpcUrl_leaves_other_urls (key u : jsstring) :
  (forall sub path,
      subdomain sub ->
      In path [lit "public-ws"; lit "public-ws/"; lit "rpc"; lit "rpc/"] ->
      u <> onfinality_url sub path) ->
  resolveRpcUrl key u = u.
Proof.
  intros H.
  destruct (resolveRpcUrl_cases key u)
    as [(sub & Hsub & _ & Hu & _)|[(sub & Hsub & _ & Hu & _)|(_ & _ & E)]]; [| |exact E].
  - exfalso. destruct Hu as [Hu|Hu]; eapply H; try exact Hu; try done; simpl; auto.
  - exfalso. destruct Hu as [Hu|Hu]; eapply H; try exact Hu; try done; simpl; auto.
Qed.

Lemma resolveRpcUrl_leaves_other_urls_witness :
  resolveRpcUrl (lit "0123abcd") (lit "https://rpc.polkadot.io/public-ws")
    = lit "https://rpc.polkadot.io/public-ws".
Proof.
  apply (resolveRpcUrl_leaves_other_urls (lit "0123abcd")
           (lit "https://rpc.polkadot.io/public-ws")).
  intros sub path [_ Hsub] _ E. unfold onfinality_url in E.
  apply (app_inv_head (lit "https://") (lit "rpc.polkadot.io/public-ws")) in E.
  apply (run_split_unique A_z_hyphen (lit "rpc") sub (lit ".polkadot.io/public-ws")) in E
    as [_ E]; [| by repeat constructor | done | reflexivity | reflexivity].
  vm_compute in E. discriminate.
Defined.

(** X10. With an API key that contains no [$], [resolveRpcUrl] turns
    https://<sub>.api.onfinality.io/public-ws, with or without a trailing
    slash, into https://<sub>.api.onfinality.io/ws?apikey=<key>, and
    .../rpc, with or without a trailing slash, into .../rpc?apikey=<key>,
    for the same <sub>. *)
Theorem resolveRpcUrl_injects_key (key sub : jsstring) :
  subdomain sub ->
  Forall (fun c => c <> 36%N) key ->
  resolveRpcUrl key (onfinality_url sub (lit "public-ws"))
    = onfinality_url sub (lit "ws?apikey=" ++ key) /\
  resolveRpcUrl key (onfinality_url sub (lit "public-ws/"))
    = onfinality_url sub (lit "ws?apikey=" ++ key) /\
  resolveRpcUrl key (onfinality_url sub (lit "rpc"))
    = onfinality_url sub (lit "rpc?apikey=" ++ key) /\
  resolveRpcUrl key (onfinality_url sub (lit "rpc/"))
    = onfinality_url sub (lit "rpc?apikey=" ++ key).
Proof.
  intros Hsub Hkey.
  assert (Hcase : forall path,
             In path [lit "public-ws"; lit "public-ws/"; lit "rpc"; lit "rpc/"] ->
             resolveRpcUrl key (onfinality_url sub path)
             = onfinality_url sub
                 ((if bool_decide (path = lit "rpc" \/ path = lit "rpc/")
                   then lit "rpc?apikey=" else lit "ws?apikey=") ++ key)).
  { intros path Hpath.
    destruct (resolveRpcUrl_cases key (onfinality_url sub path))
      as [(sub' & Hsub' & _ & Hu & ->)|[(sub' & Hsub' & _ & Hu & ->)|(E1 & E2 & _)]].
    - rewrite get_substitution_text by done.
      destruct Hu as [Hu|Hu]; apply onfinality_url_inj in Hu as [<- ->]; try done.
    - rewrite get_substitution_text by done.
      destruct Hu as [Hu|Hu]; apply onfinality_url_inj in Hu as [<- ->]; try done.
    - exfalso. simpl in Hpath. destruct Hpath as [<-|[<-|[<-|[<-|[]]]]].
      + assert (E : re_match onfinality_public_ws (onfinality_url sub (lit "public-ws")) []
                    = Some [sub]) by (apply match_public_ws; eauto).
        congruence.
      + assert (E : re_match onfinality_public_ws (onfinality_url sub (lit "public-ws/")) []
                    = Some [sub]) by (apply match_public_ws; eauto).
        congruence.
      + assert (E : re_match onfinality_rpc (onfinality_url sub (lit "rpc")) [] = Some [sub])
          by (apply match_rpc; eauto).
        congruence.
      + assert (E : re_match onfinality_rpc (onfinality_url sub (lit "rpc/")) [] = Some [sub])
          by (apply match_rpc; eauto).
        congruence. }
  repeat split; rewrite Hcase by (simpl; auto); reflexivity.
Qed.

Lemma resolveRpcUrl_injects_key_witness :
  resolveRpcUrl (lit "0123abcd") (onfinality_url (lit "polkadot") (lit "public-ws"))
    = onfinality_url (lit "polkadot") (lit "ws?apikey=" ++ lit "0123abcd") /\
  resolveRpcUrl (lit "0123abcd") (onfinality_url (lit "polkadot") (lit "public-ws/"))
    = onfinality_url (lit "polkadot") (lit "ws?apikey=" ++ lit "0123abcd") /\
  resolveRpcUrl (lit "0123abcd") (onfinality_url (lit "polkadot") (lit "rpc"))
    = onfinality_url (lit "polkadot") (lit "rpc?apikey=" ++ lit "0123abcd") /\
  resolveRpcUrl (lit "0123abcd") (onfinality_url (lit "polkadot") (lit "rpc/"))
    = onfinality_url (lit "polkadot") (lit "rpc?apikey=" ++ lit "0123abcd").
Proof.
  apply (resolveRpcUrl_injects_key (lit "0123abcd") (lit "polkadot")).
  - split; [discriminate | by repeat constructor].
  - repeat constructor; discriminate.
Defined.

(** X11. [resolveRpcUrl] is idempotent, whatever the API key: a url it has
    rewritten matches neither pattern, so resolving it again changes
    nothing and the key is never appended twice. *)
Theorem resolveRpcUrl_idempotent (key u : jsstring) :
  resolveRpcUrl key (resolveRpcUrl key u) = resolveRpcUrl key u.
Proof.
  assert (Hfix : forall v, re_match onfinality_public_ws v [] = None ->
                           re_match onfinality_rpc v [] = None ->
                           resolveRpcUrl key v = v).
  { intros v N1 N2.
    destruct (resolveRpcUrl_cases key v)
      as [(sub & _ & E & _)|[(sub & _ & E & _)|(_ & _ & E)]]; congruence. }
  destruct (resolveRpcUrl_cases key u)
    as [(sub & Hsub & _ & _ & ->)|[(sub & Hsub & _ & _ & ->)|(N1 & N2 & ->)]].
  - destruct (rewritten_matches_nothing sub (get_substitution u [] [] [sub] key) Hsub)
      as (N1 & N2 & _). by apply Hfix.
  - destruct (rewritten_matches_nothing sub (get_substitution u [] [] [sub] key) Hsub)
      as (_ & _ & N1 & N2). by apply Hfix.
  - by apply Hfix.
Qed.

(** ** The providers' [send] *)

Lemma isUnhealthyRpcError_object properties :
  EvmUtil.isUnhealthyRpcError (VObject properties) = Some false /\
    get_property properties "reason" = VString (lit "processing response error") \/
  EvmUtil.isUnhealthyRpcError (VObject properties) = Some true /\
    get_property properties "reason" <> VString (lit "processing response error").
Proof.
  unfold EvmUtil.isUnhealthyRpcError. simpl get.
  destruct (get_property properties "reason") as [| | | |s|]; simpl;
    try (right; split; [reflexivity | discriminate]).
  rewrite orb_false_r. destruct (bool_decide_reflect (lit "processing response error" = s)).
  - left. by subst.
  - right. split; [done|]. intros [= E]. by subst.
Qed.

(** X12. [send] of [StandardRpcProvider] and of [BatchRpcProvider] hands on
    what [super.send] resolves with and emits nothing; when [super.send]
    rejects with an error object it always rethrows that same error, and it
    emits the error as an "error" event exactly when the error's reason is
    not "processing response error".  A rejection with undefined or null
    ends in a TypeError instead, with nothing emitted. *)
Theorem provider_send_rethrows :
  (forall result,
      StandardRpcProvider_send (inl result) = (Returned result, []) /\
      BatchRpcProvider_send (inl result) = (Returned result, [])) /\
  (forall properties,
      let err := VObject properties in
      BatchRpcProvider_send (inr err) = StandardRpcProvider_send (inr err) /\
      fst (StandardRpcProvider_send (inr err)) = Rethrown err /\
      (snd (StandardRpcProvider_send (inr err)) = [] <->
         get_property properties "reason" = VString (lit "processing response error")) /\
      (snd (StandardRpcProvider_send (inr err)) = [err] <->
         get_property properties "reason" <> VString (lit "processing response error"))) /\
  StandardRpcProvider_send (inr VUndefined) = (ThrewTypeError, []) /\
  StandardRpcProvider_send (inr VNull) = (ThrewTypeError, []).
Proof.
  split; [done|]. split; [|done].
  intros properties err. split; [reflexivity|].
  unfold StandardRpcProvider_send, provider_send. subst err.
  destruct (isUnhealthyRpcError_object properties) as [[-> Hr]|[-> Hr]]; simpl.
  - split; [done|]. split; [done|]. split; [discriminate | done].
  - split; [done|]. split; [|done]. split; [discriminate | done].
Qed.

End EvmExtras.

(** ** What the health check logs *)

Section EvmLog.
Import EvmUtil.
Variable W : World.

Lemma isHealthyRpc_errors url chainId log :
  logged_errors (snd (isHealthyRpc W url chainId log))
  = logged_errors log ++ (if reads_in_time W url chainId then [] else [url]) /\
  (fst (isHealthyRpc W url chainId log) = true -> reads_in_time W url chainId = true).
Proof.
  unfold isHealthyRpc, probe, race, reads_in_time, logged_errors.
  destruct (rpc W url chainId) as [t ans|t e| |e|t e]; simpl;
    try destruct (t <? RPC_HEALTHCHECK_TIMEOUT W); simpl;
    rewrite ?app_nil_r; split; try done; discriminate.
Qed.

Lemma getHealthyRpc_errors rpcUrls chainId : forall log,
  exists new,
    probed (snd (getHealthyRpc W rpcUrls chainId log)) = probed log ++ new /\
    logged_errors (snd (getHealthyRpc W rpcUrls chainId log))
    = logged_errors log ++ List.filter (fun u => negb (reads_in_time W u chainId)) new.
Proof.
  induction rpcUrls as [|u rest IH]; intros log; simpl.
  - exists []. by rewrite !app_nil_r.
  - pose proof (isHealthyRpc_log W u chainId log) as [_ Hp].
    pose proof (isHealthyRpc_errors u chainId log) as [He Ha].
    destruct (isHealthyRpc W u chainId log) as [[|] log']; simpl in *.
    + exists [u]. split; [done|]. simpl. rewrite Ha by done. simpl. by rewrite He, Ha.
    + destruct (IH log') as (new & Hp' & He'). exists (u :: new).
      rewrite Hp', He', Hp, He, <- !app_assoc. split; [done|]. simpl.
      by destruct (reads_in_time W u chainId).
Qed.

End EvmLog.

(** X15. [getHealthyRpc] logs an error for exactly those of the endpoints it
    probed on which the [try] block of the probe threw, in probing order:
    those whose eth_chainId call did not resolve before the timeout
    (rejected, timed out, or no provider could be built), and those that
    resolved in time with a result that [parseInt] cannot convert to a
    string.  An endpoint that answers in time with a convertible result for
    another chain id is passed over without a log entry, and the endpoint
    returned is never logged. *)
Theorem getHealthyRpc_logs_only_failures (W : EvmUtil.World) rpcUrls chainId :
  let out := EvmUtil.getHealthyRpc W rpcUrls chainId [] in
  EvmUtil.logged_errors (snd out)
    = List.filter (fun u => negb (EvmUtil.reads_in_time W u chainId))
        (EvmUtil.probed (snd out)) /\
  (forall u, fst out = Some u -> EvmUtil.reads_in_time W u chainId = true) /\
  (forall u, EvmUtil.reads_in_time W u chainId = true <->
     exists t rpcChainId,
       EvmUtil.rpc W u chainId = EvmUtil.Answers t rpcChainId /\
       t < EvmUtil.RPC_HEALTHCHECK_TIMEOUT W).
Proof.
  cbv zeta. split; [|split].
  - destruct (getHealthyRpc_errors W rpcUrls chainId []) as (new & -> & ->). done.
  - intros u Hu. pose proof (getHealthyRpc_first W rpcUrls chainId []) as H.
    rewrite Hu in H. destruct H as (_ & _ & _ & _ & Hh & _).
    unfold EvmUtil.healthy in Hh.
    by apply (isHealthyRpc_errors W u chainId []).
  - intros u. unfold EvmUtil.reads_in_time.
    destruct (EvmUtil.rpc W u chainId) as [t ans|t e| |e|t e].
    + rewrite Z.ltb_lt. split; [eauto|]. intros (t' & ans' & [= <- <-] & H). done.
    + split; [discriminate|]. intros (? & ? & [=] & _).
    + split; [discriminate|]. intros (? & ? & [=] & _).
    + split; [discriminate|]. intros (? & ? & [=] & _).
    + split; [discriminate|]. intros (? & ? & [=] & _).
Qed.
